(** * Fixed pool allocator and lock-free ring buffer

    A shallow embedding of the two data structures of the repository:
    - [Pool]: the template class [k2lib::Pool<T, SIZE>] (bitmap-tracked
      fixed-capacity allocator),
    - [RingBuffer]: the registry of ring buffers of [Exercise4.c]
      ([ring_buffer_init], [ring_buffer_put], [ring_buffer_get]).

    Machine integers are kept in [Z] with the conversions of the C
    abstract machine written out.  Arrays are lists indexed with
    stdpp's lookup and insert; an access outside an array is [None].
    The caller's buffers live in a byte-addressed memory.

    The modules [Pool] and [RingBuffer] hold the definitions,
    [PoolProofs] and [RingBufferProofs] the properties.  [Uart] holds
    the functions of the UART driver that call the ring buffer,
    [UartProofs] their properties. *)

From Stdlib Require Import ZArith Lia.
From Stdlib.Strings Require Import Byte.
From stdpp Require Import base option list numbers.

Local Open Scope Z_scope.

(** ** Integer conversions *)

Module CInt.

(** Conversion to an unsigned type of [bits] bits. *)
Definition wrap (bits z : Z) : Z := z mod 2 ^ bits.

(** Conversion to a signed two's complement type of [bits] bits. *)
Definition swrap (bits z : Z) : Z :=
  let u := wrap bits z in
  if u <? 2 ^ (bits - 1) then u else u - 2 ^ bits.

Definition to_uint8 (z : Z) : Z := wrap 8 z.

End CInt.

(** ** Byte arrays *)

Module Bytes.

(** [a[off]] as an rvalue; [None] outside the array. *)
Definition load (a : list Z) (off : Z) : option Z :=
  if 0 <=? off then a !! Z.to_nat off else None.

(** [a[off] = v]; [None] outside the array. *)
Definition store (a : list Z) (off v : Z) : option (list Z) :=
  if (0 <=? off) && (off <? Z.of_nat (length a))
  then Some (<[Z.to_nat off := v]> a)
  else None.

End Bytes.

(** ** The pool *)

Module Pool.
Import CInt Bytes.

(** What the class template is instantiated with and where it lives:
    the widths of [int] and [size_t] on the target, the template
    parameter [SIZE], the address of [elements[0]] and [sizeof(T)]. *)
Class Params : Type := {
  int_bits : Z;
  size_bits : Z;
  SIZE : Z;
  elements : Z;
  sizeof_T : Z
}.

Section WithParams.

Context {P : Params}.

Definition INT_MAX : Z := 2 ^ (int_bits - 1) - 1.
Definition to_int : Z -> Z := swrap int_bits.
Definition to_size_t : Z -> Z := wrap size_bits.

Definition NULL : Z := 0.

Definition BITS_IN_UINT8 : Z := 8.

(** [(SIZE + BITS_IN_UINT8 - 1) / BITS_IN_UINT8], computed in [size_t]. *)
Definition NO_BYTES : Z :=
  to_size_t (to_size_t SIZE + BITS_IN_UINT8 - 1) / BITS_IN_UINT8.

(** The data members that the member functions read and write.  The
    contents of [elements] never matter, only the addresses. *)
Record pool : Type := mkPool {
  info : list Z;
  free_elements_cnt : Z
}.

(** [&elements[i]] *)
Definition slot (i : Z) : Z := elements + i * sizeof_T.

(** [Pool::Pool]: every byte of [info] becomes [0xFF]. *)
Definition Pool_ctor : pool :=
  {| info := replicate (Z.to_nat NO_BYTES) 255;
     free_elements_cnt := SIZE |}.

(** [Pool::testBit].  [bit_index / BITS_IN_UINT8] and
    [bit_index % BITS_IN_UINT8] are computed in [size_t]
    ([BITS_IN_UINT8] is a [size_t]) and stored in an [int]. *)
Definition testBit (p : pool) (bit_index : Z) : option bool :=
  if bit_index >=? SIZE then Some false
  else
    let byte_offset := to_int (to_size_t bit_index / BITS_IN_UINT8) in
    let bit_index := to_int (to_size_t bit_index mod BITS_IN_UINT8) in
    b ← load (info p) byte_offset;
    Some (negb (Z.land b (to_uint8 (Z.shiftl 1 bit_index)) =? 0)).

(** [Pool::setBit] *)
Definition setBit (p : pool) (bit_index : Z) : option pool :=
  if bit_index >=? SIZE then Some p
  else
    let byte_offset := to_int (to_size_t bit_index / BITS_IN_UINT8) in
    let bit_index := to_int (to_size_t bit_index mod BITS_IN_UINT8) in
    b ← load (info p) byte_offset;
    inf ← store (info p) byte_offset
            (to_uint8 (Z.lor b (to_uint8 (Z.shiftl 1 bit_index))));
    Some {| info := inf; free_elements_cnt := free_elements_cnt p |}.

(** [Pool::clrBit] *)
Definition clrBit (p : pool) (bit_index : Z) : option pool :=
  if bit_index >=? SIZE then Some p
  else
    let byte_offset := to_int (to_size_t bit_index / BITS_IN_UINT8) in
    let bit_index := to_int (to_size_t bit_index mod BITS_IN_UINT8) in
    b ← load (info p) byte_offset;
    inf ← store (info p) byte_offset
            (to_uint8 (Z.land b (Z.lnot (to_uint8 (Z.shiftl 1 bit_index)))));
    Some {| info := inf; free_elements_cnt := free_elements_cnt p |}.

(** The loop of [Pool::palloc], [n] iterations left, at index [i].
    [free_elements_cnt] is positive when the loop runs, so the
    decrement stays in range. *)
Fixpoint palloc_scan (n : nat) (i : Z) (p : pool) : option (Z * pool) :=
  match n with
  | O => Some (NULL, p)
  | S n' =>
      b ← testBit p i;
      if b : bool then
        p' ← clrBit p i;
        Some (slot i, {| info := info p';
                         free_elements_cnt := free_elements_cnt p' - 1 |})
      else palloc_scan n' (i + 1) p
  end.

(** [Pool::palloc] *)
Definition palloc (p : pool) : option (Z * pool) :=
  if free_elements_cnt p <=? 0 then Some (NULL, p)
  else palloc_scan (Z.to_nat SIZE) 0 p.

(** [free_elements_cnt++]; overflow of an [int] is undefined. *)
Definition int_incr (c : Z) : option Z :=
  if c <? INT_MAX then Some (c + 1) else None.

(** The loop of [Pool::free]; [q] is the local [p], set to [NULL]
    once a slot matched. *)
Fixpoint free_scan (n : nat) (i : Z) (q : Z) (p : pool) : option pool :=
  match n with
  | O => Some p
  | S n' =>
      if q =? slot i then
        p' ← setBit p i;
        c ← int_incr (free_elements_cnt p');
        free_scan n' (i + 1) NULL
          {| info := info p'; free_elements_cnt := c |}
      else free_scan n' (i + 1) q p
  end.

(** [Pool::free] *)
Definition free (p : pool) (q : Z) : option pool :=
  if q =? NULL then Some p
  else free_scan (Z.to_nat SIZE) 0 q p.

(** [Pool::size] *)
Definition size (p : pool) : Z := free_elements_cnt p.

(** *** The bitmap seen as a set of indices *)

(** Bit [i] of the bitmap: bit [i mod 8] of byte [i / 8]. *)
Definition bit_at (inf : list Z) (i : Z) : bool :=
  match inf !! Z.to_nat (i / 8) with
  | Some b => Z.testbit b (i mod 8)
  | None => false
  end.

Definition is_free (p : pool) (i : Z) : bool := bit_at (info p) i.

(** Number of set bits among the indices [0 .. n-1]. *)
Fixpoint count_bits (inf : list Z) (n : nat) : Z :=
  match n with
  | O => 0
  | S k => count_bits inf k + (if bit_at inf (Z.of_nat k) then 1 else 0)
  end.

Definition free_slots (p : pool) : Z := count_bits (info p) (Z.to_nat SIZE).

(** [info] has the [NO_BYTES] bytes of its declaration. *)
Definition well_formed (p : pool) : Prop :=
  Z.of_nat (length (info p)) = NO_BYTES.

(** Slot [m] is free and no slot below it is. *)
Definition lowest_free (p : pool) (m : Z) : Prop :=
  0 <= m < SIZE /\ is_free p m = true /\
  forall j, 0 <= j < m -> is_free p j = false.

(** Assumptions on the instantiation: [SIZE] is a positive [int], [int]
    has at least 16 bits and is no wider than [size_t], the array
    [elements] is not at address 0 and [T] has a size. *)
Record params_ok : Prop := {
  SIZE_pos : 0 < SIZE;
  SIZE_int : SIZE <= INT_MAX;
  int_bits_min : 16 <= int_bits;
  int_le_size : int_bits <= size_bits;
  elements_nonnull : 0 < elements;
  sizeof_T_pos : 0 < sizeof_T
}.

(** The counter counts the free slots, as its declaration says. *)
Definition consistent (p : pool) : Prop :=
  well_formed p /\ free_elements_cnt p = free_slots p.

(** What [setBit] and [clrBit] do to the bitmap when they write [v]
    at an index in range. *)
Definition bit_written (p p' : pool) (i : Z) (v : bool) : Prop :=
  well_formed p' /\
  free_elements_cnt p' = free_elements_cnt p /\
  forall j, 0 <= j -> is_free p' j = if j =? i then v else is_free p j.

(** [p'] is [p] with slot [m] taken. *)
Definition taken (p : pool) (m : Z) (p' : pool) : Prop :=
  well_formed p' /\
  free_elements_cnt p' = free_elements_cnt p - 1 /\
  forall j, 0 <= j -> is_free p' j = if j =? m then false else is_free p j.

(** What the body of the loop of [free] does at the matching slot. *)
Definition release (p : pool) (m : Z) : option pool :=
  p' ← setBit p m;
  c ← int_incr (free_elements_cnt p');
  Some {| info := info p'; free_elements_cnt := c |}.

(** The counter is at least the number of free slots. *)
Definition counter_covers (p : pool) : Prop :=
  well_formed p /\ free_slots p <= free_elements_cnt p.

(** The slots below [k] are taken, those from [k] on are free, and the
    counter agrees. *)
Definition prefix_taken (p : pool) (k : Z) : Prop :=
  well_formed p /\
  free_elements_cnt p = SIZE - k /\
  (forall j, 0 <= j < k -> is_free p j = false) /\
  (forall j, k <= j < SIZE -> is_free p j = true).

(** States reached from the constructor by calls of [palloc] and
    [free] with any argument. *)
Inductive reachable : pool -> Prop :=
| reach_ctor : reachable Pool_ctor
| reach_palloc p r p' :
    reachable p -> palloc p = Some (r, p') -> reachable p'
| reach_free p q p' :
    reachable p -> free p q = Some p' -> reachable p'.

(** [n] calls of [palloc] in a row, with the pointers they return. *)
Fixpoint palloc_n (n : nat) (p : pool) : option (list Z * pool) :=
  match n with
  | O => Some ([], p)
  | S n' =>
      '(r, p1) ← palloc p;
      '(rs, p2) ← palloc_n n' p1;
      Some (r :: rs, p2)
  end.

(** Every byte of [info] is a value of [uint8_t] and the counter is a
    value of [int]. *)
Definition typed (p : pool) : Prop :=
  Forall (fun b => 0 <= b < 256) (info p) /\ free_elements_cnt p <= INT_MAX.

End WithParams.

End Pool.

(** ** The ring buffers *)

Module RingBuffer.
Import CInt.

(** The width of [size_t] on the target and the macro
    [RING_BUFFER_MAX], which the file uses and does not define. *)
Class Params : Type := {
  size_bits : Z;
  RING_BUFFER_MAX : Z
}.

(** [rbd_t] is [unsigned int]. *)
Definition rbd_t : Type := N.

(** [rb_attr_t]; [attr_buffer] is the address the pointer holds. *)
Record rb_attr_t : Type := mkAttr {
  attr_s_elem : Z;
  attr_n_elem : Z;
  attr_buffer : Z
}.

(** [struct ring_buffer]; [buf] is an address. *)
Record ring_buffer : Type := mkRb {
  s_elem : Z;
  n_elem : Z;
  buf : Z;
  head : Z;
  tail : Z
}.

(** [rb->head = h] and [rb->tail = t]. *)
Definition with_head (rb : ring_buffer) (h : Z) : ring_buffer :=
  {| s_elem := s_elem rb; n_elem := n_elem rb; buf := buf rb;
     head := h; tail := tail rb |}.

Definition with_tail (rb : ring_buffer) (t : Z) : ring_buffer :=
  {| s_elem := s_elem rb; n_elem := n_elem rb; buf := buf rb;
     head := head rb; tail := t |}.

(** Byte-addressed memory, where the caller's buffers live. *)
Definition mem : Type := Z -> byte.

(** The statics [_rb] and [idx], and the memory. *)
Record state : Type := mkState {
  _rb : list ring_buffer;
  idx : Z;
  memory : mem
}.

Definition NULL : Z := 0.

(** [memcpy(dst, data, n)] where [data] holds the source bytes. *)
Definition mem_write (m : mem) (dst : Z) (data : list byte) : mem :=
  fun x =>
    if dst <=? x then
      match data !! Z.to_nat (x - dst) with
      | Some b => b
      | None => m x
      end
    else m x.

(** The [n] bytes that [memcpy(data, src, n)] copies out. *)
Definition mem_read (m : mem) (src : Z) (n : Z) : list byte :=
  (fun k => m (src + k)) <$> seqZ 0 n.

Section WithParams.

Context {P : Params}.

Definition to_size_t : Z -> Z := wrap size_bits.

(** A zero-initialised [struct ring_buffer]. *)
Definition rb_zero : ring_buffer :=
  {| s_elem := 0; n_elem := 0; buf := NULL; head := 0; tail := 0 |}.

(** The statics at program start, over a memory [m]. *)
Definition start (m : mem) : state :=
  {| _rb := replicate (Z.to_nat RING_BUFFER_MAX) rb_zero;
     idx := 0;
     memory := m |}.

(** [_rb[i]] *)
Definition rb_at (st : state) (i : nat) : ring_buffer :=
  default rb_zero (_rb st !! i).

(** [ring_buffer_init].  [rbd] is [None] for a null pointer and
    otherwise the value of the descriptor variable it points to;
    [attr] is [None] for a null pointer.  The result is the return
    value, the descriptor variable afterwards, and the new state. *)
Definition ring_buffer_init (rbd : option rbd_t) (attr : option rb_attr_t)
    (st : state) : Z * option rbd_t * state :=
  match rbd, attr with
  | Some _, Some a =>
      if (idx st <? RING_BUFFER_MAX)
         && negb (attr_buffer a =? NULL) && (attr_s_elem a >? 0)
         && (Z.land (to_size_t (attr_n_elem a - 1)) (attr_n_elem a) =? 0)
      then
        (0, Some (Z.to_N (idx st)),
         {| _rb := <[Z.to_nat (idx st) :=
                      {| s_elem := attr_s_elem a;
                         n_elem := attr_n_elem a;
                         buf := attr_buffer a;
                         head := 0;
                         tail := 0 |}]> (_rb st);
            idx := idx st + 1;
            memory := memory st |})
      else (-1, rbd, st)
  | _, _ => (-1, rbd, st)
  end.

(** [_ring_buffer_full] *)
Definition _ring_buffer_full (rb : ring_buffer) : Z :=
  if to_size_t (head rb - tail rb) =? n_elem rb then 1 else 0.

(** [_ring_buffer_empty] *)
Definition _ring_buffer_empty (rb : ring_buffer) : Z :=
  if to_size_t (head rb - tail rb) =? 0 then 1 else 0.

(** [(x & (n_elem - 1)) * s_elem], in [size_t]. *)
Definition offset_of (rb : ring_buffer) (x : Z) : Z :=
  to_size_t (Z.land x (to_size_t (n_elem rb - 1)) * s_elem rb).

(** [ring_buffer_put]; [data] holds the bytes at the pointer [data],
    of which [memcpy] takes the first [s_elem]. *)
Definition ring_buffer_put (rbd : rbd_t) (data : list byte) (st : state)
    : Z * state :=
  let rb := rb_at st (N.to_nat rbd) in
  if (Z.of_N rbd <? RING_BUFFER_MAX) && (_ring_buffer_full rb =? 0) then
    let offset := offset_of rb (head rb) in
    let m := mem_write (memory st) (buf rb + offset)
               (take (Z.to_nat (s_elem rb)) data) in
    (0, {| _rb := <[N.to_nat rbd := with_head rb (to_size_t (head rb + 1))]>
                    (_rb st);
           idx := idx st;
           memory := m |})
  else (-1, st).

(** [ring_buffer_get]; the second component is what [memcpy] stored
    at the pointer [data], [None] when nothing was stored. *)
Definition ring_buffer_get (rbd : rbd_t) (st : state)
    : Z * option (list byte) * state :=
  let rb := rb_at st (N.to_nat rbd) in
  if (Z.of_N rbd <? RING_BUFFER_MAX) && (_ring_buffer_empty rb =? 0) then
    let offset := offset_of rb (tail rb) in
    let out := mem_read (memory st) (buf rb + offset) (s_elem rb) in
    (0, Some out,
     {| _rb := <[N.to_nat rbd := with_tail rb (to_size_t (tail rb + 1))]>
                 (_rb st);
        idx := idx st;
        memory := memory st |})
  else (-1, None, st).

(** *** Calls in sequence *)

Inductive op : Type :=
| Put (data : list byte)
| Get.

Inductive result : Type :=
| PutR (err : Z)
| GetR (err : Z) (out : option (list byte)).

Definition step (rbd : rbd_t) (o : op) (st : state) : result * state :=
  match o with
  | Put data =>
      let '(err, st') := ring_buffer_put rbd data st in (PutR err, st')
  | Get =>
      let '(err, out, st') := ring_buffer_get rbd st in (GetR err out, st')
  end.

Fixpoint run (rbd : rbd_t) (ops : list op) (st : state)
    : list result * state :=
  match ops with
  | [] => ([], st)
  | o :: ops' =>
      let '(r, st1) := step rbd o st in
      let '(rs, st2) := run rbd ops' st1 in
      (r :: rs, st2)
  end.

(** *** Predicates for the statements *)

(** The attribute fields are values of [size_t], the buffer address
    is not negative. *)
Definition attr_typed (a : rb_attr_t) : Prop :=
  0 <= attr_s_elem a < 2 ^ size_bits /\
  0 <= attr_n_elem a < 2 ^ size_bits /\
  0 <= attr_buffer a.

(** States reached from program start by calls of the three
    functions with any arguments, and by any stores of the caller to
    the memory in between. *)
Inductive reachable : state -> Prop :=
| reach_start m : reachable (start m)
| reach_init rbd attr st :
    reachable st -> from_option attr_typed True attr ->
    reachable (ring_buffer_init rbd attr st).2
| reach_put rbd data st :
    reachable st -> reachable (ring_buffer_put rbd data st).2
| reach_get rbd st :
    reachable st -> reachable (ring_buffer_get rbd st).2
| reach_store m st :
    reachable st ->
    reachable {| _rb := _rb st; idx := idx st; memory := m |}.

(** Number of stored elements: [head - tail] in [size_t]. *)
Definition used (rb : ring_buffer) : Z := to_size_t (head rb - tail rb).

(** The stored elements, oldest first, as found in memory. *)
Definition contents (rb : ring_buffer) (m : mem) : list (list byte) :=
  (fun j => mem_read m (buf rb + offset_of rb (to_size_t (tail rb + j)))
              (s_elem rb))
  <$> seqZ 0 (used rb).

Definition params_ok : Prop := 0 < size_bits /\ 0 < RING_BUFFER_MAX.

(** The fields of an entry are values of [size_t] and no more than
    [n_elem] elements are stored. *)
Definition rb_ok (rb : ring_buffer) : Prop :=
  0 <= n_elem rb < 2 ^ size_bits /\
  0 <= head rb < 2 ^ size_bits /\
  0 <= tail rb < 2 ^ size_bits /\
  used rb <= n_elem rb.

(** The table has its [RING_BUFFER_MAX] entries, [idx] is within it,
    every entry is [rb_ok] and the entries from [idx] on are zero. *)
Definition state_ok (st : state) : Prop :=
  length (_rb st) = Z.to_nat RING_BUFFER_MAX /\
  0 <= idx st <= RING_BUFFER_MAX /\
  (forall i, (i < Z.to_nat RING_BUFFER_MAX)%nat -> rb_ok (rb_at st i)) /\
  (forall i, (Z.to_nat (idx st) <= i)%nat -> rb_at st i = rb_zero).

(** The conditions under which [ring_buffer_init] takes its inner branch. *)
Definition init_accepts (rbd : option rbd_t) (attr : option rb_attr_t)
    (st : state) : Prop :=
  idx st < RING_BUFFER_MAX /\ is_Some rbd /\
  exists a, attr = Some a /\ attr_buffer a <> NULL /\ 0 < attr_s_elem a /\
            Z.land (to_size_t (attr_n_elem a - 1)) (attr_n_elem a) = 0.

(** The state after a successful [ring_buffer_init]. *)
Definition registered (a : rb_attr_t) (st : state) : state :=
  {| _rb := <[Z.to_nat (idx st) :=
               {| s_elem := attr_s_elem a; n_elem := attr_n_elem a;
                  buf := attr_buffer a; head := 0; tail := 0 |}]> (_rb st);
     idx := idx st + 1;
     memory := memory st |}.

(** The state after a successful [ring_buffer_put]. *)
Definition put_state (rbd : rbd_t) (data : list byte) (st : state) : state :=
  let rb := rb_at st (N.to_nat rbd) in
  {| _rb := <[N.to_nat rbd := with_head rb (to_size_t (head rb + 1))]>
              (_rb st);
     idx := idx st;
     memory := mem_write (memory st) (buf rb + offset_of rb (head rb))
                 (take (Z.to_nat (s_elem rb)) data) |}.

(** The state after a successful [ring_buffer_get]. *)
Definition get_state (rbd : rbd_t) (st : state) : state :=
  let rb := rb_at st (N.to_nat rbd) in
  {| _rb := <[N.to_nat rbd := with_tail rb (to_size_t (tail rb + 1))]>
              (_rb st);
     idx := idx st;
     memory := memory st |}.

(** What a successful [ring_buffer_get] copies out. *)
Definition front (rbd : rbd_t) (st : state) : list byte :=
  let rb := rb_at st (N.to_nat rbd) in
  mem_read (memory st) (buf rb + offset_of rb (tail rb)) (s_elem rb).

(** [n] is a power of two. *)
Definition is_pow2 (n : Z) : Prop := exists k, 0 <= k /\ n = 2 ^ k.

(** An entry that can hold elements: a power-of-two count, a positive
    element size, and a buffer of [s_elem * n_elem] bytes, a size that
    [size_t] can express. *)
Definition fifo_ok (rb : ring_buffer) : Prop :=
  rb_ok rb /\ is_pow2 (n_elem rb) /\ 0 < s_elem rb /\
  s_elem rb * n_elem rb < 2 ^ size_bits.

(** The descriptor [rbd] names such an entry of the table. *)
Definition fifo_entry (st : state) (rbd : rbd_t) : Prop :=
  Z.of_N rbd < RING_BUFFER_MAX /\
  (N.to_nat rbd < length (_rb st))%nat /\
  fifo_ok (rb_at st (N.to_nat rbd)).

(** The elements stored under [rbd], oldest first. *)
Definition queue (st : state) (rbd : rbd_t) : list (list byte) :=
  contents (rb_at st (N.to_nat rbd)) (memory st).

(** A bounded queue, for comparison: what a series of calls returns
    when the stored elements are [q] and at most [cap] are held. *)
Fixpoint queue_run (cap : nat) (q : list (list byte)) (ops : list op)
    : list result :=
  match ops with
  | [] => []
  | Put d :: ops' =>
      if decide (length q < cap)%nat
      then PutR 0 :: queue_run cap (q ++ [d]) ops'
      else PutR (-1) :: queue_run cap q ops'
  | Get :: ops' =>
      match q with
      | [] => GetR (-1) None :: queue_run cap q ops'
      | d :: q' => GetR 0 (Some d) :: queue_run cap q' ops'
      end
  end.

(** Every element put by [ops] has [s] bytes. *)
Definition sized (s : Z) (o : op) : Prop :=
  match o with
  | Put d => Z.of_nat (length d) = s
  | Get => True
  end.

(** *** One producer and one consumer, statement by statement

    [ring_buffer_put] is three statements, the test, the [memcpy] and
    [head++], and so is [ring_buffer_get]. Below, a caller of put and
    a caller of get on the same descriptor advance one statement at a
    time in any order. This is a model of its own: every statement
    takes effect on the shared state at once and in program order,
    which the C source does not promise. The test reads both counters
    in one step; the caller's own counter cannot change meanwhile, so
    only the read of the other caller's counter matters. *)

Inductive producer_pc : Type :=
| PIdle
| PCopying (data : list byte)
| PIncrementing (data : list byte).

Inductive consumer_pc : Type :=
| CIdle
| CCopying
| CIncrementing (out : list byte).

(** The shared state, where each caller stands, and what the calls
    have returned so far: the elements whose put returned 0 and the
    elements that gets copied out, in order. *)
Record config : Type := mkConfig {
  shared : state;
  ppc : producer_pc;
  cpc : consumer_pc;
  put_done : list (list byte);
  got : list (list byte)
}.

Inductive label : Type :=
| PTest (data : list byte)
| PCopy
| PIncr
| CTest
| CCopy
| CIncr.

(** [st] with the [memcpy] of put done and [head] as it was. *)
Definition copy_in (rbd : rbd_t) (data : list byte) (st : state) : state :=
  let rb := rb_at st (N.to_nat rbd) in
  {| _rb := _rb st;
     idx := idx st;
     memory := mem_write (memory st) (buf rb + offset_of rb (head rb))
                 (take (Z.to_nat (s_elem rb)) data) |}.

(** [st] after [head++]. *)
Definition incr_head (rbd : rbd_t) (st : state) : state :=
  let rb := rb_at st (N.to_nat rbd) in
  {| _rb := <[N.to_nat rbd := with_head rb (to_size_t (head rb + 1))]>
              (_rb st);
     idx := idx st;
     memory := memory st |}.

(** One statement of one caller; [None] when the caller is not at
    that statement. *)
Definition exec (rbd : rbd_t) (l : label) (c : config) : option config :=
  let st := shared c in
  let rb := rb_at st (N.to_nat rbd) in
  match l, ppc c, cpc c with
  | PTest data, PIdle, _ =>
      if (Z.of_N rbd <? RING_BUFFER_MAX) && (_ring_buffer_full rb =? 0)
      then Some {| shared := st; ppc := PCopying data; cpc := cpc c;
                   put_done := put_done c; got := got c |}
      else Some c
  | PCopy, PCopying data, _ =>
      Some {| shared := copy_in rbd data st; ppc := PIncrementing data;
              cpc := cpc c; put_done := put_done c; got := got c |}
  | PIncr, PIncrementing data, _ =>
      Some {| shared := incr_head rbd st; ppc := PIdle; cpc := cpc c;
              put_done := put_done c
                          ++ [take (Z.to_nat (s_elem rb)) data];
              got := got c |}
  | CTest, _, CIdle =>
      if (Z.of_N rbd <? RING_BUFFER_MAX) && (_ring_buffer_empty rb =? 0)
      then Some {| shared := st; ppc := ppc c; cpc := CCopying;
                   put_done := put_done c; got := got c |}
      else Some c
  | CCopy, _, CCopying =>
      Some {| shared := st; ppc := ppc c; cpc := CIncrementing (front rbd st);
              put_done := put_done c; got := got c |}
  | CIncr, _, CIncrementing out =>
      Some {| shared := get_state rbd st; ppc := ppc c; cpc := CIdle;
              put_done := put_done c; got := got c ++ [out] |}
  | _, _, _ => None
  end.

(** The configurations reached from [c0] by statements of the two
    callers in any order, the puts with elements of [s] bytes. *)
Inductive interleaved (rbd : rbd_t) (s : Z) (c0 : config) : config -> Prop :=
| inter_start : interleaved rbd s c0 c0
| inter_step l c c' :
    interleaved rbd s c0 c -> exec rbd l c = Some c' ->
    match l with PTest d => Z.of_nat (length d) = s | _ => True end ->
    interleaved rbd s c0 c'.

(** What holds while the producer is inside a put: the buffer is not
    full, and once the [memcpy] is done the slot at [head] holds the
    element. *)
Definition producer_ok (rbd : rbd_t) (s : Z) (st : state)
    (pc : producer_pc) : Prop :=
  let rb := rb_at st (N.to_nat rbd) in
  match pc with
  | PIdle => True
  | PCopying d => used rb <> n_elem rb /\ Z.of_nat (length d) = s
  | PIncrementing d =>
      used rb <> n_elem rb /\ Z.of_nat (length d) = s /\
      mem_read (memory st) (buf rb + offset_of rb (head rb)) (s_elem rb) = d
  end.

(** What holds while the consumer is inside a get: the buffer is not
    empty, and what was copied out is the oldest stored element. *)
Definition consumer_ok (rbd : rbd_t) (st : state) (pc : consumer_pc) : Prop :=
  let rb := rb_at st (N.to_nat rbd) in
  match pc with
  | CIdle => True
  | CCopying => used rb <> 0
  | CIncrementing out => used rb <> 0 /\ out = front rbd st
  end.

(** The invariant of the interleaved runs that start with the stored
    elements [q0] and element size [s]. *)
Definition spsc_inv (rbd : rbd_t) (s : Z) (q0 : list (list byte))
    (c : config) : Prop :=
  fifo_entry (shared c) rbd /\
  s_elem (rb_at (shared c) (N.to_nat rbd)) = s /\
  q0 ++ put_done c = got c ++ queue (shared c) rbd /\
  producer_ok rbd s (shared c) (ppc c) /\
  consumer_ok rbd (shared c) (cpc c).

(** Both callers between calls, nothing returned yet. *)
Definition idle (st : state) : config :=
  {| shared := st; ppc := PIdle; cpc := CIdle; put_done := []; got := [] |}.

(** What [ring_buffer_init] copies from the attributes. *)
Definition geometry (rb : ring_buffer) : Z * Z * Z :=
  (s_elem rb, n_elem rb, buf rb).

(** The offset with the modulus, as the text between [ring_buffer_put]
    and [ring_buffer_get] gives it:
    [(x % n_elem) * s_elem], in [size_t]; [None] for the division by
    zero. *)
Definition offset_by_modulus (rb : ring_buffer) (x : Z) : option Z :=
  if n_elem rb =? 0 then None
  else Some (to_size_t ((x mod n_elem rb) * s_elem rb)).

(** What [ring_buffer_init] has checked of an entry it filled. *)
Definition validated (rb : ring_buffer) : Prop :=
  0 < s_elem rb /\ buf rb <> NULL /\ (n_elem rb = 0 \/ is_pow2 (n_elem rb)).

(** Attributes that pass the checks of [ring_buffer_init]. *)
Definition acceptable (a : rb_attr_t) : Prop :=
  attr_typed a /\ attr_buffer a <> NULL /\ 0 < attr_s_elem a /\
  (attr_n_elem a = 0 \/ is_pow2 (attr_n_elem a)).

(** [ring_buffer_init] called for each of [attrs] in turn, each time
    with a descriptor variable that holds [r]; the return values and
    the descriptor variables afterwards. *)
Fixpoint init_all (r : rbd_t) (attrs : list rb_attr_t) (st : state)
    : list (Z * option rbd_t) * state :=
  match attrs with
  | [] => ([], st)
  | a :: attrs' =>
      let '(err, rbd, st1) := ring_buffer_init (Some r) (Some a) st in
      let '(rs, st2) := init_all r attrs' st1 in
      ((err, rbd) :: rs, st2)
  end.

(** The buffers of two entries do not overlap. *)
Definition apart (rb1 rb2 : ring_buffer) : Prop :=
  buf rb1 + s_elem rb1 * n_elem rb1 <= buf rb2 \/
  buf rb2 + s_elem rb2 * n_elem rb2 <= buf rb1.

End WithParams.

End RingBuffer.

(** ** The UART driver on top of a ring buffer *)

Module Uart.
Import CInt RingBuffer.

(** One row of [_baud_tbl]. *)
Record baud : Type := mkBaud {
  UCAxBR0 : Z;
  UCAxBR1 : Z;
  UCAxMCTL : Z
}.

(** What the driver takes from outside the file: the target of the
    ring buffer module, whether plain [char] is signed there, the
    address of the static array [_rbmem], the table [_baud_tbl], and
    the bit masks [UCA0RXIFG], [UCSWRST] and [UCA0RXIE] of the device
    header. *)
Class Params : Type := {
  rb_params : RingBuffer.Params;
  char_signed : bool;
  _rbmem : Z;
  _baud_tbl : list baud;
  UCA0RXIFG : Z;
  UCSWRST : Z;
  UCA0RXIE : Z
}.

#[global] Existing Instance rb_params.

(** The statics of the ring buffer module with the memory, the static
    [_rbd], and the registers of the peripheral, of 8 bits each.
    [UCA0RXBUF] holds the character received last. *)
Record uart : Type := mkUart {
  rbs : state;
  _rbd : rbd_t;
  IFG2 : Z;
  IE2 : Z;
  UCA0CTL1 : Z;
  UCA0RXBUF : byte;
  UCA0BR0 : Z;
  UCA0BR1 : Z;
  UCA0MCTL : Z
}.

Section WithParams.

Context {P : Params}.

(** [rb_attr_t attr = {sizeof(_rbmem[0]), ARRAY_SIZE(_rbmem), _rbmem}]
    for [static char _rbmem[8]]. *)
Definition attr : rb_attr_t :=
  {| attr_s_elem := 1; attr_n_elem := 8; attr_buffer := _rbmem |}.

(** The block of [uart_init] that the file shows.  [i] and [status]
    are set by the part it leaves out; [i < ARRAY_SIZE(_baud_tbl)]
    holds when the table has a row [i].  The result is [status]
    afterwards. *)
Definition uart_init_block (i : nat) (status : Z) (u : uart) : Z * uart :=
  match _baud_tbl !! i with
  | Some e =>
      let '(err, rbd, st) :=
        ring_buffer_init (Some (_rbd u)) (Some attr) (rbs u) in
      let ok := err =? 0 in
      (if ok then 0 else status,
       {| rbs := st;
          _rbd := default (_rbd u) rbd;
          IFG2 := IFG2 u;
          IE2 := if ok then to_uint8 (Z.lor (IE2 u) UCA0RXIE) else IE2 u;
          UCA0CTL1 := if ok
                      then to_uint8 (Z.land (UCA0CTL1 u) (Z.lnot UCSWRST))
                      else UCA0CTL1 u;
          UCA0RXBUF := UCA0RXBUF u;
          UCA0BR0 := to_uint8 (UCAxBR0 e);
          UCA0BR1 := to_uint8 (UCAxBR1 e);
          UCA0MCTL := to_uint8 (UCAxMCTL e) |})
  | None => (status, u)
  end.

(** The value of a [char] as an [int]. *)
Definition char_to_int (b : byte) : Z :=
  let v := Z.of_N (Byte.to_N b) in
  if char_signed && (128 <=? v) then v - 256 else v.

(** [uart_getchar].  [char c = -1] is the byte [0xFF] whether [char]
    is signed or not.  [ring_buffer_get] copies [s_elem] bytes to [&c];
    [None] when these are more than the one byte of [c]. *)
Definition uart_getchar (u : uart) : option (Z * uart) :=
  let '(err, out, st) := ring_buffer_get (_rbd u) (rbs u) in
  let u' := {| rbs := st; _rbd := _rbd u; IFG2 := IFG2 u; IE2 := IE2 u;
               UCA0CTL1 := UCA0CTL1 u; UCA0RXBUF := UCA0RXBUF u;
               UCA0BR0 := UCA0BR0 u; UCA0BR1 := UCA0BR1 u;
               UCA0MCTL := UCA0MCTL u |} in
  match out with
  | None | Some [] => Some (char_to_int xff, u')
  | Some [c] => Some (char_to_int c, u')
  | Some (_ :: _ :: _) => None
  end.

(** [rx_isr].  [ring_buffer_put] copies [s_elem] bytes from [&c];
    [None] when these are more than the one byte of [c]. *)
Definition rx_isr (u : uart) : option uart :=
  if Z.land (IFG2 u) UCA0RXIFG =? 0 then Some u
  else
    let c := UCA0RXBUF u in
    let ifg2 := to_uint8 (Z.land (IFG2 u) (Z.lnot UCA0RXIFG)) in
    let rb := rb_at (rbs u) (N.to_nat (_rbd u)) in
    let '(err, st) := ring_buffer_put (_rbd u) [c] (rbs u) in
    if (err =? 0) && (1 <? s_elem rb) then None
    else Some {| rbs := st; _rbd := _rbd u; IFG2 := ifg2; IE2 := IE2 u;
                 UCA0CTL1 := UCA0CTL1 u; UCA0RXBUF := UCA0RXBUF u;
                 UCA0BR0 := UCA0BR0 u; UCA0BR1 := UCA0BR1 u;
                 UCA0MCTL := UCA0MCTL u |}.

(** *** The driver in use *)

(** What the peripheral does when a character [b] comes in: [b] is in
    [UCA0RXBUF] and the flag [UCA0RXIFG] of [IFG2] is set. *)
Definition arrive (b : byte) (u : uart) : uart :=
  {| rbs := rbs u; _rbd := _rbd u; IFG2 := Z.lor (IFG2 u) UCA0RXIFG;
     IE2 := IE2 u; UCA0CTL1 := UCA0CTL1 u; UCA0RXBUF := b;
     UCA0BR0 := UCA0BR0 u; UCA0BR1 := UCA0BR1 u; UCA0MCTL := UCA0MCTL u |}.

(** The characters [bs] come in one after the other, with [rx_isr]
    run for each. *)
Fixpoint receive_all (bs : list byte) (u : uart) : option uart :=
  match bs with
  | [] => Some u
  | b :: bs' => u' ← rx_isr (arrive b u); receive_all bs' u'
  end.

(** [n] calls of [uart_getchar] in a row, with what they return. *)
Fixpoint getchars (n : nat) (u : uart) : option (list Z * uart) :=
  match n with
  | O => Some ([], u)
  | S n' =>
      '(c, u1) ← uart_getchar u;
      '(cs, u2) ← getchars n' u1;
      Some (c :: cs, u2)
  end.

(** The characters received and not yet read, oldest first. *)
Definition pending (u : uart) : list (list byte) := queue (rbs u) (_rbd u).

(** [_rbd] names an entry registered with the attributes of
    [uart_init]. *)
Definition uart_ready (u : uart) : Prop :=
  fifo_entry (rbs u) (_rbd u) /\
  s_elem (rb_at (rbs u) (N.to_nat (_rbd u))) = 1 /\
  n_elem (rb_at (rbs u) (N.to_nat (_rbd u))) = 8.

End WithParams.

End Uart.

(** * Properties of the pool *)

Module PoolProofs.
Import CInt Bytes Pool.

(** ** Bits of a byte *)

Lemma land_pow2_testbit (b k : Z) :
  0 <= k -> (Z.land b (2 ^ k) =? 0) = negb (Z.testbit b k).
Proof.
  intros Hk. destruct (Z.testbit b k) eqn:E; simpl.
  - apply Z.eqb_neq. intros H0.
    assert (Hb : Z.testbit (Z.land b (2 ^ k)) k = true).
    { rewrite Z.land_spec, E, Z.pow2_bits_true by lia. reflexivity. }
    rewrite H0, Z.bits_0 in Hb. discriminate.
  - apply Z.eqb_eq. apply Z.bits_inj'. intros n Hn.
    rewrite Z.land_spec, Z.bits_0, Z.pow2_bits_eqb by lia.
    destruct (Z.eqb_spec k n) as [->|_].
    + rewrite E. reflexivity.
    + apply andb_false_r.
Qed.

Lemma mask_uint8 (k : Z) : 0 <= k < 8 -> to_uint8 (Z.shiftl 1 k) = 2 ^ k.
Proof.
  intros Hk. unfold to_uint8, wrap. rewrite Z.shiftl_1_l.
  apply Z.mod_small. split; [lia|].
  change 8 with (Z.succ 7). apply Z.lt_le_trans with (2 ^ Z.succ k).
  - rewrite Z.pow_succ_r by lia. lia.
  - apply Z.pow_le_mono_r; lia.
Qed.

Lemma testbit_set (b k m : Z) :
  0 <= k < 8 -> 0 <= m < 8 ->
  Z.testbit (to_uint8 (Z.lor b (2 ^ k))) m = Z.testbit b m || (k =? m).
Proof.
  intros Hk Hm. unfold to_uint8, wrap.
  rewrite Z.mod_pow2_bits_low by lia.
  rewrite Z.lor_spec, Z.pow2_bits_eqb by lia. reflexivity.
Qed.

Lemma testbit_clr (b k m : Z) :
  0 <= k < 8 -> 0 <= m < 8 ->
  Z.testbit (to_uint8 (Z.land b (Z.lnot (2 ^ k)))) m
  = Z.testbit b m && negb (k =? m).
Proof.
  intros Hk Hm. unfold to_uint8, wrap.
  rewrite Z.mod_pow2_bits_low by lia.
  rewrite Z.land_spec, Z.lnot_spec, Z.pow2_bits_eqb by lia. reflexivity.
Qed.

(** ** The bitmap operations on indices in range *)

Section WithParams.

Context {P : Params}.
Hypothesis HP : params_ok.

Lemma int_range :
  32768 <= 2 ^ (int_bits - 1) /\
  2 ^ int_bits = 2 * 2 ^ (int_bits - 1) /\
  2 ^ int_bits <= 2 ^ size_bits.
Proof.
  destruct HP. repeat split.
  - change 32768 with (2 ^ 15). apply Z.pow_le_mono_r; lia.
  - rewrite <- Z.pow_succ_r by lia. f_equal. lia.
  - apply Z.pow_le_mono_r; lia.
Qed.

Lemma to_size_t_of_index (z : Z) : 0 <= z <= INT_MAX -> to_size_t z = z.
Proof.
  intros Hz. pose proof int_range. unfold INT_MAX in Hz.
  unfold to_size_t, wrap. apply Z.mod_small. lia.
Qed.

Lemma to_int_small (z : Z) : 0 <= z <= INT_MAX -> to_int z = z.
Proof.
  intros Hz. pose proof int_range. unfold INT_MAX in Hz.
  unfold to_int, swrap, wrap. rewrite Z.mod_small by lia.
  destruct (Z.ltb_spec z (2 ^ (int_bits - 1))); lia.
Qed.

Lemma NO_BYTES_eq : NO_BYTES = (SIZE + 7) / 8.
Proof.
  pose proof int_range. destruct HP. unfold INT_MAX in *.
  unfold NO_BYTES, BITS_IN_UINT8.
  rewrite (to_size_t_of_index SIZE) by (unfold INT_MAX; lia).
  unfold to_size_t, wrap. rewrite Z.mod_small by lia.
  f_equal. lia.
Qed.

Lemma byte_offset_eq (i : Z) :
  0 <= i < SIZE ->
  to_int (to_size_t i / BITS_IN_UINT8) = i / 8 /\
  to_int (to_size_t i mod BITS_IN_UINT8) = i mod 8 /\
  0 <= i / 8 < NO_BYTES /\ 0 <= i mod 8 < 8.
Proof.
  intros Hi. destruct HP. pose proof int_range. unfold BITS_IN_UINT8.
  assert (0 <= i / 8 <= i)
    by (split; [apply Z.div_pos; lia | apply Z.div_le_upper_bound; lia]).
  assert (0 <= i mod 8 < 8) by (apply Z.mod_pos_bound; lia).
  rewrite to_size_t_of_index by lia.
  rewrite !to_int_small by (unfold INT_MAX in *; lia).
  rewrite NO_BYTES_eq.
  split; [reflexivity|]. split; [reflexivity|]. split; [|lia].
  split; [lia|].
  apply Z.div_lt_upper_bound; [lia|].
  pose proof (Z.mod_pos_bound (SIZE + 7) 8 ltac:(lia)).
  pose proof (Z.div_mod (SIZE + 7) 8 ltac:(lia)). lia.
Qed.

Lemma load_in_range (inf : list Z) (o : Z) :
  0 <= o < Z.of_nat (length inf) ->
  exists b, inf !! Z.to_nat o = Some b /\ load inf o = Some b.
Proof.
  intros Ho. destruct (lookup_lt_is_Some_2 inf (Z.to_nat o)) as [b Hb]; [lia|].
  exists b. split; [done|]. unfold load.
  destruct (Z.leb_spec 0 o); [done | lia].
Qed.

Lemma store_in_range (inf : list Z) (o v : Z) :
  0 <= o < Z.of_nat (length inf) ->
  store inf o v = Some (<[Z.to_nat o := v]> inf).
Proof.
  intros Ho. unfold store.
  destruct (Z.leb_spec 0 o), (Z.ltb_spec o (Z.of_nat (length inf))); simpl; (done || lia).
Qed.

(** [testBit] on an index in range reads the bit of the bitmap. *)
Lemma testBit_in_range (p : pool) (i : Z) :
  well_formed p -> 0 <= i < SIZE ->
  testBit p i = Some (is_free p i).
Proof.
  intros Hwf Hi. destruct (byte_offset_eq i Hi) as (E1 & E2 & Hb & Hm).
  unfold testBit. destruct (Z.geb_spec i SIZE); [lia|].
  rewrite E1, E2.
  destruct (load_in_range (info p) (i / 8)) as (b & Hl & ->).
  { unfold well_formed in Hwf. lia. }
  simpl. unfold is_free, bit_at. rewrite Hl.
  rewrite mask_uint8, land_pow2_testbit by lia.
  rewrite negb_involutive. reflexivity.
Qed.

Lemma index_split (i j : Z) :
  i / 8 = j / 8 -> i mod 8 = j mod 8 -> i = j.
Proof.
  intros Hd Hm.
  rewrite (Z.div_mod i 8), (Z.div_mod j 8) by lia. lia.
Qed.

Lemma bit_at_insert (inf : list Z) (i j v : Z) :
  0 <= i -> 0 <= j -> 0 <= i / 8 < Z.of_nat (length inf) ->
  bit_at (<[Z.to_nat (i / 8) := v]> inf) j
  = if i / 8 =? j / 8 then Z.testbit v (j mod 8) else bit_at inf j.
Proof.
  intros Hi Hj Hlen. unfold bit_at.
  destruct (Z.eqb_spec (i / 8) (j / 8)) as [E|E].
  - rewrite <- E, list_lookup_insert_eq by lia. reflexivity.
  - rewrite list_lookup_insert_ne; [reflexivity|].
    assert (0 <= j / 8) by (apply Z.div_pos; lia). lia.
Qed.

Lemma setBit_in_range (p : pool) (i : Z) :
  well_formed p -> 0 <= i < SIZE ->
  exists p', setBit p i = Some p' /\ bit_written p p' i true.
Proof.
  intros Hwf Hi. destruct (byte_offset_eq i Hi) as (E1 & E2 & Hb & Hm).
  unfold well_formed in Hwf.
  unfold setBit. destruct (Z.geb_spec i SIZE); [lia|].
  rewrite E1, E2.
  destruct (load_in_range (info p) (i / 8)) as (b & Hl & ->); [lia|].
  simpl. rewrite store_in_range by lia. simpl.
  eexists. split; [reflexivity|].
  split; [|split].
  - unfold well_formed. simpl. rewrite length_insert. done.
  - reflexivity.
  - intros j Hj. unfold is_free. simpl.
    rewrite bit_at_insert by lia.
    assert (0 <= j mod 8 < 8) by (apply Z.mod_pos_bound; lia).
    rewrite mask_uint8, testbit_set by lia.
    destruct (Z.eqb_spec j i) as [->|Hne].
    + rewrite !Z.eqb_refl. apply orb_true_r.
    + destruct (Z.eqb_spec (i / 8) (j / 8)) as [Ed|Ed]; [|reflexivity].
      destruct (Z.eqb_spec (i mod 8) (j mod 8)) as [Em|Em].
      * exfalso. apply Hne. symmetry. by apply index_split.
      * rewrite orb_false_r. unfold bit_at. rewrite <- Ed, Hl. reflexivity.
Qed.

Lemma clrBit_in_range (p : pool) (i : Z) :
  well_formed p -> 0 <= i < SIZE ->
  exists p', clrBit p i = Some p' /\ bit_written p p' i false.
Proof.
  intros Hwf Hi. destruct (byte_offset_eq i Hi) as (E1 & E2 & Hb & Hm).
  unfold well_formed in Hwf.
  unfold clrBit. destruct (Z.geb_spec i SIZE); [lia|].
  rewrite E1, E2.
  destruct (load_in_range (info p) (i / 8)) as (b & Hl & ->); [lia|].
  simpl. rewrite store_in_range by lia. simpl.
  eexists. split; [reflexivity|].
  split; [|split].
  - unfold well_formed. simpl. rewrite length_insert. done.
  - reflexivity.
  - intros j Hj. unfold is_free. simpl.
    rewrite bit_at_insert by lia.
    assert (0 <= j mod 8 < 8) by (apply Z.mod_pos_bound; lia).
    rewrite mask_uint8, testbit_clr by lia.
    destruct (Z.eqb_spec j i) as [->|Hne].
    + rewrite !Z.eqb_refl. apply andb_false_r.
    + destruct (Z.eqb_spec (i / 8) (j / 8)) as [Ed|Ed]; [|reflexivity].
      destruct (Z.eqb_spec (i mod 8) (j mod 8)) as [Em|Em].
      * exfalso. apply Hne. symmetry. by apply index_split.
      * rewrite andb_true_r. unfold bit_at. rewrite <- Ed, Hl. reflexivity.
Qed.

(** ** Counting the set bits *)

Lemma count_bits_range (inf : list Z) (n : nat) :
  0 <= count_bits inf n <= Z.of_nat n.
Proof.
  induction n as [|n IH]; simpl; [lia|].
  destruct (bit_at inf (Z.of_nat n)); lia.
Qed.

Lemma count_bits_ext (inf inf' : list Z) (n : nat) :
  (forall j, 0 <= j < Z.of_nat n -> bit_at inf' j = bit_at inf j) ->
  count_bits inf' n = count_bits inf n.
Proof.
  induction n as [|n IH]; intros H; simpl; [reflexivity|].
  rewrite IH by (intros; apply H; lia).
  rewrite H by lia. reflexivity.
Qed.

Lemma count_bits_write (inf inf' : list Z) (n : nat) (i : Z) (v : bool) :
  (forall j, 0 <= j -> bit_at inf' j = if j =? i then v else bit_at inf j) ->
  0 <= i < Z.of_nat n ->
  count_bits inf' n
  = count_bits inf n + Z.b2z v - Z.b2z (bit_at inf i).
Proof.
  intros H. induction n as [|n IH]; intros Hi; [lia|].
  simpl. rewrite (H (Z.of_nat n)) by lia.
  destruct (Z.eqb_spec (Z.of_nat n) i) as [E|E].
  - rewrite (count_bits_ext inf inf' n).
    + subst i. destruct v, (bit_at inf (Z.of_nat n)); simpl; lia.
    + intros j Hj. rewrite H by lia.
      destruct (Z.eqb_spec j i); [lia | reflexivity].
  - rewrite IH by lia. lia.
Qed.

Lemma count_bits_pos (inf : list Z) (n : nat) (i : Z) :
  0 <= i < Z.of_nat n -> bit_at inf i = true -> 0 < count_bits inf n.
Proof.
  induction n as [|n IH]; intros Hi Hb; [lia|]. simpl.
  pose proof (count_bits_range inf n).
  destruct (Z.eqb_spec (Z.of_nat n) i) as [E|E].
  - rewrite E, Hb. lia.
  - specialize (IH ltac:(lia) Hb). destruct (bit_at inf (Z.of_nat n)); lia.
Qed.

(** ** [palloc] *)

Lemma palloc_scan_found (n : nat) (p : pool) (i m : Z) :
  well_formed p -> 0 <= i <= m -> m < SIZE -> Z.of_nat n = SIZE - i ->
  is_free p m = true ->
  (forall j, i <= j < m -> is_free p j = false) ->
  exists p', palloc_scan n i p = Some (slot m, p') /\ taken p m p'.
Proof.
  intros Hwf. revert i.
  induction n as [|n IH]; intros i Hi Hm Hn Hfree Hlow; [lia|].
  simpl. rewrite testBit_in_range by (done || lia).
  simpl. destruct (Z.eq_dec i m) as [->|Hne].
  - rewrite Hfree.
    destruct (clrBit_in_range p m Hwf ltac:(lia)) as (p' & -> & Hw & Hc & Hb).
    simpl. eexists. split; [reflexivity|].
    split; [exact Hw|]. split; [simpl; lia|]. exact Hb.
  - rewrite Hlow by lia. apply IH; try lia; [done|].
    intros j Hj. apply Hlow. lia.
Qed.

Lemma palloc_scan_none (n : nat) (p : pool) (i : Z) :
  well_formed p -> 0 <= i -> Z.of_nat n = SIZE - i ->
  (forall j, i <= j < SIZE -> is_free p j = false) ->
  palloc_scan n i p = Some (NULL, p).
Proof.
  intros Hwf. revert i.
  induction n as [|n IH]; intros i Hi Hn Hnone; [reflexivity|].
  simpl. rewrite testBit_in_range by (done || lia).
  simpl. rewrite Hnone by lia. apply IH; try lia.
  intros j Hj. apply Hnone. lia.
Qed.

(** With a positive counter, [palloc] hands out the lowest free slot. *)
Lemma palloc_lowest (p : pool) (m : Z) :
  well_formed p -> 0 < free_elements_cnt p -> lowest_free p m ->
  exists p', palloc p = Some (slot m, p') /\ taken p m p'.
Proof.
  intros Hwf Hc (Hm & Hf & Hlow). unfold palloc.
  destruct (Z.leb_spec (free_elements_cnt p) 0); [lia|].
  apply palloc_scan_found; try done; lia.
Qed.

Lemma palloc_exhausted (p : pool) :
  well_formed p ->
  free_elements_cnt p <= 0 \/
    (forall j, 0 <= j < SIZE -> is_free p j = false) ->
  palloc p = Some (NULL, p).
Proof.
  intros Hwf H. destruct HP. unfold palloc.
  destruct (Z.leb_spec (free_elements_cnt p) 0); [reflexivity|].
  destruct H as [H|H]; [lia|].
  apply palloc_scan_none; try done; lia.
Qed.

Lemma lowest_free_below (p : pool) (n : nat) :
  (exists m, 0 <= m < Z.of_nat n /\ is_free p m = true /\
             forall j, 0 <= j < m -> is_free p j = false)
  \/ (forall j, 0 <= j < Z.of_nat n -> is_free p j = false).
Proof.
  induction n as [|n [IH|IH]].
  - right. intros j Hj. lia.
  - left. destruct IH as (m & Hm & H1 & H2). exists m. split; [lia | done].
  - destruct (is_free p (Z.of_nat n)) eqn:E.
    + left. exists (Z.of_nat n). split; [lia|]. split; [done|]. exact IH.
    + right. intros j Hj.
      destruct (Z.eq_dec j (Z.of_nat n)) as [->|]; [done|]. apply IH. lia.
Qed.

Lemma lowest_free_cases (p : pool) :
  (exists m, lowest_free p m)
  \/ (forall j, 0 <= j < SIZE -> is_free p j = false).
Proof.
  destruct HP.
  destruct (lowest_free_below p (Z.to_nat SIZE)) as [(m & Hm & H)|H].
  - left. exists m. split; [lia | done].
  - right. intros j Hj. apply H. lia.
Qed.

(** ** [free] *)

Lemma slot_inj (i j : Z) : slot i = slot j -> i = j.
Proof. destruct HP. unfold slot. nia. Qed.

Lemma slot_nonnull (i : Z) : 0 <= i -> slot i <> NULL.
Proof. destruct HP. unfold slot, NULL. nia. Qed.

Lemma free_scan_foreign (n : nat) (i q : Z) (p : pool) :
  (forall j, i <= j < i + Z.of_nat n -> q <> slot j) ->
  free_scan n i q p = Some p.
Proof.
  revert i. induction n as [|n IH]; intros i H; [reflexivity|].
  simpl. destruct (Z.eqb_spec q (slot i)) as [E|_].
  - exfalso. apply (H i); [lia | done].
  - apply IH. intros j Hj. apply H. lia.
Qed.

Lemma free_scan_found (n : nat) (i m : Z) (p : pool) :
  0 <= i <= m -> m < i + Z.of_nat n ->
  free_scan n i (slot m) p = release p m.
Proof.
  revert i. induction n as [|n IH]; intros i Hi Hm; [lia|].
  simpl. destruct (Z.eqb_spec (slot m) (slot i)) as [E|E].
  - apply slot_inj in E. subst i. unfold release.
    destruct (setBit p m) as [p'|]; [|reflexivity]. simpl.
    destruct (int_incr (free_elements_cnt p')) as [c|]; [|reflexivity].
    simpl. apply free_scan_foreign.
    intros j Hj. apply not_eq_sym, slot_nonnull. lia.
  - apply IH; [|lia]. assert (i <> m) by congruence. lia.
Qed.

Lemma free_slot (p : pool) (m : Z) :
  0 <= m < SIZE -> free p (slot m) = release p m.
Proof.
  intros Hm. unfold free.
  destruct (Z.eqb_spec (slot m) NULL) as [E|_].
  - exfalso. by apply (slot_nonnull m); [lia|].
  - apply free_scan_found; lia.
Qed.

Lemma free_null (p : pool) : free p NULL = Some p.
Proof. reflexivity. Qed.

Lemma free_foreign (p : pool) (q : Z) :
  (forall j, 0 <= j < SIZE -> q <> slot j) -> free p q = Some p.
Proof.
  intros H. unfold free. destruct (q =? NULL); [reflexivity|].
  apply free_scan_foreign. intros j Hj. apply H. lia.
Qed.

Lemma slot_cases (q : Z) :
  (exists m, 0 <= m < SIZE /\ q = slot m)
  \/ (forall j, 0 <= j < SIZE -> q <> slot j).
Proof.
  destruct HP.
  destruct (decide (0 <= q - elements /\ (q - elements) mod sizeof_T = 0
                    /\ (q - elements) / sizeof_T < SIZE)) as [(H1 & H2 & H3)|H].
  - left. exists ((q - elements) / sizeof_T). split.
    + split; [apply Z.div_pos; lia | lia].
    + unfold slot.
      assert (Hs : sizeof_T <> 0) by lia.
      pose proof (Z.div_mod (q - elements) sizeof_T Hs). lia.
  - right. intros j Hj ->. apply H. unfold slot.
    replace (elements + j * sizeof_T - elements) with (j * sizeof_T) by lia.
    rewrite Z.mod_mul, Z.div_mul by lia. lia.
Qed.

(** Releasing slot [m] sets its bit and counts one more free slot,
    whatever the bit was. *)
Lemma release_spec (p : pool) (m : Z) :
  well_formed p -> 0 <= m < SIZE -> free_elements_cnt p < INT_MAX ->
  exists p', release p m = Some p' /\ well_formed p' /\
    free_elements_cnt p' = free_elements_cnt p + 1 /\
    forall j, 0 <= j -> is_free p' j = if j =? m then true else is_free p j.
Proof.
  intros Hwf Hm Hc. unfold release.
  destruct (setBit_in_range p m Hwf Hm) as (p1 & -> & Hw & Hcnt & Hb).
  simpl. unfold int_incr. rewrite Hcnt.
  destruct (Z.ltb_spec (free_elements_cnt p) INT_MAX); [|lia].
  simpl. eexists. split; [reflexivity|]. split; [exact Hw|].
  split; [reflexivity|]. exact Hb.
Qed.

Lemma release_Some (p : pool) (m : Z) (p' : pool) :
  well_formed p -> 0 <= m < SIZE -> release p m = Some p' ->
  well_formed p' /\
  free_elements_cnt p' = free_elements_cnt p + 1 /\
  forall j, 0 <= j -> is_free p' j = if j =? m then true else is_free p j.
Proof.
  intros Hwf Hm H.
  destruct (Z.lt_ge_cases (free_elements_cnt p) INT_MAX) as [Hc|Hc].
  - destruct (release_spec p m Hwf Hm Hc) as (p1 & E & H1).
    rewrite E in H. by inversion H; subst.
  - exfalso. unfold release in H.
    destruct (setBit_in_range p m Hwf Hm) as (p1 & E & Hw & Hcnt & Hb).
    rewrite E in H. simpl in H. unfold int_incr in H. rewrite Hcnt in H.
    destruct (Z.ltb_spec (free_elements_cnt p) INT_MAX); [lia|]. discriminate.
Qed.

(** ** The constructor *)

Lemma NO_BYTES_nonneg : 0 <= NO_BYTES.
Proof. rewrite NO_BYTES_eq. destruct HP. apply Z.div_pos; lia. Qed.

Lemma ctor_well_formed : well_formed Pool_ctor.
Proof.
  pose proof NO_BYTES_nonneg.
  unfold well_formed, Pool_ctor. simpl. rewrite length_replicate. lia.
Qed.

Lemma ctor_all_free (j : Z) : 0 <= j < SIZE -> is_free Pool_ctor j = true.
Proof.
  intros Hj. destruct (byte_offset_eq j Hj) as (_ & _ & Hb & Hm).
  unfold is_free, bit_at, Pool_ctor. simpl.
  rewrite lookup_replicate_2 by lia.
  change 255 with (Z.ones 8). apply Z.ones_spec_low. lia.
Qed.

Lemma count_bits_full (inf : list Z) (n : nat) :
  (forall j, 0 <= j < Z.of_nat n -> bit_at inf j = true) ->
  count_bits inf n = Z.of_nat n.
Proof.
  induction n as [|n IH]; intros H; simpl; [reflexivity|].
  rewrite IH by (intros; apply H; lia).
  rewrite H by lia. lia.
Qed.

Lemma ctor_consistent : consistent Pool_ctor.
Proof.
  split; [apply ctor_well_formed|]. destruct HP.
  unfold free_slots. rewrite count_bits_full.
  - simpl. lia.
  - intros j Hj. apply ctor_all_free. lia.
Qed.

(** ** What every reachable state satisfies *)

Lemma consistent_covers (p : pool) : consistent p -> counter_covers p.
Proof. intros [Hwf E]. split; [done | lia]. Qed.

Lemma taken_free_slots (p p' : pool) (m : Z) :
  0 <= m < SIZE -> is_free p m = true -> taken p m p' ->
  free_slots p' = free_slots p - 1.
Proof.
  intros Hm Hf (_ & _ & Hb). unfold free_slots.
  rewrite (count_bits_write (info p) (info p') _ m false) by (done || lia).
  unfold is_free in Hf. rewrite Hf. simpl. lia.
Qed.

Lemma palloc_cases (p : pool) :
  well_formed p ->
  palloc p = Some (NULL, p)
  \/ exists m p', lowest_free p m /\ 0 < free_elements_cnt p /\
       palloc p = Some (slot m, p') /\ taken p m p'.
Proof.
  intros Hwf.
  destruct (Z.le_gt_cases (free_elements_cnt p) 0) as [Hc|Hc].
  { left. apply palloc_exhausted; auto. }
  destruct (lowest_free_cases p) as [(m & Hm)|Hnone].
  - right. destruct (palloc_lowest p m Hwf Hc Hm) as (p' & E & Ht).
    exists m, p'. done.
  - left. apply palloc_exhausted; auto.
Qed.

Lemma free_cases (p : pool) (q : Z) :
  free p q = Some p
  \/ exists m, 0 <= m < SIZE /\ q = slot m /\ free p q = release p m.
Proof.
  destruct (slot_cases q) as [(m & Hm & ->)|H].
  - right. exists m. split; [done|]. split; [done|]. by apply free_slot.
  - left. by apply free_foreign.
Qed.

Lemma release_free_slots (p p' : pool) (m : Z) :
  well_formed p -> 0 <= m < SIZE -> release p m = Some p' ->
  free_slots p' = free_slots p + 1 - Z.b2z (is_free p m).
Proof.
  intros Hwf Hm H. destruct (release_Some p m p' Hwf Hm H) as (_ & _ & Hb).
  unfold free_slots.
  rewrite (count_bits_write (info p) (info p') _ m true) by (done || lia).
  reflexivity.
Qed.

Lemma reachable_covers (p : pool) : reachable p -> counter_covers p.
Proof.
  induction 1 as [|p r p' _ [Hwf Hle] Hp|p q p' _ [Hwf Hle] Hf].
  - apply consistent_covers, ctor_consistent.
  - destruct (palloc_cases p Hwf) as [E|(m & p1 & Hm & Hc & E & Ht)];
      rewrite E in Hp; inversion Hp; subst; [done|].
    destruct Hm as (Hm & Hfree & _).
    split; [apply Ht|].
    rewrite (taken_free_slots p p' m) by done.
    destruct Ht as (_ & -> & _). lia.
  - destruct (free_cases p q) as [E|(m & Hm & -> & E)];
      rewrite E in Hf; [by inversion Hf; subst|].
    destruct (release_Some p m p' Hwf Hm Hf) as (Hw & Hc & _).
    split; [done|].
    rewrite (release_free_slots p p' m) by done.
    destruct (is_free p m); simpl; lia.
Qed.

(** ** The calls that keep the counter exact *)

Lemma consistent_palloc (p : pool) (r : Z) (p' : pool) :
  consistent p -> palloc p = Some (r, p') -> consistent p'.
Proof.
  intros [Hwf Hc] Hp.
  destruct (palloc_cases p Hwf) as [E|(m & p1 & Hm & _ & E & Ht)];
    rewrite E in Hp; inversion Hp; subst; [done|].
  destruct Hm as (Hm & Hfree & _).
  split; [apply Ht|].
  rewrite (taken_free_slots p p' m) by done.
  destruct Ht as (_ & -> & _). lia.
Qed.

Lemma consistent_room (p : pool) (i : Z) :
  consistent p -> 0 <= i < SIZE -> is_free p i = false ->
  0 <= free_elements_cnt p < SIZE.
Proof.
  intros [Hwf Hc] Hi Hf. rewrite Hc. unfold free_slots.
  pose proof (count_bits_range (info p) (Z.to_nat SIZE)).
  split; [lia|].
  destruct (Z.eq_dec (count_bits (info p) (Z.to_nat SIZE)) SIZE) as [E|]; [|lia].
  exfalso.
  assert (Hw : forall j, 0 <= j ->
             bit_at (info p) j = if j =? i then false else bit_at (info p) j).
  { intros j _. destruct (Z.eqb_spec j i) as [->|]; [exact Hf | done]. }
  pose proof (count_bits_write (info p) (info p) (Z.to_nat SIZE) i false Hw
                ltac:(lia)) as Hcw.
  unfold is_free in Hf. rewrite Hf in Hcw. simpl in Hcw.
  destruct (setBit_in_range p i Hwf Hi) as (p1 & _ & _ & _ & Hb).
  pose proof (count_bits_write (info p) (info p1) (Z.to_nat SIZE) i true Hb
                ltac:(lia)) as Hc1.
  rewrite Hf in Hc1. simpl in Hc1.
  pose proof (count_bits_range (info p1) (Z.to_nat SIZE)). lia.
Qed.

(** Freeing an allocated slot: the call returns, the counter grows by
    one, the slot is free again and the counter stays exact. *)
Lemma free_allocated (p : pool) (i : Z) :
  consistent p -> 0 <= i < SIZE -> is_free p i = false ->
  exists p', free p (slot i) = Some p' /\
    size p' = size p + 1 /\ consistent p' /\
    forall j, 0 <= j -> is_free p' j = if j =? i then true else is_free p j.
Proof.
  intros Hc Hi Hf. pose proof (consistent_room p i Hc Hi Hf) as Hr.
  destruct Hc as [Hwf Hc]. destruct HP.
  destruct (release_spec p i Hwf Hi ltac:(lia)) as (p' & E & Hw & Hcnt & Hb).
  exists p'. rewrite free_slot by done.
  split; [done|]. split; [done|]. split; [|done].
  split; [done|].
  rewrite (release_free_slots p p' i) by done.
  rewrite Hf. simpl. lia.
Qed.

(** ** Allocating until the pool is empty *)

Lemma ctor_prefix_taken : prefix_taken Pool_ctor 0.
Proof.
  split; [apply ctor_well_formed|]. split; [simpl; lia|].
  split; [intros j Hj; lia|]. intros j Hj. by apply ctor_all_free.
Qed.

Lemma prefix_taken_step (p : pool) (k : Z) :
  prefix_taken p k -> 0 <= k < SIZE ->
  exists p', palloc p = Some (slot k, p') /\ prefix_taken p' (k + 1).
Proof.
  intros (Hwf & Hc & Hlo & Hhi) Hk.
  destruct (palloc_lowest p k Hwf ltac:(lia)) as (p' & E & Hw & Hc' & Hb).
  { split; [done|]. split; [apply Hhi; lia | done]. }
  exists p'. split; [done|]. split; [done|]. split; [lia|]. split.
  - intros j Hj. rewrite Hb by lia.
    destruct (Z.eqb_spec j k); [done|]. apply Hlo. lia.
  - intros j Hj. rewrite Hb by lia.
    destruct (Z.eqb_spec j k); [lia|]. apply Hhi. lia.
Qed.

Lemma palloc_n_prefix (n : nat) (p : pool) (k : Z) :
  prefix_taken p k -> 0 <= k -> k + Z.of_nat n <= SIZE ->
  exists p', palloc_n n p = Some (slot <$> seqZ k (Z.of_nat n), p') /\
             prefix_taken p' (k + Z.of_nat n).
Proof.
  revert p k. induction n as [|n IH]; intros p k Hp Hk Hn.
  - exists p. split; [reflexivity|]. by rewrite Z.add_0_r.
  - destruct (prefix_taken_step p k Hp ltac:(lia)) as (p1 & E1 & Hp1).
    destruct (IH p1 (k + 1) Hp1 ltac:(lia) ltac:(lia)) as (p2 & E2 & Hp2).
    exists p2. split.
    + rewrite Nat2Z.inj_succ, seqZ_cons, fmap_cons by lia.
      replace (Z.pred (Z.succ (Z.of_nat n))) with (Z.of_nat n) by lia.
      replace (Z.succ k) with (k + 1) by lia.
      cbn [palloc_n]. rewrite E1. cbn. rewrite E2. reflexivity.
    + replace (k + Z.of_nat (S n)) with (k + 1 + Z.of_nat n) by lia. done.
Qed.

(** C2: for a pool of [SIZE >= 1] slots, [size] is [SIZE] after
    construction; the next [SIZE] calls of [palloc] return the
    addresses of the slots [0 .. SIZE-1], all non-null and pairwise
    distinct; one more call returns [NULL], and [size] is then 0. *)
Theorem palloc_until_exhausted :
  size Pool_ctor = SIZE /\
  exists p',
    palloc_n (Z.to_nat SIZE) Pool_ctor = Some (slot <$> seqZ 0 SIZE, p') /\
    length (slot <$> seqZ 0 SIZE) = Z.to_nat SIZE /\
    NoDup (slot <$> seqZ 0 SIZE) /\
    Forall (fun r => r <> NULL) (slot <$> seqZ 0 SIZE) /\
    palloc p' = Some (NULL, p') /\
    size p' = 0.
Proof.
  destruct HP. split; [reflexivity|].
  destruct (palloc_n_prefix (Z.to_nat SIZE) Pool_ctor 0 ctor_prefix_taken)
    as (p' & E & Hwf & Hc & Hlo & _); [lia | lia |].
  rewrite Z2Nat.id in E by lia.
  exists p'. split; [exact E|].
  split; [by rewrite length_fmap, length_seqZ|].
  split.
  - apply NoDup_fmap_2; [|apply NoDup_seqZ].
    intros i j. apply slot_inj.
  - split.
    + apply Forall_fmap, Forall_forall. intros i Hi.
      apply list_elem_of_In, elem_of_seqZ in Hi. apply slot_nonnull. lia.
    + split; [|unfold size; lia].
      apply palloc_exhausted; [done|]. left. lia.
Qed.

(** ** The lowest free slot is handed out first *)

Lemma count_bits_none (inf : list Z) (n : nat) :
  (forall j, 0 <= j < Z.of_nat n -> bit_at inf j = false) ->
  count_bits inf n = 0.
Proof.
  induction n as [|n IH]; intros H; [done|].
  simpl. rewrite IH by (intros; apply H; lia). rewrite H by lia. done.
Qed.

(** Freeing an allocated slot when the counter is at least the number
    of free slots and below [INT_MAX]. *)
Lemma free_allocated_covers (p : pool) (i : Z) :
  counter_covers p -> free_elements_cnt p < INT_MAX ->
  0 <= i < SIZE -> is_free p i = false ->
  exists p', free p (slot i) = Some p' /\
    size p' = size p + 1 /\ counter_covers p' /\
    forall j, 0 <= j -> is_free p' j = if j =? i then true else is_free p j.
Proof.
  intros [Hwf Hle] Hlt Hi Hf.
  destruct (release_spec p i Hwf Hi Hlt) as (p' & E & Hwf' & Hc & Hb).
  exists p'. rewrite free_slot by done.
  split; [done|]. split; [done|]. split; [|done].
  split; [done|].
  rewrite (release_free_slots p p' i) by done. rewrite Hf. simpl. lia.
Qed.

(** With an exact counter and an allocated slot the counter is below
    [SIZE]; with all slots allocated it is 0. *)
Lemma consistent_below (p : pool) (i : Z) :
  consistent p -> 0 <= i < SIZE -> is_free p i = false ->
  counter_covers p /\ free_elements_cnt p < INT_MAX /\
  ((forall j, 0 <= j < SIZE -> is_free p j = false) ->
   free_elements_cnt p + 1 < INT_MAX).
Proof.
  intros Hc Hi Hf.
  pose proof (consistent_room p i Hc Hi Hf).
  pose proof (SIZE_int HP). pose proof int_range. unfold INT_MAX in *.
  split; [by apply consistent_covers|]. split; [lia|].
  intros Hall. destruct Hc as [_ Hcnt]. rewrite Hcnt. unfold free_slots.
  rewrite count_bits_none; [lia|].
  intros j Hj. apply Hall. lia.
Qed.

(** C7: in every reachable state, and in every state whose counter is
    exact, that has a free slot, [palloc] returns the address of the
    free slot of lowest index and takes it; in every reachable state
    whose counter is below [INT_MAX], and in every state whose counter
    is exact, freeing an allocated slot raises [size] by one and marks
    that slot free, so that [palloc] returns it as soon as no lower
    slot is free; and when all slots are allocated and slots 2 and 0
    are freed in that order, the next [palloc] returns slot 0, which
    is not slot 2. *)
Theorem palloc_lowest_first :
  (forall p m, reachable p \/ consistent p -> lowest_free p m ->
     exists p', palloc p = Some (slot m, p') /\ taken p m p') /\
  (forall p i,
     (reachable p /\ free_elements_cnt p < INT_MAX) \/ consistent p ->
     0 <= i < SIZE -> is_free p i = false ->
     exists p', free p (slot i) = Some p' /\
       size p' = size p + 1 /\ is_free p' i = true /\
       ((forall j, 0 <= j < i -> is_free p' j = false) ->
        exists p'', palloc p' = Some (slot i, p''))) /\
  (forall p,
     (reachable p /\ free_elements_cnt p + 1 < INT_MAX) \/ consistent p ->
     3 <= SIZE ->
     (forall j, 0 <= j < SIZE -> is_free p j = false) ->
     exists p1 p2 p3,
       free p (slot 2) = Some p1 /\ free p1 (slot 0) = Some p2 /\
       palloc p2 = Some (slot 0, p3) /\ slot 0 <> slot 2).
Proof.
  split; [|split].
  - intros p m Hr Hm.
    assert (Hcov : counter_covers p).
    { destruct Hr as [Hr|Hc];
        [by apply reachable_covers | by apply consistent_covers]. }
    destruct Hcov as [Hwf Hle].
    apply palloc_lowest; [done | | done].
    destruct Hm as (Hm & Hf & _).
    pose proof (count_bits_pos (info p) (Z.to_nat SIZE) m ltac:(lia) Hf).
    unfold free_slots in Hle. lia.
  - intros p i Hp Hi Hf.
    assert (Hcov : counter_covers p /\ free_elements_cnt p < INT_MAX).
    { destruct Hp as [[Hr Hlt]|Hc].
      - split; [by apply reachable_covers | done].
      - destruct (consistent_below p i Hc Hi Hf) as (? & ? & _). done. }
    destruct Hcov as [Hcov Hlt].
    destruct (free_allocated_covers p i Hcov Hlt Hi Hf)
      as (p' & E & Hs & [Hwf' Hle'] & Hb).
    exists p'. split; [done|]. split; [done|].
    assert (Hfi : is_free p' i = true)
      by (rewrite Hb, Z.eqb_refl by lia; done).
    split; [done|]. intros Hlow.
    pose proof (count_bits_pos (info p') (Z.to_nat SIZE) i ltac:(lia) Hfi).
    destruct (palloc_lowest p' i) as (p'' & E' & _).
    + done.
    + unfold free_slots in Hle'. lia.
    + done.
    + by exists p''.
  - intros p Hp Hn Hall.
    assert (H2 : 0 <= 2 < SIZE) by lia.
    assert (H0 : 0 <= 0 < SIZE) by lia.
    assert (Hf2 : is_free p 2 = false) by (by apply Hall).
    assert (Hcov : counter_covers p /\ free_elements_cnt p + 1 < INT_MAX).
    { destruct Hp as [[Hr Hlt]|Hc].
      - split; [by apply reachable_covers | done].
      - destruct (consistent_below p 2 Hc H2 Hf2) as (? & _ & Hlt).
        split; [done | by apply Hlt]. }
    destruct Hcov as [Hcov Hlt].
    assert (Hlt0 : free_elements_cnt p < INT_MAX) by lia.
    destruct (free_allocated_covers p 2 Hcov Hlt0 H2 Hf2)
      as (p1 & E1 & Hs1 & Hcov1 & Hb1).
    unfold size in Hs1.
    assert (Hlt1 : free_elements_cnt p1 < INT_MAX) by lia.
    assert (Hf0 : is_free p1 0 = false).
    { rewrite Hb1 by lia. simpl. by apply Hall. }
    destruct (free_allocated_covers p1 0 Hcov1 Hlt1 H0 Hf0)
      as (p2 & E2 & Hs2 & [Hwf2 Hle2] & Hb2).
    assert (Hf0' : is_free p2 0 = true) by (by rewrite Hb2).
    pose proof (count_bits_pos (info p2) (Z.to_nat SIZE) 0 ltac:(lia) Hf0').
    destruct (palloc_lowest p2 0) as (p3 & E3 & _).
    + done.
    + unfold free_slots in Hle2. lia.
    + split; [lia|]. split; [done|]. intros j Hj. lia.
    + exists p1, p2, p3. repeat split; try done.
      intros E. apply slot_inj in E. lia.
Qed.

(** ** Indices outside the bitmap *)

(** X4: at or above [SIZE] the three functions return at once:
    [testBit] answers false and the other two change nothing. *)
Lemma bit_index_high (p : pool) (i : Z) :
  SIZE <= i ->
  testBit p i = Some false /\ setBit p i = Some p /\ clrBit p i = Some p.
Proof.
  intros Hi. unfold testBit, setBit, clrBit.
  destruct (Z.geb_spec i SIZE); [done | lia].
Qed.

Lemma load_outside (inf : list Z) (o : Z) :
  o < 0 \/ Z.of_nat (length inf) <= o -> load inf o = None.
Proof.
  intros Ho. unfold load. destruct (Z.leb_spec 0 o); [|done].
  apply lookup_ge_None. lia.
Qed.

(** Below 0 nothing is checked: the byte offset computed from a
    negative [int] lies outside [info]. *)
Lemma negative_byte_offset (p : pool) (i : Z) :
  well_formed p -> - 2 ^ (int_bits - 1) <= i < 0 ->
  load (info p) (to_int (to_size_t i / BITS_IN_UINT8)) = None.
Proof.
  intros Hwf Hi. destruct HP. unfold well_formed in Hwf.
  pose proof NO_BYTES_eq as HNB.
  set (M8 := 2 ^ (int_bits - 4)).
  set (S8 := 2 ^ (size_bits - 3)).
  assert (HM8 : 0 < M8) by (apply Z.pow_pos_nonneg; lia).
  assert (HM : 2 ^ (int_bits - 1) = 8 * M8).
  { unfold M8. change 8 with (2 ^ 3). rewrite <- Z.pow_add_r by lia.
    f_equal. lia. }
  assert (HI : 2 ^ int_bits = 16 * M8).
  { unfold M8. change 16 with (2 ^ 4). rewrite <- Z.pow_add_r by lia.
    f_equal. lia. }
  assert (HS : 2 ^ size_bits = S8 * 8).
  { unfold S8. change 8 with (2 ^ 3). rewrite <- Z.pow_add_r by lia.
    f_equal. lia. }
  assert (HS8 : 2 * M8 <= S8).
  { unfold S8, M8. change 2 with (2 ^ 1) at 1. rewrite <- Z.pow_add_r by lia.
    apply Z.pow_le_mono_r; lia. }
  assert (Hf : - M8 <= i / 8 <= -1).
  { split; [apply Z.div_le_lower_bound; lia|].
    assert (i / 8 < 0) by (apply Z.div_lt_upper_bound; lia). lia. }
  assert (Hv : to_size_t i / BITS_IN_UINT8 = S8 + i / 8).
  { unfold to_size_t, wrap, BITS_IN_UINT8.
    rewrite <- (Z_mod_plus_full i 1 (2 ^ size_bits)).
    rewrite Z.mod_small by lia.
    rewrite HS, Z.mul_1_l, Z.add_comm. apply Z.div_add_l. lia. }
  assert (HN : NO_BYTES <= M8).
  { rewrite HNB. unfold INT_MAX in *.
    assert ((SIZE + 7) / 8 < M8 + 1) by (apply Z.div_lt_upper_bound; lia).
    lia. }
  rewrite Hv. apply load_outside. unfold to_int, swrap, wrap.
  destruct (Z.le_gt_cases int_bits (size_bits - 3)) as [Hle|Hgt].
  - left.
    assert (HS8' : S8 = 2 ^ (size_bits - 3 - int_bits) * 2 ^ int_bits).
    { unfold S8. rewrite <- Z.pow_add_r by lia. f_equal. lia. }
    rewrite HS8', Z.add_comm, Z_mod_plus_full.
    rewrite <- (Z_mod_plus_full (i / 8) 1 (2 ^ int_bits)).
    rewrite Z.mod_small by lia.
    destruct (Z.ltb_spec (i / 8 + 1 * 2 ^ int_bits) (2 ^ (int_bits - 1))); lia.
  - assert (HS8' : S8 <= 8 * M8).
    { rewrite <- HM. unfold S8. apply Z.pow_le_mono_r; lia. }
    rewrite Z.mod_small by lia.
    destruct (Z.ltb_spec (S8 + i / 8) (2 ^ (int_bits - 1))); lia.
Qed.

(** X5: for a negative index each of the three functions addresses a
    byte outside [info]. *)
Lemma bit_index_negative (p : pool) (i : Z) :
  well_formed p -> - 2 ^ (int_bits - 1) <= i < 0 ->
  testBit p i = None /\ setBit p i = None /\ clrBit p i = None.
Proof.
  intros Hwf Hi. pose proof (negative_byte_offset p i Hwf Hi) as Hl.
  destruct HP. unfold testBit, setBit, clrBit.
  destruct (Z.geb_spec i SIZE); [lia|]. by rewrite Hl.
Qed.

(** C8: the three functions absorb an index at or above [SIZE]:
    [testBit] answers false and [setBit] and [clrBit] change nothing,
    without touching a byte.  They do not absorb a negative index: for
    an [int] index the byte they address lies outside [info] exactly
    when the index is negative. *)
Theorem bit_index_outside (p : pool) (i : Z) :
  well_formed p -> - 2 ^ (int_bits - 1) <= i <= INT_MAX ->
  (SIZE <= i ->
   testBit p i = Some false /\ setBit p i = Some p /\ clrBit p i = Some p) /\
  (testBit p i = None <-> i < 0) /\
  (setBit p i = None <-> i < 0) /\
  (clrBit p i = None <-> i < 0).
Proof.
  intros Hwf Hi. pose proof (SIZE_pos HP).
  destruct (Z.lt_ge_cases i 0) as [Hneg|Hpos].
  - pose proof (negative_byte_offset p i Hwf ltac:(lia)) as Hl.
    unfold testBit, setBit, clrBit.
    destruct (Z.geb_spec i SIZE); [lia|]. rewrite Hl. simpl.
    split; [lia|]. done.
  - destruct (Z.lt_ge_cases i SIZE) as [Hin|Hout].
    + assert (Hr : 0 <= i < SIZE) by lia.
      rewrite testBit_in_range by done.
      destruct (setBit_in_range p i Hwf Hr) as (ps & -> & _).
      destruct (clrBit_in_range p i Hwf Hr) as (pc & -> & _).
      split; [lia|]. repeat split; (discriminate || lia).
    + unfold testBit, setBit, clrBit.
      destruct (Z.geb_spec i SIZE); [|lia].
      split; [done|]. repeat split; (discriminate || lia).
Qed.

(** ** Pointers that [free] does not recognise, and slots freed twice *)

(** X1: a null pointer and a pointer that is the address of no slot
    leave the pool as it is. *)
Lemma free_ignores_foreign (p : pool) (q : Z) :
  q = NULL \/ (forall j, 0 <= j < SIZE -> q <> slot j) ->
  free p q = Some p.
Proof.
  intros [->|H]; [apply free_null | by apply free_foreign].
Qed.

(** X2: freeing a slot that is free already leaves every bit as it is
    and still counts one more free slot. *)
Lemma free_twice_counts (p : pool) (i : Z) :
  well_formed p -> 0 <= i < SIZE -> is_free p i = true ->
  size p < INT_MAX ->
  exists p', free p (slot i) = Some p' /\
    size p' = size p + 1 /\
    free_slots p' = free_slots p /\
    forall j, 0 <= j -> is_free p' j = is_free p j.
Proof.
  intros Hwf Hi Hf Hc.
  destruct (release_spec p i Hwf Hi Hc) as (p' & E & Hw & Hcnt & Hb).
  exists p'. rewrite free_slot by done. split; [done|]. split; [done|].
  split.
  - rewrite (release_free_slots p p' i) by done. rewrite Hf. simpl. lia.
  - intros j Hj. rewrite Hb by done.
    destruct (Z.eqb_spec j i) as [->|]; done.
Qed.

(** X3: the counter stays exact as long as only allocated slots, null
    and foreign pointers are passed to [free]. *)
Lemma proper_use_consistent (p : pool) :
  consistent p ->
  (forall r p', palloc p = Some (r, p') -> consistent p') /\
  (forall q p', q = NULL \/ (forall j, 0 <= j < SIZE -> q <> slot j) ->
     free p q = Some p' -> consistent p') /\
  (forall i, 0 <= i < SIZE -> is_free p i = false ->
     exists p', free p (slot i) = Some p' /\ consistent p').
Proof.
  intros Hc. split; [|split].
  - intros r p'. by apply consistent_palloc.
  - intros q p' [->|Hq] E.
    + rewrite free_null in E. by inversion E; subst.
    + rewrite free_foreign in E by done. by inversion E; subst.
  - intros i Hi Hf.
    destruct (free_allocated p i Hc Hi Hf) as (p' & E & _ & Hc' & _).
    by exists p'.
Qed.

(** ** The bytes that [setBit] and [clrBit] store *)

Lemma setBit_byte (p : pool) (i b : Z) :
  well_formed p -> 0 <= i < SIZE -> info p !! Z.to_nat (i / 8) = Some b ->
  setBit p i
  = Some {| info := <[Z.to_nat (i / 8) :=
                       to_uint8 (Z.lor b (2 ^ (i mod 8)))]> (info p);
            free_elements_cnt := free_elements_cnt p |}.
Proof.
  intros Hwf Hi Hb. destruct (byte_offset_eq i Hi) as (E1 & E2 & Ho & Hm).
  unfold well_formed in Hwf. unfold setBit.
  destruct (Z.geb_spec i SIZE); [lia|].
  rewrite E1, E2.
  destruct (load_in_range (info p) (i / 8)) as (b' & Hl & ->); [lia|].
  simpl. rewrite store_in_range by lia. simpl.
  rewrite mask_uint8 by lia. congruence.
Qed.

Lemma clrBit_byte (p : pool) (i b : Z) :
  well_formed p -> 0 <= i < SIZE -> info p !! Z.to_nat (i / 8) = Some b ->
  clrBit p i
  = Some {| info := <[Z.to_nat (i / 8) :=
                       to_uint8 (Z.land b (Z.lnot (2 ^ (i mod 8))))]> (info p);
            free_elements_cnt := free_elements_cnt p |}.
Proof.
  intros Hwf Hi Hb. destruct (byte_offset_eq i Hi) as (E1 & E2 & Ho & Hm).
  unfold well_formed in Hwf. unfold clrBit.
  destruct (Z.geb_spec i SIZE); [lia|].
  rewrite E1, E2.
  destruct (load_in_range (info p) (i / 8)) as (b' & Hl & ->); [lia|].
  simpl. rewrite store_in_range by lia. simpl.
  rewrite mask_uint8 by lia. congruence.
Qed.

Lemma to_uint8_range (z : Z) : 0 <= to_uint8 z < 256.
Proof. unfold to_uint8, wrap. apply Z.mod_pos_bound. lia. Qed.

(** Clearing a set bit of a byte and setting it again gives the byte
    back. *)
Lemma byte_clr_set (b k : Z) :
  0 <= b < 256 -> 0 <= k < 8 -> Z.testbit b k = true ->
  to_uint8 (Z.lor (to_uint8 (Z.land b (Z.lnot (2 ^ k)))) (2 ^ k)) = b.
Proof.
  intros Hb Hk Ht. apply Z.bits_inj'. intros n Hn.
  destruct (Z.lt_ge_cases n 8).
  - rewrite testbit_set, testbit_clr by lia.
    destruct (Z.eqb_spec k n) as [->|].
    + rewrite Ht. apply orb_true_r.
    + by rewrite andb_true_r, orb_false_r.
  - unfold to_uint8 at 1, wrap. rewrite Z.mod_pow2_bits_high by lia.
    symmetry. rewrite <- (Z.mod_small b (2 ^ 8)) by lia.
    apply Z.mod_pow2_bits_high. lia.
Qed.

(** The lookup behind a set bit. *)
Lemma is_free_byte (p : pool) (i : Z) :
  is_free p i = true ->
  exists b, info p !! Z.to_nat (i / 8) = Some b /\
            Z.testbit b (i mod 8) = true.
Proof.
  unfold is_free, bit_at.
  destruct (info p !! Z.to_nat (i / 8)) as [b|]; [|discriminate].
  intros H. by exists b.
Qed.

Lemma in_range_byte (p : pool) (i : Z) :
  well_formed p -> 0 <= i < SIZE ->
  exists b, info p !! Z.to_nat (i / 8) = Some b.
Proof.
  intros Hwf Hi. destruct (byte_offset_eq i Hi) as (_ & _ & Ho & _).
  unfold well_formed in Hwf.
  destruct (load_in_range (info p) (i / 8)) as (b & Hl & _); [lia|].
  by exists b.
Qed.

(** What the loop of [palloc] returns, byte by byte. *)
Lemma palloc_scan_result (n : nat) (p : pool) (i r : Z) (p' : pool) :
  well_formed p -> 0 <= i -> Z.of_nat n = SIZE - i ->
  palloc_scan n i p = Some (r, p') ->
  (r = NULL /\ p' = p) \/
  exists m b, i <= m < SIZE /\
    info p !! Z.to_nat (m / 8) = Some b /\ Z.testbit b (m mod 8) = true /\
    r = slot m /\
    p' = {| info := <[Z.to_nat (m / 8) :=
                       to_uint8 (Z.land b (Z.lnot (2 ^ (m mod 8))))]> (info p);
            free_elements_cnt := free_elements_cnt p - 1 |}.
Proof.
  intros Hwf. revert i. induction n as [|n IH]; intros i Hi Hn E.
  - simpl in E. inversion E; subst. by left.
  - simpl in E. rewrite testBit_in_range in E by (done || lia). simpl in E.
    destruct (is_free p i) eqn:Hf.
    + destruct (is_free_byte p i Hf) as (b & Hl & Hb).
      rewrite (clrBit_byte p i b) in E by (done || lia). simpl in E.
      inversion E; subst. right. exists i, b. repeat split; (done || lia).
    + destruct (IH (i + 1)) as [H|(m & b & Hm & H)]; [lia|lia|done|by left|].
      right. exists m, b. split; [lia|done].
Qed.

Lemma palloc_result (p : pool) (r : Z) (p' : pool) :
  well_formed p -> palloc p = Some (r, p') ->
  (r = NULL /\ p' = p) \/
  exists m b, 0 <= m < SIZE /\ 0 < free_elements_cnt p /\
    info p !! Z.to_nat (m / 8) = Some b /\ Z.testbit b (m mod 8) = true /\
    r = slot m /\
    p' = {| info := <[Z.to_nat (m / 8) :=
                       to_uint8 (Z.land b (Z.lnot (2 ^ (m mod 8))))]> (info p);
            free_elements_cnt := free_elements_cnt p - 1 |}.
Proof.
  intros Hwf E. unfold palloc in E.
  destruct (Z.leb_spec (free_elements_cnt p) 0).
  - inversion E; subst. by left.
  - pose proof (SIZE_pos HP).
    assert (Hn : Z.of_nat (Z.to_nat SIZE) = SIZE - 0) by lia.
    destruct (palloc_scan_result _ p 0 r p' Hwf (Z.le_refl 0) Hn E)
      as [H'|(m & b & Hm & H')]; [by left|].
    right. exists m, b. split; [lia|]. split; [lia|done].
Qed.

Lemma free_result (p : pool) (q : Z) (p' : pool) :
  well_formed p -> free p q = Some p' ->
  p' = p \/
  exists m b, 0 <= m < SIZE /\ q = slot m /\
    free_elements_cnt p < INT_MAX /\
    info p !! Z.to_nat (m / 8) = Some b /\
    p' = {| info := <[Z.to_nat (m / 8) :=
                       to_uint8 (Z.lor b (2 ^ (m mod 8)))]> (info p);
            free_elements_cnt := free_elements_cnt p + 1 |}.
Proof.
  intros Hwf E. destruct (free_cases p q) as [E'|(m & Hm & -> & E')].
  - left. congruence.
  - right. rewrite E' in E. unfold release in E.
    destruct (in_range_byte p m Hwf Hm) as (b & Hl).
    rewrite (setBit_byte p m b) in E by done. simpl in E.
    unfold int_incr in E.
    destruct (Z.ltb_spec (free_elements_cnt p) INT_MAX); [|discriminate].
    simpl in E. inversion E; subst. exists m, b. repeat split; (done || lia).
Qed.

Lemma ctor_typed : typed Pool_ctor.
Proof.
  split; simpl.
  - apply Forall_replicate. lia.
  - apply (SIZE_int HP).
Qed.

(** Every reachable state has its declared size and holds bytes and an
    [int]. *)
Lemma reachable_typed (p : pool) : reachable p -> well_formed p /\ typed p.
Proof.
  induction 1 as [|p r p' _ [Hwf [Hb Hc]] E|p q p' _ [Hwf [Hb Hc]] E].
  - split; [apply ctor_well_formed | apply ctor_typed].
  - destruct (palloc_result p r p' Hwf E)
      as [[_ ->]|(m & b & _ & _ & _ & _ & _ & ->)]; [done|].
    split; [|split]; simpl.
    + unfold well_formed. simpl. by rewrite length_insert.
    + apply Forall_insert; [done | apply to_uint8_range].
    + lia.
  - destruct (free_result p q p' Hwf E) as [->|(m & b & _ & _ & ? & _ & ->)];
      [done|].
    split; [|split]; simpl.
    + unfold well_formed. simpl. by rewrite length_insert.
    + apply Forall_insert; [done | apply to_uint8_range].
    + lia.
Qed.

(** ** The bitmap as a set of indices *)

(** X11: for an index in range, [testBit] reads back what [setBit] and
    [clrBit] wrote, and neither touches another index or the counter. *)
Lemma bitmap_write_read (p : pool) (i : Z) :
  well_formed p -> 0 <= i < SIZE ->
  exists ps pc,
    setBit p i = Some ps /\ clrBit p i = Some pc /\
    testBit ps i = Some true /\ testBit pc i = Some false /\
    (forall j, 0 <= j < SIZE -> j <> i ->
       testBit ps j = testBit p j /\ testBit pc j = testBit p j) /\
    size ps = size p /\ size pc = size p.
Proof.
  intros Hwf Hi.
  destruct (setBit_in_range p i Hwf Hi) as (ps & Es & Hws & Hcs & Hbs).
  destruct (clrBit_in_range p i Hwf Hi) as (pc & Ec & Hwc & Hcc & Hbc).
  exists ps, pc. split; [done|]. split; [done|].
  rewrite !testBit_in_range by done.
  rewrite Hbs, Hbc by lia. rewrite Z.eqb_refl.
  split; [done|]. split; [done|]. split; [|done].
  intros j Hj Hne. rewrite !testBit_in_range by done.
  rewrite Hbs, Hbc by lia.
  destruct (Z.eqb_spec j i); [lia|done].
Qed.

(** ** Allocating and freeing again *)

(** X12: in every reachable state, freeing what [palloc] just returned
    (a slot address or [NULL]) gives back the state before the
    [palloc], bitmap bytes and counter alike. *)
Lemma palloc_free_restores (p : pool) (r : Z) (p' : pool) :
  reachable p -> palloc p = Some (r, p') -> free p' r = Some p.
Proof.
  intros Hr E. destruct (reachable_typed p Hr) as (Hwf & Hb & Hc).
  destruct (palloc_result p r p' Hwf E)
    as [[-> ->]|(m & b & Hm & Hpos & Hl & Ht & -> & ->)];
    [apply free_null|].
  destruct (byte_offset_eq m Hm) as (_ & _ & Ho & Hk).
  unfold well_formed in Hwf.
  rewrite free_slot by done. unfold release.
  erewrite setBit_byte; [|by unfold well_formed; simpl; rewrite length_insert
                         |done|simpl; apply list_lookup_insert_eq; lia].
  simpl. unfold int_incr.
  destruct (Z.ltb_spec (free_elements_cnt p - 1) INT_MAX); [|lia].
  simpl. rewrite list_insert_insert_eq.
  rewrite byte_clr_set; [|exact (Forall_lookup_1 _ _ _ _ Hb Hl)|done|done].
  rewrite list_insert_id by done.
  destruct p. simpl. do 2 f_equal. lia.
Qed.

(** ** No access outside [info] *)

(** X13: in every reachable state [palloc] returns, and so does [free]
    for every pointer unless the counter is [INT_MAX] and the pointer
    is a slot address: apart from that overflow, no call reads or
    writes outside [info]. *)
Lemma calls_stay_in_bounds (p : pool) :
  reachable p ->
  (exists r p', palloc p = Some (r, p')) /\
  (forall q, free_elements_cnt p < INT_MAX -> exists p', free p q = Some p') /\
  (forall q, free p q = None ->
     free_elements_cnt p = INT_MAX /\ exists m, 0 <= m < SIZE /\ q = slot m).
Proof.
  intros Hr. destruct (reachable_typed p Hr) as (Hwf & Hb & Hc).
  split; [|split].
  - destruct (palloc_cases p Hwf) as [E|(m & p' & _ & _ & E & _)]; eauto.
  - intros q Hlt. destruct (free_cases p q) as [E|(m & Hm & -> & E)]; [eauto|].
    destruct (release_spec p m Hwf Hm Hlt) as (p' & E' & _).
    exists p'. congruence.
  - intros q E. destruct (free_cases p q) as [E'|(m & Hm & -> & E')];
      [congruence|].
    split; [|by exists m].
    destruct (Z.lt_ge_cases (free_elements_cnt p) INT_MAX) as [Hlt|]; [|lia].
    destruct (release_spec p m Hwf Hm Hlt) as (p' & E'' & _). congruence.
Qed.

(** ** [size] and exhaustion *)

(** X14: while the counter is exact, [size] lies within [0, SIZE];
    [palloc] returns [NULL] and changes nothing when it is 0, and
    otherwise returns the non-null address of the lowest free slot and
    lowers [size] by one. *)
Lemma palloc_null_iff_empty (p : pool) :
  consistent p ->
  0 <= size p <= SIZE /\
  (size p = 0 -> palloc p = Some (NULL, p)) /\
  (0 < size p ->
     exists m p', lowest_free p m /\ palloc p = Some (slot m, p') /\
       slot m <> NULL /\ size p' = size p - 1 /\ consistent p').
Proof.
  intros Hc. pose proof Hc as [Hwf Hcnt]. pose proof (SIZE_pos HP).
  unfold size. split; [|split].
  - rewrite Hcnt. unfold free_slots.
    pose proof (count_bits_range (info p) (Z.to_nat SIZE)). lia.
  - intros H0. apply palloc_exhausted; [done|]. left. lia.
  - intros Hpos.
    destruct (lowest_free_cases p) as [(m & Hm)|Hnone].
    + destruct (palloc_lowest p m Hwf Hpos Hm) as (p' & E & Ht).
      exists m, p'. split; [done|]. split; [done|].
      destruct Hm as (Hm & _). split; [apply slot_nonnull; lia|].
      split; [apply Ht|]. by eapply consistent_palloc.
    + exfalso. rewrite Hcnt in Hpos. unfold free_slots in Hpos.
      rewrite count_bits_none in Hpos; [lia|].
      intros j Hj. apply Hnone. lia.
Qed.

(** ** Slots in use *)

(** X25: [palloc] never returns the address of a slot that is
    allocated, and leaves every allocated slot allocated. *)
Lemma allocated_not_reissued (p : pool) (i r : Z) (p' : pool) :
  well_formed p -> 0 <= i < SIZE -> is_free p i = false ->
  palloc p = Some (r, p') ->
  r <> slot i /\ is_free p' i = false.
Proof.
  intros Hwf Hi Hf E.
  destruct (palloc_cases p Hwf) as [E'|(m & p1 & Hm & _ & E' & Ht)];
    rewrite E' in E; inversion E; subst.
  - split; [|done]. intros Heq. symmetry in Heq. revert Heq.
    apply slot_nonnull. lia.
  - destruct Hm as (Hm & Hfm & _). destruct Ht as (_ & _ & Hb).
    assert (m <> i) by (intros ->; congruence).
    split.
    + intros Heq. by apply slot_inj in Heq.
    + rewrite Hb by lia. by destruct (Z.eqb_spec i m).
Qed.

End WithParams.

(** ** A pool of four 8-byte objects on an LP64 target *)

Definition pool4 : Params :=
  {| int_bits := 32; size_bits := 64; SIZE := 4;
     elements := 4096; sizeof_T := 8 |}.

(** C3: [free] of a slot that is already free is not ignored. The
    first [free] below returns slot 0, the second finds it free and
    still raises the counter, from 4 to 5, with the bitmap unchanged. *)
Example free_twice_not_ignored :
  @palloc pool4 (@Pool_ctor pool4)
  = Some (@slot pool4 0, {| info := [254]; free_elements_cnt := 3 |}) /\
  @free pool4 {| info := [254]; free_elements_cnt := 3 |} (@slot pool4 0)
  = Some {| info := [255]; free_elements_cnt := 4 |} /\
  is_free {| info := [255]; free_elements_cnt := 4 |} 0 = true /\
  @free pool4 {| info := [255]; free_elements_cnt := 4 |} (@slot pool4 0)
  = Some {| info := [255]; free_elements_cnt := 5 |}.
Proof. repeat split; vm_compute; reflexivity. Qed.

(** C4: a reachable state whose counter is above [SIZE] and is not the
    number of set bits: allocate slot 0, free it, free it again. *)
Example counter_leaves_range :
  exists p, @reachable pool4 p /\
    size p = 5 /\ @SIZE pool4 = 4 /\ @free_slots pool4 p = 4.
Proof.
  exists {| info := [255]; free_elements_cnt := 5 |}.
  split; [|repeat split; vm_compute; reflexivity].
  apply (@reach_free pool4 {| info := [255]; free_elements_cnt := 4 |}
           (@slot pool4 0)); [|vm_compute; reflexivity].
  apply (@reach_free pool4 {| info := [254]; free_elements_cnt := 3 |}
           (@slot pool4 0)); [|vm_compute; reflexivity].
  apply (@reach_palloc pool4 (@Pool_ctor pool4) (@slot pool4 0));
    [apply reach_ctor | vm_compute; reflexivity].
Qed.

(** C8: index -1 is not absorbed.  It passes the only check,
    [bit_index >= SIZE], and each of the three functions then
    addresses the byte before [info], where the claim has [testBit]
    return false and the other two touch nothing. *)
Example negative_index_unchecked :
  @testBit pool4 (@Pool_ctor pool4) (-1) = None /\
  @setBit pool4 (@Pool_ctor pool4) (-1) = None /\
  @clrBit pool4 (@Pool_ctor pool4) (-1) = None.
Proof. repeat split; vm_compute; reflexivity. Qed.

(** *** The statements above at this pool *)

Lemma palloc_until_exhausted_witness :
  let P := pool4 in
  params_ok /\
  size Pool_ctor = SIZE /\
  exists p',
    palloc_n (Z.to_nat SIZE) Pool_ctor = Some (slot <$> seqZ 0 SIZE, p') /\
    length (slot <$> seqZ 0 SIZE) = Z.to_nat SIZE /\
    NoDup (slot <$> seqZ 0 SIZE) /\
    Forall (fun r => r <> NULL) (slot <$> seqZ 0 SIZE) /\
    palloc p' = Some (NULL, p') /\
    size p' = 0.
Proof.
  intros P.
  assert (H : @params_ok pool4)
    by (split; vm_compute; (reflexivity || discriminate)).
  split; [exact H|].
  apply (@palloc_until_exhausted pool4 H).
Defined.

Lemma palloc_lowest_first_witness :
  let P := pool4 in
  params_ok /\
  (exists p', palloc Pool_ctor = Some (slot 0, p') /\ taken Pool_ctor 0 p') /\
  (exists p',
     free {| info := [253]; free_elements_cnt := 4 |} (slot 1) = Some p' /\
     size p' = size {| info := [253]; free_elements_cnt := 4 |} + 1 /\
     is_free p' 1 = true /\
     ((forall j, 0 <= j < 1 -> is_free p' j = false) ->
      exists p'', palloc p' = Some (slot 1, p''))) /\
  (exists p1 p2 p3,
     free {| info := [240]; free_elements_cnt := 1 |} (slot 2) = Some p1 /\
     free p1 (slot 0) = Some p2 /\
     palloc p2 = Some (slot 0, p3) /\ slot 0 <> slot 2).
Proof.
  intros P.
  assert (H : @params_ok pool4)
    by (split; vm_compute; (reflexivity || discriminate)).
  split; [exact H|].
  destruct (@palloc_lowest_first pool4 H) as (H1 & H2 & H3).
  split; [|split].
  - apply H1; [left; apply reach_ctor|].
    split; [vm_compute; split; (reflexivity || discriminate)|].
    split; [vm_compute; reflexivity|]. intros j Hj. lia.
  - apply H2.
    + left. split; [|vm_compute; reflexivity].
      apply (@reach_free pool4 {| info := [253]; free_elements_cnt := 3 |}
               (@slot pool4 0)); [|vm_compute; reflexivity].
      apply (@reach_free pool4 {| info := [252]; free_elements_cnt := 2 |}
               (@slot pool4 0)); [|vm_compute; reflexivity].
      apply (@reach_palloc pool4 {| info := [254]; free_elements_cnt := 3 |}
               (@slot pool4 1)); [|vm_compute; reflexivity].
      apply (@reach_palloc pool4 (@Pool_ctor pool4) (@slot pool4 0));
        [apply reach_ctor | vm_compute; reflexivity].
    + vm_compute. split; (reflexivity || discriminate).
    + vm_compute. reflexivity.
  - apply H3.
    + left. split; [|vm_compute; reflexivity].
      apply (@reach_palloc pool4 {| info := [248]; free_elements_cnt := 2 |}
               (@slot pool4 3)); [|vm_compute; reflexivity].
      apply (@reach_palloc pool4 {| info := [252]; free_elements_cnt := 3 |}
               (@slot pool4 2)); [|vm_compute; reflexivity].
      apply (@reach_palloc pool4 {| info := [254]; free_elements_cnt := 4 |}
               (@slot pool4 1)); [|vm_compute; reflexivity].
      apply (@reach_palloc pool4 {| info := [255]; free_elements_cnt := 5 |}
               (@slot pool4 0)); [|vm_compute; reflexivity].
      apply (@reach_free pool4 {| info := [255]; free_elements_cnt := 4 |}
               (@slot pool4 0)); [|vm_compute; reflexivity].
      apply (@reach_free pool4 {| info := [254]; free_elements_cnt := 3 |}
               (@slot pool4 0)); [|vm_compute; reflexivity].
      apply (@reach_palloc pool4 (@Pool_ctor pool4) (@slot pool4 0));
        [apply reach_ctor | vm_compute; reflexivity].
    + vm_compute. discriminate.
    + intros j Hj. change (@SIZE pool4) with 4 in Hj.
      assert (Hc : j = 0 \/ j = 1 \/ j = 2 \/ j = 3) by lia.
      destruct Hc as [->|[->|[->| ->]]]; vm_compute; reflexivity.
Defined.

Lemma bit_index_outside_witness :
  let P := pool4 in
  ((SIZE <= -1 ->
    testBit Pool_ctor (-1) = Some false /\
    setBit Pool_ctor (-1) = Some Pool_ctor /\
    clrBit Pool_ctor (-1) = Some Pool_ctor) /\
   (testBit Pool_ctor (-1) = None <-> -1 < 0) /\
   (setBit Pool_ctor (-1) = None <-> -1 < 0) /\
   (clrBit Pool_ctor (-1) = None <-> -1 < 0)) /\
  ((SIZE <= 4 ->
    testBit Pool_ctor 4 = Some false /\
    setBit Pool_ctor 4 = Some Pool_ctor /\
    clrBit Pool_ctor 4 = Some Pool_ctor) /\
   (testBit Pool_ctor 4 = None <-> 4 < 0) /\
   (setBit Pool_ctor 4 = None <-> 4 < 0) /\
   (clrBit Pool_ctor 4 = None <-> 4 < 0)).
Proof.
  intros P.
  assert (H : @params_ok pool4)
    by (split; vm_compute; (reflexivity || discriminate)).
  split.
  - apply (@bit_index_outside pool4 H).
    + vm_compute. reflexivity.
    + vm_compute. split; discriminate.
  - apply (@bit_index_outside pool4 H).
    + vm_compute. reflexivity.
    + vm_compute. split; discriminate.
Defined.

Lemma free_ignores_foreign_witness :
  let P := pool4 in free Pool_ctor 4100 = Some Pool_ctor.
Proof.
  intros P. apply (@free_ignores_foreign pool4).
  right. intros j Hj. unfold slot. simpl. lia.
Defined.

Lemma free_twice_counts_witness :
  let P := pool4 in
  exists p', free Pool_ctor (slot 1) = Some p' /\
    size p' = size Pool_ctor + 1 /\
    free_slots p' = free_slots Pool_ctor /\
    forall j, 0 <= j -> is_free p' j = is_free Pool_ctor j.
Proof.
  intros P. apply (@free_twice_counts pool4).
  - split; vm_compute; (reflexivity || discriminate).
  - vm_compute. reflexivity.
  - vm_compute. split; (reflexivity || discriminate).
  - vm_compute. reflexivity.
  - vm_compute. reflexivity.
Defined.

Lemma proper_use_consistent_witness :
  let P := pool4 in
  (forall r p', palloc Pool_ctor = Some (r, p') -> consistent p') /\
  (forall q p', q = NULL \/ (forall j, 0 <= j < SIZE -> q <> slot j) ->
     free Pool_ctor q = Some p' -> consistent p') /\
  (forall i, 0 <= i < SIZE -> is_free Pool_ctor i = false ->
     exists p', free Pool_ctor (slot i) = Some p' /\ consistent p').
Proof.
  intros P. apply (@proper_use_consistent pool4).
  - split; vm_compute; (reflexivity || discriminate).
  - split; vm_compute; reflexivity.
Defined.

Lemma bit_index_high_witness :
  let P := pool4 in
  testBit Pool_ctor 4 = Some false /\
  setBit Pool_ctor 4 = Some Pool_ctor /\
  clrBit Pool_ctor 4 = Some Pool_ctor.
Proof.
  intros P. apply (@bit_index_high pool4). vm_compute. discriminate.
Defined.

Lemma bit_index_negative_witness :
  let P := pool4 in
  testBit Pool_ctor (-8) = None /\
  setBit Pool_ctor (-8) = None /\
  clrBit Pool_ctor (-8) = None.
Proof.
  intros P. apply (@bit_index_negative pool4).
  - split; vm_compute; (reflexivity || discriminate).
  - vm_compute. reflexivity.
  - vm_compute. split; (reflexivity || discriminate).
Defined.

Lemma bitmap_write_read_witness :
  let P := pool4 in
  exists ps pc,
    setBit Pool_ctor 2 = Some ps /\ clrBit Pool_ctor 2 = Some pc /\
    testBit ps 2 = Some true /\ testBit pc 2 = Some false /\
    (forall j, 0 <= j < SIZE -> j <> 2 ->
       testBit ps j = testBit Pool_ctor j /\
       testBit pc j = testBit Pool_ctor j) /\
    size ps = size Pool_ctor /\ size pc = size Pool_ctor.
Proof.
  intros P.
  assert (H : @params_ok pool4)
    by (split; vm_compute; (reflexivity || discriminate)).
  apply (@bitmap_write_read pool4 H).
  - vm_compute. reflexivity.
  - vm_compute. split; (reflexivity || discriminate).
Defined.

Lemma palloc_free_restores_witness :
  let P := pool4 in
  free {| info := [254]; free_elements_cnt := 3 |} (slot 0) = Some Pool_ctor.
Proof.
  intros P.
  assert (H : @params_ok pool4)
    by (split; vm_compute; (reflexivity || discriminate)).
  apply (@palloc_free_restores pool4 H).
  - apply reach_ctor.
  - vm_compute. reflexivity.
Defined.

Lemma calls_stay_in_bounds_witness :
  let P := pool4 in
  (exists r p', palloc Pool_ctor = Some (r, p')) /\
  (forall q, free_elements_cnt Pool_ctor < INT_MAX ->
     exists p', free Pool_ctor q = Some p') /\
  (forall q, free Pool_ctor q = None ->
     free_elements_cnt Pool_ctor = INT_MAX /\
     exists m, 0 <= m < SIZE /\ q = slot m).
Proof.
  intros P.
  assert (H : @params_ok pool4)
    by (split; vm_compute; (reflexivity || discriminate)).
  apply (@calls_stay_in_bounds pool4 H). apply reach_ctor.
Defined.

Lemma palloc_null_iff_empty_witness :
  let P := pool4 in
  0 <= size Pool_ctor <= SIZE /\
  (size Pool_ctor = 0 -> palloc Pool_ctor = Some (NULL, Pool_ctor)) /\
  (0 < size Pool_ctor ->
     exists m p', lowest_free Pool_ctor m /\
       palloc Pool_ctor = Some (slot m, p') /\
       slot m <> NULL /\ size p' = size Pool_ctor - 1 /\ consistent p').
Proof.
  intros P.
  assert (H : @params_ok pool4)
    by (split; vm_compute; (reflexivity || discriminate)).
  apply (@palloc_null_iff_empty pool4 H).
  split; vm_compute; reflexivity.
Defined.

Lemma allocated_not_reissued_witness :
  let P := pool4 in
  slot 1 <> slot 0 /\
  is_free {| info := [252]; free_elements_cnt := 2 |} 0 = false.
Proof.
  intros P.
  assert (H : @params_ok pool4)
    by (split; vm_compute; (reflexivity || discriminate)).
  apply (@allocated_not_reissued pool4 H
           {| info := [254]; free_elements_cnt := 3 |}).
  - vm_compute. reflexivity.
  - vm_compute. split; (reflexivity || discriminate).
  - vm_compute. reflexivity.
  - vm_compute. reflexivity.
Defined.

End PoolProofs.

(** * Properties of the ring buffers *)

Module RingBufferProofs.
Import CInt RingBuffer.

(** ** The power-of-two test *)

Lemma land_pred_pow2 (n : Z) :
  0 < n -> (Z.land (n - 1) n = 0 <-> is_pow2 n).
Proof.
  intros Hn. split.
  - intros H0. exists (Z.log2 n).
    pose proof (Z.log2_nonneg n) as Hk.
    destruct (Z.log2_spec n Hn) as [Hlo Hhi].
    split; [done|].
    destruct (Z.eq_dec n (2 ^ Z.log2 n)) as [|Hne]; [done|]. exfalso.
    assert (Hl : Z.log2 (n - 1) = Z.log2 n)
      by (apply Z.log2_unique; [done | lia]).
    assert (Hb : Z.testbit (Z.land (n - 1) n) (Z.log2 n) = true).
    { rewrite Z.land_spec. rewrite <- Hl at 1.
      rewrite !Z.bit_log2 by lia. reflexivity. }
    rewrite H0, Z.bits_0 in Hb. discriminate.
  - intros (k & Hk & ->).
    replace (2 ^ k - 1) with (Z.ones k) by (rewrite Z.ones_equiv; lia).
    rewrite Z.land_comm, Z.land_ones by done.
    apply Z.mod_same. lia.
Qed.

Section WithParams.

Context {P : Params}.
Hypothesis HP : params_ok.

Lemma size_pos : 0 < 2 ^ size_bits.
Proof. destruct HP. apply Z.pow_pos_nonneg; lia. Qed.

Lemma to_size_t_range (z : Z) : 0 <= to_size_t z < 2 ^ size_bits.
Proof. apply Z.mod_pos_bound, size_pos. Qed.

Lemma to_size_t_small (z : Z) : 0 <= z < 2 ^ size_bits -> to_size_t z = z.
Proof. apply Z.mod_small. Qed.

(** The test of [ring_buffer_init] accepts 0 and the powers of two. *)
Lemma pow2_test (n : Z) :
  0 <= n < 2 ^ size_bits ->
  (Z.land (to_size_t (n - 1)) n = 0 <-> n = 0 \/ is_pow2 n).
Proof.
  intros Hn. destruct (Z.eq_dec n 0) as [->|Hne].
  - rewrite Z.land_0_r. tauto.
  - rewrite to_size_t_small by lia.
    rewrite land_pred_pow2 by lia. tauto.
Qed.

(** ** [ring_buffer_init] *)

Lemma init_cases (rbd : option rbd_t) (attr : option rb_attr_t) (st : state) :
  (init_accepts rbd attr st /\
   exists a, attr = Some a /\
     ring_buffer_init rbd attr st
     = (0, Some (Z.to_N (idx st)), registered a st))
  \/ (~ init_accepts rbd attr st /\
      ring_buffer_init rbd attr st = (-1, rbd, st)).
Proof.
  unfold ring_buffer_init, init_accepts.
  destruct rbd as [r|]; [|right; split; [intros (_ & [? ?] & _); done | done]].
  destruct attr as [a|];
    [|right; split; [intros (_ & _ & ? & ? & _); done | done]].
  destruct (Z.ltb_spec (idx st) RING_BUFFER_MAX) as [H1|H1];
  destruct (Z.eqb_spec (attr_buffer a) NULL) as [H2|H2];
  destruct (Z.gtb_spec (attr_s_elem a) 0) as [H3|H3];
  destruct (Z.eqb_spec (Z.land (to_size_t (attr_n_elem a - 1)) (attr_n_elem a)) 0)
    as [H4|H4]; simpl;
  try (right; split; [|reflexivity];
       intros (? & _ & a' & [= <-] & ? & ? & ?); (done || lia)).
  left. split.
  - split; [done|]. split; [by eexists|]. exists a. repeat split; (done || lia).
  - exists a. done.
Qed.

(** ** [ring_buffer_put] and [ring_buffer_get] by cases *)

Lemma put_cases (rbd : rbd_t) (data : list byte) (st : state) :
  (Z.of_N rbd < RING_BUFFER_MAX /\
   used (rb_at st (N.to_nat rbd)) <> n_elem (rb_at st (N.to_nat rbd)) /\
   ring_buffer_put rbd data st = (0, put_state rbd data st))
  \/ ((RING_BUFFER_MAX <= Z.of_N rbd \/
       used (rb_at st (N.to_nat rbd)) = n_elem (rb_at st (N.to_nat rbd))) /\
      ring_buffer_put rbd data st = (-1, st)).
Proof.
  unfold ring_buffer_put, _ring_buffer_full, used.
  destruct (Z.ltb_spec (Z.of_N rbd) RING_BUFFER_MAX) as [H1|H1]; simpl;
    [|right; split; [by left | done]].
  destruct (Z.eqb_spec (to_size_t (head (rb_at st (N.to_nat rbd))
                                   - tail (rb_at st (N.to_nat rbd))))
              (n_elem (rb_at st (N.to_nat rbd)))) as [H2|H2]; simpl.
  - right. split; [by right | done].
  - left. done.
Qed.

Lemma get_cases (rbd : rbd_t) (st : state) :
  (Z.of_N rbd < RING_BUFFER_MAX /\
   used (rb_at st (N.to_nat rbd)) <> 0 /\
   ring_buffer_get rbd st = (0, Some (front rbd st), get_state rbd st))
  \/ ((RING_BUFFER_MAX <= Z.of_N rbd \/ used (rb_at st (N.to_nat rbd)) = 0) /\
      ring_buffer_get rbd st = (-1, None, st)).
Proof.
  unfold ring_buffer_get, _ring_buffer_empty, used.
  destruct (Z.ltb_spec (Z.of_N rbd) RING_BUFFER_MAX) as [H1|H1]; simpl;
    [|right; split; [by left | done]].
  destruct (Z.eqb_spec (to_size_t (head (rb_at st (N.to_nat rbd))
                                   - tail (rb_at st (N.to_nat rbd)))) 0)
    as [H2|H2]; simpl.
  - right. split; [by right | done].
  - left. done.
Qed.

(** ** The number of stored elements *)

Lemma used_put (rb : ring_buffer) :
  rb_ok rb -> used rb <> n_elem rb ->
  used (with_head rb (to_size_t (head rb + 1))) = used rb + 1.
Proof.
  intros (Hn & Hh & Ht & Hu) Hne. unfold used, to_size_t, wrap in *. simpl.
  pose proof (Z.mod_pos_bound (head rb - tail rb) (2 ^ size_bits) size_pos).
  rewrite Zminus_mod_idemp_l.
  replace (head rb + 1 - tail rb) with (head rb - tail rb + 1) by lia.
  rewrite <- Zplus_mod_idemp_l. apply Z.mod_small. lia.
Qed.

Lemma used_get (rb : ring_buffer) :
  rb_ok rb -> used rb <> 0 ->
  used (with_tail rb (to_size_t (tail rb + 1))) = used rb - 1.
Proof.
  intros (Hn & Hh & Ht & Hu) Hne. unfold used, to_size_t, wrap in *. simpl.
  pose proof (Z.mod_pos_bound (head rb - tail rb) (2 ^ size_bits) size_pos).
  rewrite Zminus_mod_idemp_r.
  replace (head rb - (tail rb + 1)) with (head rb - tail rb - 1) by lia.
  rewrite <- Zminus_mod_idemp_l. apply Z.mod_small. lia.
Qed.

Lemma rb_ok_put (rb : ring_buffer) :
  rb_ok rb -> used rb <> n_elem rb ->
  rb_ok (with_head rb (to_size_t (head rb + 1))).
Proof.
  intros Hok Hne. pose proof (used_put rb Hok Hne) as Hu.
  destruct Hok as (Hn & Hh & Ht & Hle).
  split; [done|]. split; [apply to_size_t_range|]. split; [done|].
  rewrite Hu. simpl. lia.
Qed.

Lemma rb_ok_get (rb : ring_buffer) :
  rb_ok rb -> used rb <> 0 ->
  rb_ok (with_tail rb (to_size_t (tail rb + 1))).
Proof.
  intros Hok Hne. pose proof (used_get rb Hok Hne) as Hu.
  destruct Hok as (Hn & Hh & Ht & Hle).
  split; [done|]. split; [done|]. split; [apply to_size_t_range|].
  rewrite Hu. simpl. lia.
Qed.

Lemma rb_ok_zero : rb_ok rb_zero.
Proof.
  pose proof size_pos. unfold rb_ok, used. simpl.
  rewrite to_size_t_small by lia. lia.
Qed.

(** ** The invariant of the table *)

Lemma rb_at_insert (st : state) (i j : nat) (x : ring_buffer) (k : Z)
    (m : mem) :
  rb_at {| _rb := <[i := x]> (_rb st); idx := k; memory := m |} j
  = if decide (i = j /\ (i < length (_rb st))%nat) then x else rb_at st j.
Proof.
  unfold rb_at. simpl. rewrite list_lookup_insert.
  by destruct (decide _).
Qed.

Lemma start_ok (m : mem) : state_ok (start m).
Proof.
  destruct HP as [_ HM].
  assert (Hz : forall i, rb_at (start m) i = rb_zero).
  { intros i. unfold rb_at, start. simpl.
    destruct (replicate _ _ !! i) as [rb|] eqn:E; [|done].
    apply lookup_replicate in E. by destruct E. }
  split; [apply length_replicate|]. split; [simpl; lia|].
  split; intros i _; rewrite Hz; [apply rb_ok_zero | done].
Qed.

Lemma registered_ok (a : rb_attr_t) (st : state) :
  state_ok st -> attr_typed a -> idx st < RING_BUFFER_MAX ->
  state_ok (registered a st).
Proof.
  intros (Hlen & Hidx & Hok & Hz) (Hs & Hn & Hb) Hlt. pose proof size_pos.
  unfold registered.
  split; [simpl; by rewrite length_insert|]. split; [simpl; lia|].
  split; intros i Hi; rewrite rb_at_insert; destruct (decide _) as [[E _]|_].
  - unfold rb_ok, used. simpl. rewrite to_size_t_small by lia. lia.
  - by apply Hok.
  - simpl in Hi. lia.
  - apply Hz. simpl in Hi. lia.
Qed.

Lemma put_state_ok (rbd : rbd_t) (data : list byte) (st : state) :
  state_ok st -> Z.of_N rbd < RING_BUFFER_MAX ->
  used (rb_at st (N.to_nat rbd)) <> n_elem (rb_at st (N.to_nat rbd)) ->
  state_ok (put_state rbd data st).
Proof.
  intros (Hlen & Hidx & Hok & Hz) Hlt Hne. unfold put_state.
  split; [simpl; by rewrite length_insert|]. split; [done|].
  split; intros i Hi; rewrite rb_at_insert; destruct (decide _) as [[E _]|_].
  - apply rb_ok_put; [apply Hok; lia | done].
  - by apply Hok.
  - exfalso. simpl in Hi. subst i. rewrite Hz in Hne by done.
    apply Hne. unfold used. simpl. by rewrite to_size_t_small by (pose proof size_pos; lia).
  - by apply Hz.
Qed.

Lemma get_state_ok (rbd : rbd_t) (st : state) :
  state_ok st -> Z.of_N rbd < RING_BUFFER_MAX ->
  used (rb_at st (N.to_nat rbd)) <> 0 ->
  state_ok (get_state rbd st).
Proof.
  intros (Hlen & Hidx & Hok & Hz) Hlt Hne. unfold get_state.
  split; [simpl; by rewrite length_insert|]. split; [done|].
  split; intros i Hi; rewrite rb_at_insert; destruct (decide _) as [[E _]|_].
  - apply rb_ok_get; [apply Hok; lia | done].
  - by apply Hok.
  - exfalso. simpl in Hi. subst i. rewrite Hz in Hne by done.
    apply Hne. unfold used. simpl. by rewrite to_size_t_small by (pose proof size_pos; lia).
  - by apply Hz.
Qed.

Lemma reachable_ok (st : state) : reachable st -> state_ok st.
Proof.
  induction 1 as [m|rbd attr st _ IH Ha|rbd data st _ IH|rbd st _ IH
                 |m st _ IH]; [| | | |exact IH].
  - apply start_ok.
  - destruct (init_cases rbd attr st) as [(Hacc & a & -> & ->)|(_ & ->)]; [|done].
    simpl. apply registered_ok; [done | done | apply Hacc].
  - destruct (put_cases rbd data st) as [(H1 & H2 & ->)|(_ & ->)]; [|done].
    by apply put_state_ok.
  - destruct (get_cases rbd st) as [(H1 & H2 & ->)|(_ & ->)]; [|done].
    by apply get_state_ok.
Qed.

(** ** Memory *)

Lemma mem_read_write_same (m : mem) (a n : Z) (data : list byte) :
  Z.of_nat (length data) = n ->
  mem_read (mem_write m a data) a n = data.
Proof.
  intros Hn. unfold mem_read. apply list_eq. intros i.
  rewrite list_lookup_fmap.
  destruct (decide (Z.of_nat i < n)) as [Hi|Hi].
  - rewrite lookup_seqZ_lt by done. simpl. unfold mem_write.
    destruct (Z.leb_spec a (a + (0 + Z.of_nat i))); [|lia].
    replace (Z.to_nat (a + (0 + Z.of_nat i) - a)) with i by lia.
    destruct (lookup_lt_is_Some_2 data i ltac:(lia)) as [b Hb].
    by rewrite Hb.
  - rewrite lookup_seqZ_ge by lia. simpl. symmetry.
    apply lookup_ge_None. lia.
Qed.

Lemma mem_read_write_disjoint (m : mem) (a a' n : Z) (data : list byte) :
  a' + n <= a \/ a + Z.of_nat (length data) <= a' ->
  mem_read (mem_write m a data) a' n = mem_read m a' n.
Proof.
  intros Hd. unfold mem_read. apply list_fmap_ext. intros i k Hk.
  apply lookup_seqZ in Hk. destruct Hk as [-> Hi]. unfold mem_write.
  destruct (Z.leb_spec a (a' + (0 + Z.of_nat i))); [|done].
  rewrite (proj2 (lookup_ge_None data _)); [done | lia].
Qed.

(** ** The stored elements *)

Lemma mod_wrap (n x : Z) :
  is_pow2 n -> n < 2 ^ size_bits -> to_size_t x mod n = x mod n.
Proof.
  intros (k & Hk & ->) Hlt. destruct HP as [HW _].
  assert (k < size_bits).
  { apply (Z.pow_lt_mono_r_iff 2); lia. }
  unfold to_size_t, wrap. apply Z.mod_mod_divide.
  exists (2 ^ (size_bits - k)). rewrite <- Z.pow_add_r by lia.
  f_equal. lia.
Qed.

Lemma fifo_ok_bounds (rb : ring_buffer) :
  fifo_ok rb -> 0 < n_elem rb < 2 ^ size_bits.
Proof.
  intros ((Hn & _) & (k & Hk & E) & Hs & Hsz).
  assert (0 < n_elem rb) by (rewrite E; apply Z.pow_pos_nonneg; lia).
  split; [done|]. nia.
Qed.

(** With a power-of-two count the mask is a remainder, and the offset
    does not wrap. *)
Lemma offset_of_eq (rb : ring_buffer) (x : Z) :
  fifo_ok rb -> offset_of rb x = (x mod n_elem rb) * s_elem rb.
Proof.
  intros Hok. pose proof (fifo_ok_bounds rb Hok) as Hn.
  destruct Hok as (_ & (k & Hk & E) & Hs & Hsz).
  unfold offset_of. rewrite (to_size_t_small (n_elem rb - 1)) by lia.
  replace (n_elem rb - 1) with (Z.ones k) by (rewrite Z.ones_equiv, E; lia).
  rewrite Z.land_ones by done. rewrite <- E.
  pose proof (Z.mod_pos_bound x (n_elem rb) ltac:(lia)).
  apply to_size_t_small. nia.
Qed.

Lemma slots_differ (n t j u : Z) :
  0 < n -> 0 <= j < u -> u < n -> (t + j) mod n <> (t + u) mod n.
Proof.
  intros Hn Hj Hu E.
  assert (H0 : (t + u - (t + j)) mod n = 0).
  { rewrite Zminus_mod, E, Z.sub_diag. apply Z.mod_0_l. lia. }
  replace (t + u - (t + j)) with (u - j) in H0 by lia.
  rewrite Z.mod_small in H0 by lia. lia.
Qed.

Lemma length_contents (rb : ring_buffer) (m : mem) :
  length (contents rb m) = Z.to_nat (used rb).
Proof. unfold contents. by rewrite length_fmap, length_seqZ. Qed.

Lemma head_eq_tail_plus_used (rb : ring_buffer) :
  rb_ok rb -> to_size_t (tail rb + used rb) = head rb.
Proof.
  intros (_ & Hh & _ & _). unfold used, to_size_t, wrap.
  rewrite Zplus_mod_idemp_r.
  replace (tail rb + (head rb - tail rb)) with (head rb) by lia.
  by apply Z.mod_small.
Qed.

(** The [memcpy] of a put, into the slot at [head], leaves the stored
    elements as they are. *)
Lemma element_untouched (rb : ring_buffer) (m : mem) (data : list byte)
    (j : Z) :
  fifo_ok rb -> used rb <> n_elem rb ->
  Z.of_nat (length data) = s_elem rb -> 0 <= j < used rb ->
  mem_read (mem_write m (buf rb + offset_of rb (head rb)) data)
    (buf rb + offset_of rb (to_size_t (tail rb + j))) (s_elem rb)
  = mem_read m (buf rb + offset_of rb (to_size_t (tail rb + j))) (s_elem rb).
Proof.
  intros Hok Hne Hlen Hj. pose proof (fifo_ok_bounds rb Hok) as Hn.
  pose proof Hok as (Hrb & Hp2 & Hs & Hsz).
  pose proof Hrb as (_ & Hh & Ht & Hu).
  rewrite !offset_of_eq by done.
  rewrite mod_wrap by (done || lia).
  apply mem_read_write_disjoint.
  assert (Hhd : head rb mod n_elem rb = (tail rb + used rb) mod n_elem rb).
  { rewrite <- (head_eq_tail_plus_used rb Hrb) at 1.
    apply mod_wrap; (done || lia). }
  rewrite Hhd, Hlen.
  assert (Hlt : used rb < n_elem rb) by lia.
  pose proof (slots_differ (n_elem rb) (tail rb) _ _ (proj1 Hn) Hj Hlt).
  pose proof (Z.mod_pos_bound (tail rb + j) (n_elem rb) (proj1 Hn)).
  pose proof (Z.mod_pos_bound (tail rb + used rb) (n_elem rb) (proj1 Hn)).
  nia.
Qed.

Lemma contents_copy_in (rb : ring_buffer) (m : mem) (data : list byte) :
  fifo_ok rb -> used rb <> n_elem rb ->
  Z.of_nat (length data) = s_elem rb ->
  contents rb (mem_write m (buf rb + offset_of rb (head rb)) data)
  = contents rb m.
Proof.
  intros Hok Hne Hlen. unfold contents.
  apply list_fmap_ext. intros i j Hj.
  apply lookup_seqZ in Hj. destruct Hj as [-> Hi].
  apply element_untouched; (done || lia).
Qed.

(** [head++] appends what the slot at [head] holds. *)
Lemma contents_incr_head (rb : ring_buffer) (m : mem) :
  fifo_ok rb -> used rb <> n_elem rb ->
  contents (with_head rb (to_size_t (head rb + 1))) m
  = contents rb m
    ++ [mem_read m (buf rb + offset_of rb (head rb)) (s_elem rb)].
Proof.
  intros Hok Hne.
  pose proof Hok as (Hrb & Hp2 & Hs & Hsz).
  assert (0 <= used rb) by apply to_size_t_range.
  unfold contents. rewrite used_put by done.
  rewrite seqZ_app, fmap_app by lia. simpl.
  assert (Hoff : forall x, offset_of (with_head rb (to_size_t (head rb + 1))) x
                           = offset_of rb x) by done.
  f_equal.
  replace (Z.of_nat 0 + (0 + used rb)) with (used rb) by lia.
  by rewrite Hoff, head_eq_tail_plus_used.
Qed.

(** A successful put appends the element. *)
Lemma contents_put (rb : ring_buffer) (m : mem) (data : list byte) :
  fifo_ok rb -> used rb <> n_elem rb ->
  Z.of_nat (length data) = s_elem rb ->
  contents (with_head rb (to_size_t (head rb + 1)))
    (mem_write m (buf rb + offset_of rb (head rb)) data)
  = contents rb m ++ [data].
Proof.
  intros Hok Hne Hlen.
  rewrite contents_incr_head, contents_copy_in by done.
  by rewrite mem_read_write_same.
Qed.

(** A successful get removes the oldest element and copies it out. *)
Lemma contents_get (rb : ring_buffer) (m : mem) :
  fifo_ok rb -> used rb <> 0 ->
  contents rb m
  = mem_read m (buf rb + offset_of rb (tail rb)) (s_elem rb)
    :: contents (with_tail rb (to_size_t (tail rb + 1))) m.
Proof.
  intros Hok Hne.
  pose proof Hok as (Hrb & Hp2 & Hs & Hsz).
  pose proof Hrb as (_ & Hh & Ht & Hu).
  assert (0 <= used rb) by apply to_size_t_range.
  unfold contents. rewrite used_get by done.
  rewrite (seqZ_cons 0) by lia. simpl. f_equal.
  - rewrite Z.add_0_r, to_size_t_small by done. done.
  - replace (Z.succ 0) with (1 + 0) by lia.
    rewrite <- fmap_add_seqZ, <- list_fmap_compose.
    replace (Z.pred (used rb)) with (used rb - 1) by lia.
    apply list_fmap_ext. intros i j _. simpl.
    assert (Hoff : forall x, offset_of (with_tail rb (to_size_t (tail rb + 1))) x
                             = offset_of rb x) by done.
    assert (Hw : to_size_t (to_size_t (tail rb + 1) + j)
                 = to_size_t (tail rb + (1 + j))).
    { unfold to_size_t, wrap. rewrite Zplus_mod_idemp_l. f_equal. lia. }
    by rewrite Hoff, Hw.
Qed.

(** ** One call on a usable entry *)

Lemma rb_at_put_state (rbd : rbd_t) (data : list byte) (st : state) :
  (N.to_nat rbd < length (_rb st))%nat ->
  rb_at (put_state rbd data st) (N.to_nat rbd)
  = with_head (rb_at st (N.to_nat rbd))
      (to_size_t (head (rb_at st (N.to_nat rbd)) + 1)).
Proof.
  intros Hlt. unfold put_state. rewrite rb_at_insert.
  by destruct (decide _) as [|[]].
Qed.

Lemma rb_at_get_state (rbd : rbd_t) (st : state) :
  (N.to_nat rbd < length (_rb st))%nat ->
  rb_at (get_state rbd st) (N.to_nat rbd)
  = with_tail (rb_at st (N.to_nat rbd))
      (to_size_t (tail (rb_at st (N.to_nat rbd)) + 1)).
Proof.
  intros Hlt. unfold get_state. rewrite rb_at_insert.
  by destruct (decide _) as [|[]].
Qed.

Lemma put_step (rbd : rbd_t) (data : list byte) (st : state) :
  fifo_entry st rbd ->
  used (rb_at st (N.to_nat rbd)) <> n_elem (rb_at st (N.to_nat rbd)) ->
  Z.of_nat (length data) = s_elem (rb_at st (N.to_nat rbd)) ->
  ring_buffer_put rbd data st = (0, put_state rbd data st) /\
  fifo_entry (put_state rbd data st) rbd /\
  geometry (rb_at (put_state rbd data st) (N.to_nat rbd))
  = geometry (rb_at st (N.to_nat rbd)) /\
  queue (put_state rbd data st) rbd = queue st rbd ++ [data].
Proof.
  intros (Hmax & Hlen & Hok) Hne Hd.
  destruct (put_cases rbd data st) as [(_ & _ & E)|([H|H] & _)]; [|lia|done].
  split; [done|].
  pose proof (rb_at_put_state rbd data st Hlen) as Hat.
  split; [|split].
  - split; [done|]. split; [simpl; by rewrite length_insert|].
    rewrite Hat. destruct Hok as (Hrb & Hp & Hs & Hsz).
    split; [by apply rb_ok_put | done].
  - by rewrite Hat.
  - unfold queue. rewrite Hat. simpl.
    rewrite take_ge by lia. by apply contents_put.
Qed.

Lemma get_step (rbd : rbd_t) (st : state) :
  fifo_entry st rbd -> used (rb_at st (N.to_nat rbd)) <> 0 ->
  ring_buffer_get rbd st = (0, Some (front rbd st), get_state rbd st) /\
  fifo_entry (get_state rbd st) rbd /\
  geometry (rb_at (get_state rbd st) (N.to_nat rbd))
  = geometry (rb_at st (N.to_nat rbd)) /\
  queue st rbd = front rbd st :: queue (get_state rbd st) rbd.
Proof.
  intros (Hmax & Hlen & Hok) Hne.
  destruct (get_cases rbd st) as [(_ & _ & E)|([H|H] & _)]; [|lia|done].
  split; [done|].
  pose proof (rb_at_get_state rbd st Hlen) as Hat.
  split; [|split].
  - split; [done|]. split; [simpl; by rewrite length_insert|].
    rewrite Hat. destruct Hok as (Hrb & Hp & Hs & Hsz).
    split; [by apply rb_ok_get | done].
  - by rewrite Hat.
  - unfold queue, front. rewrite Hat. simpl. by apply contents_get.
Qed.

Lemma used_queue (st : state) (rbd : rbd_t) :
  used (rb_at st (N.to_nat rbd)) = Z.of_nat (length (queue st rbd)).
Proof.
  unfold queue. rewrite length_contents.
  pose proof (to_size_t_range (head (rb_at st (N.to_nat rbd))
                               - tail (rb_at st (N.to_nat rbd)))).
  unfold used. lia.
Qed.

(** ** Calls in sequence *)

Lemma run_app (rbd : rbd_t) (ops1 ops2 : list op) (st : state) :
  run rbd (ops1 ++ ops2) st
  = ((run rbd ops1 st).1 ++ (run rbd ops2 (run rbd ops1 st).2).1,
     (run rbd ops2 (run rbd ops1 st).2).2).
Proof.
  revert st. induction ops1 as [|o ops1 IH]; intros st; simpl.
  - by destruct (run rbd ops2 st).
  - destruct (step rbd o st) as [r st1]. rewrite IH.
    by destruct (run rbd ops1 st1).
Qed.

Lemma run_put_cons (rbd : rbd_t) (d : list byte) (ops : list op) (st : state) :
  run rbd (Put d :: ops) st
  = (PutR (ring_buffer_put rbd d st).1
       :: (run rbd ops (ring_buffer_put rbd d st).2).1,
     (run rbd ops (ring_buffer_put rbd d st).2).2).
Proof.
  simpl. destruct (ring_buffer_put rbd d st) as [err st1]. simpl.
  by destruct (run rbd ops st1).
Qed.

Lemma run_get_cons (rbd : rbd_t) (ops : list op) (st : state) :
  run rbd (Get :: ops) st
  = (GetR (ring_buffer_get rbd st).1.1 (ring_buffer_get rbd st).1.2
       :: (run rbd ops (ring_buffer_get rbd st).2).1,
     (run rbd ops (ring_buffer_get rbd st).2).2).
Proof.
  simpl. destruct (ring_buffer_get rbd st) as [[err out] st1]. simpl.
  by destruct (run rbd ops st1).
Qed.

Lemma run_puts (rbd : rbd_t) (ds : list (list byte)) (st : state) :
  fifo_entry st rbd ->
  Forall (fun d => Z.of_nat (length d) = s_elem (rb_at st (N.to_nat rbd))) ds ->
  Z.of_nat (length (queue st rbd)) + Z.of_nat (length ds)
  <= n_elem (rb_at st (N.to_nat rbd)) ->
  exists st',
    run rbd (Put <$> ds) st = ((fun _ => PutR 0) <$> ds, st') /\
    fifo_entry st' rbd /\
    geometry (rb_at st' (N.to_nat rbd)) = geometry (rb_at st (N.to_nat rbd)) /\
    queue st' rbd = queue st rbd ++ ds.
Proof.
  revert st. induction ds as [|d ds IH]; intros st He Hds Hroom.
  - exists st. by rewrite app_nil_r.
  - inversion Hds as [|d' ds' Hd Hds']; subst d' ds'.
    simpl length in Hroom.
    destruct (put_step rbd d st He) as (E & He1 & Hg & Hq); [|done|].
    { rewrite used_queue. lia. }
    unfold geometry in Hg. injection Hg as Hg1 Hg2 Hg3.
    destruct (IH (put_state rbd d st) He1) as (st' & E' & He' & Hg' & Hq').
    { rewrite Hg1; exact Hds'. }
    { rewrite Hq, length_app, Hg2. simpl. lia. }
    exists st'. split; [|split; [done|split]].
    + rewrite !fmap_cons, run_put_cons, E. simpl. by rewrite E'.
    + rewrite Hg'. unfold geometry. by rewrite Hg1, Hg2, Hg3.
    + rewrite Hq', Hq, <- app_assoc. reflexivity.
Qed.

Lemma run_gets (rbd : rbd_t) (q1 q2 : list (list byte)) (st : state) :
  fifo_entry st rbd -> queue st rbd = q1 ++ q2 ->
  exists st',
    run rbd (replicate (length q1) Get) st
    = ((fun d => GetR 0 (Some d)) <$> q1, st') /\
    fifo_entry st' rbd /\
    geometry (rb_at st' (N.to_nat rbd)) = geometry (rb_at st (N.to_nat rbd)) /\
    queue st' rbd = q2.
Proof.
  revert st. induction q1 as [|d q1 IH]; intros st He Hq.
  - exists st. done.
  - destruct (get_step rbd st He) as (E & He1 & Hg & Hq1).
    { rewrite used_queue, Hq. simpl. lia. }
    rewrite Hq in Hq1. injection Hq1 as Hd Hq1.
    destruct (IH (get_state rbd st) He1 (eq_sym Hq1)) as (st' & E' & He' & Hg' & Hq').
    exists st'. split; [|split; [done|split]].
    + rewrite fmap_cons. simpl length. simpl replicate.
      rewrite run_get_cons, E. simpl. by rewrite E', Hd.
    + by rewrite Hg', Hg.
    + done.
Qed.

(** ** A freshly registered entry *)

Lemma init_accepts_pow2 (r : rbd_t) (a : rb_attr_t) (st : state) :
  attr_typed a -> idx st < RING_BUFFER_MAX -> attr_buffer a <> NULL ->
  0 < attr_s_elem a -> attr_n_elem a = 0 \/ is_pow2 (attr_n_elem a) ->
  ring_buffer_init (Some r) (Some a) st
  = (0, Some (Z.to_N (idx st)), registered a st).
Proof.
  intros (_ & Hn & _) Hidx Hb Hs Hp.
  destruct (init_cases (Some r) (Some a) st)
    as [(_ & a' & [= <-] & E)|(Hno & _)]; [done|].
  exfalso. apply Hno. split; [done|]. split; [by eexists|].
  exists a. repeat split; try done. by apply pow2_test.
Qed.

Lemma registered_entry (a : rb_attr_t) (st : state) :
  state_ok st -> attr_typed a -> idx st < RING_BUFFER_MAX ->
  0 < attr_s_elem a -> is_pow2 (attr_n_elem a) ->
  attr_s_elem a * attr_n_elem a < 2 ^ size_bits ->
  fifo_entry (registered a st) (Z.to_N (idx st)) /\
  geometry (rb_at (registered a st) (N.to_nat (Z.to_N (idx st))))
  = (attr_s_elem a, attr_n_elem a, attr_buffer a) /\
  queue (registered a st) (Z.to_N (idx st)) = [].
Proof.
  intros Hst Ha Hidx Hs Hp Hsz.
  pose proof (registered_ok a st Hst Ha Hidx) as (Hlen' & _ & Hok' & _).
  destruct Hst as (Hlen & Hi & _ & _).
  assert (Hat : rb_at (registered a st) (N.to_nat (Z.to_N (idx st)))
                = {| s_elem := attr_s_elem a; n_elem := attr_n_elem a;
                     buf := attr_buffer a; head := 0; tail := 0 |}).
  { unfold registered. rewrite rb_at_insert.
    destruct (decide _) as [|Hn]; [done|]. exfalso. apply Hn. lia. }
  split; [|split].
  - split; [lia|]. split; [lia|]. rewrite Hat.
    split; [|done]. rewrite <- Hat. apply Hok'. lia.
  - by rewrite Hat.
  - unfold queue, contents, used. rewrite Hat. simpl.
    done.
Qed.

(** Fill a freshly registered ring buffer, try one more put, drain it,
    try one more get, and put again. *)
Lemma fill_and_drain (st0 : state) (r : rbd_t) (a : rb_attr_t)
    (ds : list (list byte)) (extra late : list byte) :
  reachable st0 -> attr_typed a -> idx st0 < RING_BUFFER_MAX ->
  attr_buffer a <> NULL -> 0 < attr_s_elem a ->
  is_pow2 (attr_n_elem a) ->
  attr_s_elem a * attr_n_elem a < 2 ^ size_bits ->
  Z.of_nat (length ds) = attr_n_elem a ->
  Forall (fun d => Z.of_nat (length d) = attr_s_elem a) ds ->
  exists rbd st,
    ring_buffer_init (Some r) (Some a) st0 = (0, Some rbd, st) /\
    (run rbd ((Put <$> ds) ++ [Put extra]
              ++ replicate (length ds) Get ++ [Get; Put late]) st).1
    = ((fun _ => PutR 0) <$> ds) ++ [PutR (-1)]
      ++ ((fun d => GetR 0 (Some d)) <$> ds)
      ++ [GetR (-1) None; PutR 0].
Proof.
  intros Hr Ha Hidx Hb Hs Hp Hsz Hlen Hds.
  pose proof (reachable_ok st0 Hr) as Hst.
  exists (Z.to_N (idx st0)), (registered a st0).
  split; [apply init_accepts_pow2; auto|].
  destruct (registered_entry a st0 Hst Ha Hidx Hs Hp Hsz) as (He & Hg & Hq).
  set (rbd := Z.to_N (idx st0)) in *. set (st := registered a st0) in *.
  unfold geometry in Hg. injection Hg as Hg1 Hg2 Hg3.
  destruct (run_puts rbd ds st He) as (st1 & E1 & He1 & Hg' & Hq1).
  { by rewrite Hg1. }
  { rewrite Hq, Hg2. simpl. lia. }
  rewrite Hq in Hq1. simpl in Hq1.
  unfold geometry in Hg'. injection Hg' as Hs1 Hn1 _.
  destruct (put_cases rbd extra st1) as [(_ & Hne & _)|(_ & E2)].
  { exfalso. apply Hne. rewrite used_queue, Hq1, Hn1, Hg2. done. }
  destruct (run_gets rbd ds [] st1 He1) as (st2 & E3 & He2 & Hg'' & Hq2).
  { by rewrite app_nil_r. }
  unfold geometry in Hg''. injection Hg'' as _ Hn2 _.
  destruct (get_cases rbd st2) as [(_ & Hne & _)|(_ & E4)].
  { exfalso. apply Hne. by rewrite used_queue, Hq2. }
  destruct (put_cases rbd late st2) as [(_ & _ & E5)|([H|H] & _)].
  - rewrite run_app, E1. cbn [fst snd app]. f_equal.
    rewrite run_put_cons, E2. cbn [fst snd]. f_equal.
    rewrite run_app, E3. cbn [fst snd]. f_equal.
    rewrite run_get_cons, E4. cbn [fst snd]. f_equal.
    rewrite run_put_cons, E5. reflexivity.
  - destruct He2 as (? & _). lia.
  - exfalso. rewrite used_queue, Hq2, Hn2, Hn1, Hg2 in H.
    destruct Hp as (k & Hk & Ek). rewrite Ek in H.
    pose proof (Z.pow_pos_nonneg 2 k ltac:(lia) Hk). simpl in H. lia.
Qed.

(** C1: a ring buffer registered with a power-of-two count [C] and an
    element size [s >= 1] takes [C] elements in a row, refuses one
    more, then gives the [C] elements back in the order they were put,
    refuses one more get, and takes an element again.  In particular,
    with [C = 4] and [s = 1]: the puts of a, b, c, d succeed, the put
    of e fails, four gets yield a, b, c, d, a fifth get fails and the
    put of f succeeds. *)
Theorem fifo_order :
  (forall st0 r a ds extra late,
     reachable st0 -> attr_typed a -> idx st0 < RING_BUFFER_MAX ->
     attr_buffer a <> NULL -> 0 < attr_s_elem a ->
     is_pow2 (attr_n_elem a) ->
     attr_s_elem a * attr_n_elem a < 2 ^ size_bits ->
     Z.of_nat (length ds) = attr_n_elem a ->
     Forall (fun d => Z.of_nat (length d) = attr_s_elem a) ds ->
     exists rbd st,
       ring_buffer_init (Some r) (Some a) st0 = (0, Some rbd, st) /\
       (run rbd ((Put <$> ds) ++ [Put extra]
                 ++ replicate (length ds) Get ++ [Get; Put late]) st).1
       = ((fun _ => PutR 0) <$> ds) ++ [PutR (-1)]
         ++ ((fun d => GetR 0 (Some d)) <$> ds)
         ++ [GetR (-1) None; PutR 0]) /\
  (forall st0 r b,
     reachable st0 -> idx st0 < RING_BUFFER_MAX -> 0 < b ->
     4 < 2 ^ size_bits ->
     exists rbd st,
       ring_buffer_init (Some r) (Some (mkAttr 1 4 b)) st0
       = (0, Some rbd, st) /\
       (run rbd [Put ["a"%byte]; Put ["b"%byte]; Put ["c"%byte];
                 Put ["d"%byte]; Put ["e"%byte];
                 Get; Get; Get; Get; Get; Put ["f"%byte]] st).1
       = [PutR 0; PutR 0; PutR 0; PutR 0; PutR (-1);
          GetR 0 (Some ["a"%byte]); GetR 0 (Some ["b"%byte]);
          GetR 0 (Some ["c"%byte]); GetR 0 (Some ["d"%byte]);
          GetR (-1) None; PutR 0]).
Proof.
  split; [exact fill_and_drain|].
  intros st0 r b Hr Hidx Hb Hsz.
  destruct (fill_and_drain st0 r (mkAttr 1 4 b)
              [["a"%byte]; ["b"%byte]; ["c"%byte]; ["d"%byte]]
              ["e"%byte] ["f"%byte]) as (rbd & st & E & Hrun); try done.
  - unfold attr_typed. simpl. lia.
  - simpl. unfold NULL. lia.
  - by exists 2.
  - repeat constructor.
  - by exists rbd, st.
Qed.

(** ** Occupancy *)

(** C6: in every reachable state, for every entry of the table, the
    difference [head - tail] taken in [size_t] lies between 0 and
    [n_elem]; with a descriptor below [RING_BUFFER_MAX], a put fails
    exactly when the difference is [n_elem] and a get fails exactly
    when it is 0, and a call that does not fail returns 0. *)
Theorem occupancy_bounded (st : state) (rbd : rbd_t) (data : list byte) :
  reachable st -> Z.of_N rbd < RING_BUFFER_MAX ->
  0 <= used (rb_at st (N.to_nat rbd)) <= n_elem (rb_at st (N.to_nat rbd)) /\
  ((ring_buffer_put rbd data st).1 = -1 <->
   used (rb_at st (N.to_nat rbd)) = n_elem (rb_at st (N.to_nat rbd))) /\
  ((ring_buffer_put rbd data st).1 = 0 <->
   used (rb_at st (N.to_nat rbd)) <> n_elem (rb_at st (N.to_nat rbd))) /\
  ((ring_buffer_get rbd st).1.1 = -1 <->
   used (rb_at st (N.to_nat rbd)) = 0) /\
  ((ring_buffer_get rbd st).1.1 = 0 <->
   used (rb_at st (N.to_nat rbd)) <> 0).
Proof.
  intros Hr Hmax. destruct (reachable_ok st Hr) as (_ & _ & Hok & _).
  destruct (Hok (N.to_nat rbd) ltac:(lia)) as (_ & _ & _ & Hu).
  split.
  { split; [apply to_size_t_range | done]. }
  destruct (put_cases rbd data st) as [(_ & Hp & ->)|([Hp|Hp] & ->)];
  destruct (get_cases rbd st) as [(_ & Hg & ->)|([Hg|Hg] & ->)];
    simpl; try lia; repeat split; intros; try done; try lia.
Qed.

(** ** Entries of count 0 *)

(** C10: [ring_buffer_init] accepts an element count of 0 and issues a
    descriptor for it; in every reachable state an entry below
    [RING_BUFFER_MAX] whose count is 0 is full and empty at once, and
    every put and get on it fails and changes nothing; the entries
    that were never registered are such entries. *)
Theorem zero_count_entries :
  (forall st r a,
     idx st < RING_BUFFER_MAX -> attr_buffer a <> NULL ->
     0 < attr_s_elem a -> attr_n_elem a = 0 ->
     ring_buffer_init (Some r) (Some a) st
     = (0, Some (Z.to_N (idx st)), registered a st)) /\
  (forall st rbd data,
     reachable st -> Z.of_N rbd < RING_BUFFER_MAX ->
     n_elem (rb_at st (N.to_nat rbd)) = 0 ->
     _ring_buffer_full (rb_at st (N.to_nat rbd)) = 1 /\
     _ring_buffer_empty (rb_at st (N.to_nat rbd)) = 1 /\
     ring_buffer_put rbd data st = (-1, st) /\
     ring_buffer_get rbd st = (-1, None, st)) /\
  (forall st rbd,
     reachable st -> idx st <= Z.of_N rbd < RING_BUFFER_MAX ->
     rb_at st (N.to_nat rbd) = rb_zero).
Proof.
  split; [|split].
  - intros st r a Hidx Hb Hs Hn.
    destruct (init_cases (Some r) (Some a) st)
      as [(_ & a' & [= <-] & E)|(Hno & _)]; [done|].
    exfalso. apply Hno. split; [done|]. split; [by eexists|].
    exists a. repeat split; try done. rewrite Hn. apply Z.land_0_r.
  - intros st rbd data Hr Hmax Hn.
    destruct (reachable_ok st Hr) as (_ & _ & Hok & _).
    destruct (Hok (N.to_nat rbd) ltac:(lia)) as (_ & _ & _ & Hu).
    assert (Hu0 : used (rb_at st (N.to_nat rbd)) = 0).
    { pose proof (to_size_t_range (head (rb_at st (N.to_nat rbd))
                                   - tail (rb_at st (N.to_nat rbd)))).
      unfold used in *. lia. }
    unfold _ring_buffer_full, _ring_buffer_empty.
    unfold used in Hu0. rewrite Hu0, Hn. simpl.
    split; [done|]. split; [done|].
    destruct (put_cases rbd data st) as [(_ & Hp & _)|(_ & ->)].
    { exfalso. apply Hp. unfold used. lia. }
    destruct (get_cases rbd st) as [(_ & Hg & _)|(_ & ->)]; [|done].
    exfalso. apply Hg. unfold used. lia.
  - intros st rbd Hr Hi.
    destruct (reachable_ok st Hr) as (_ & Hidx & _ & Hz).
    apply Hz. lia.
Qed.

(** ** [ring_buffer_init] exactly *)

(** X6: [ring_buffer_init] returns 0 exactly when the table has room, both
    pointers and the buffer pointer are non-null, the element size is
    positive and the count is 0 or a power of two. *)
Lemma init_succeeds_iff (rbd : option rbd_t) (attr : option rb_attr_t)
    (st : state) :
  from_option attr_typed True attr ->
  ((ring_buffer_init rbd attr st).1.1 = 0 <->
   idx st < RING_BUFFER_MAX /\ is_Some rbd /\
   exists a, attr = Some a /\ attr_buffer a <> NULL /\ 0 < attr_s_elem a /\
             (attr_n_elem a = 0 \/ is_pow2 (attr_n_elem a))).
Proof.
  intros Ht.
  destruct (init_cases rbd attr st)
    as [((Hi & Hr & a & Ea & Hb & Hs & Hn) & a' & _ & ->)|(Hno & ->)]; simpl.
  - split; [intros _|done]. split; [done|]. split; [done|].
    exists a. subst attr. simpl in Ht. destruct Ht as (_ & Hn' & _).
    repeat split; try done. by apply pow2_test.
  - split; [done|]. intros (Hi & Hr & a & Ea & Hb & Hs & Hn).
    exfalso. apply Hno. split; [done|]. split; [done|].
    exists a. subst attr. simpl in Ht. destruct Ht as (_ & Hn' & _).
    repeat split; try done. by apply pow2_test.
Qed.

(** X7: a call that does not return 0 returns -1 and changes neither the
    descriptor variable nor the table, the counter or the memory. *)
Lemma init_failure_frame (rbd : option rbd_t) (attr : option rb_attr_t)
    (st : state) :
  (ring_buffer_init rbd attr st).1.1 <> 0 ->
  ring_buffer_init rbd attr st = (-1, rbd, st).
Proof.
  intros H.
  destruct (init_cases rbd attr st) as [(_ & a & _ & E)|(_ & E)]; [|done].
  by rewrite E in H.
Qed.

(** X8: the counts 1, 2, 4, 8, 16 are accepted and 3, 5, 6, 7 refused. *)
Lemma init_counts (r : rbd_t) (a : rb_attr_t) (st : state) :
  attr_typed a -> idx st < RING_BUFFER_MAX -> attr_buffer a <> NULL ->
  0 < attr_s_elem a ->
  (attr_n_elem a ∈ [1; 2; 4; 8; 16] ->
   (ring_buffer_init (Some r) (Some a) st).1.1 = 0) /\
  (attr_n_elem a ∈ [3; 5; 6; 7] ->
   (ring_buffer_init (Some r) (Some a) st).1.1 = -1).
Proof.
  intros Ha Hi Hb Hs. split; intros Hn.
  - rewrite init_accepts_pow2; try done. right.
    repeat (apply elem_of_cons in Hn; destruct Hn as [->|Hn]);
      [by exists 0 | by exists 1 | by exists 2 | by exists 3 | by exists 4 |].
    by apply elem_of_nil in Hn.
  - destruct (init_cases (Some r) (Some a) st)
      as [((_ & _ & a' & [= <-] & _ & _ & Hl) & _)|(_ & ->)]; [|done].
    exfalso. destruct Ha as (_ & Hr & _).
    rewrite to_size_t_small in Hl.
    + repeat (apply elem_of_cons in Hn; destruct Hn as [E|Hn];
              [rewrite E in Hl; discriminate Hl|]).
      by apply elem_of_nil in Hn.
    + repeat (apply elem_of_cons in Hn; destruct Hn as [E|Hn]; [lia|]).
      by apply elem_of_nil in Hn.
Qed.

(** ** Any series of calls *)

(** X9: on a usable entry, whatever the series of puts and gets, the
    calls return what a bounded queue of [n_elem] elements returns. *)
Lemma run_refines_queue (rbd : rbd_t) (ops : list op) (st : state) :
  fifo_entry st rbd ->
  Forall (sized (s_elem (rb_at st (N.to_nat rbd)))) ops ->
  (run rbd ops st).1
  = queue_run (Z.to_nat (n_elem (rb_at st (N.to_nat rbd))))
      (queue st rbd) ops.
Proof.
  revert st. induction ops as [|o ops IH]; intros st He Hops; [done|].
  inversion Hops as [|o' ops' Ho Hops']; subst o' ops'.
  pose proof He as (_ & _ & (_ & _ & _ & Hu) & _).
  pose proof (used_queue st rbd) as Hq.
  destruct o as [d|].
  - rewrite run_put_cons. simpl queue_run. simpl in Ho.
    destruct (decide _) as [Hlt|Hge].
    + destruct (put_step rbd d st He) as (E & He1 & Hg & Hq1); [lia|done|].
      unfold geometry in Hg. injection Hg as Hg1 Hg2 _.
      rewrite E. simpl. f_equal. rewrite IH by (done || by rewrite Hg1).
      by rewrite Hg2, Hq1.
    + destruct (put_cases rbd d st) as [(_ & Hne & _)|(_ & ->)]; [lia|].
      simpl. f_equal. by apply IH.
  - rewrite run_get_cons. simpl queue_run.
    destruct (queue st rbd) as [|d q] eqn:Eq.
    + destruct (get_cases rbd st) as [(_ & Hne & _)|(_ & ->)];
        [simpl in Hq; lia|].
      simpl. f_equal. rewrite IH by done. by rewrite Eq.
    + destruct (get_step rbd st He) as (E & He1 & Hg & Hq1);
        [simpl in Hq; lia|].
      unfold geometry in Hg. injection Hg as Hg1 Hg2 _.
      rewrite E. simpl. rewrite Eq in Hq1. injection Hq1 as <- Hq1.
      f_equal. rewrite IH by (done || by rewrite Hg1).
      by rewrite Hg2, Hq1.
Qed.

(** ** One producer and one consumer, statement by statement *)

Lemma rb_at_incr_head (rbd : rbd_t) (st : state) :
  (N.to_nat rbd < length (_rb st))%nat ->
  rb_at (incr_head rbd st) (N.to_nat rbd)
  = with_head (rb_at st (N.to_nat rbd))
      (to_size_t (head (rb_at st (N.to_nat rbd)) + 1)).
Proof.
  intros Hlt. unfold incr_head. rewrite rb_at_insert.
  by destruct (decide _) as [|[]].
Qed.

(** The three statements of a put in a row are [ring_buffer_put]. *)
Lemma put_in_three_statements (rbd : rbd_t) (data : list byte) (st : state) :
  incr_head rbd (copy_in rbd data st) = put_state rbd data st.
Proof. reflexivity. Qed.

Lemma copy_in_inv (rbd : rbd_t) (s : Z) (q0 : list (list byte)) (c : config)
    (d : list byte) :
  spsc_inv rbd s q0 c -> ppc c = PCopying d ->
  spsc_inv rbd s q0
    {| shared := copy_in rbd d (shared c); ppc := PIncrementing d;
       cpc := cpc c; put_done := put_done c; got := got c |}.
Proof.
  intros (He & Hs & Hh & Hp & Hc) Epc. rewrite Epc in Hp.
  destruct Hp as (Hne & Hd). pose proof He as (Hmax & Hlen & Hok).
  assert (Hat : rb_at (copy_in rbd d (shared c)) (N.to_nat rbd)
                = rb_at (shared c) (N.to_nat rbd)) by reflexivity.
  assert (Htake : take (Z.to_nat (s_elem (rb_at (shared c) (N.to_nat rbd)))) d
                  = d) by (apply take_ge; lia).
  assert (Hmem : memory (copy_in rbd d (shared c))
                 = mem_write (memory (shared c))
                     (buf (rb_at (shared c) (N.to_nat rbd))
                      + offset_of (rb_at (shared c) (N.to_nat rbd))
                          (head (rb_at (shared c) (N.to_nat rbd)))) d).
  { unfold copy_in. simpl. by rewrite Htake. }
  split; [done|]. split; [done|].
  cbn [shared ppc cpc put_done got].
  split; [|split].
  - rewrite Hh. f_equal. unfold queue. rewrite Hat, Hmem.
    symmetry. apply contents_copy_in; (done || lia).
  - unfold producer_ok. rewrite Hat, Hmem.
    split; [done|]. split; [done|].
    apply mem_read_write_same. lia.
  - unfold consumer_ok in *. rewrite Hat.
    destruct (cpc c) as [| |out]; [done|done|].
    destruct Hc as (Hu & ->). split; [done|].
    unfold front. rewrite Hat, Hmem.
    pose proof (to_size_t_range (head (rb_at (shared c) (N.to_nat rbd))
                                 - tail (rb_at (shared c) (N.to_nat rbd))))
      as Hr.
    assert (Hj : 0 <= 0 < used (rb_at (shared c) (N.to_nat rbd)))
      by (unfold used in *; lia).
    assert (Hd' : Z.of_nat (length d)
                  = s_elem (rb_at (shared c) (N.to_nat rbd))) by lia.
    pose proof (element_untouched _ (memory (shared c)) d 0 Hok Hne Hd' Hj)
      as Hun.
    destruct Hok as ((_ & _ & Ht & _) & _).
    rewrite Z.add_0_r, to_size_t_small in Hun by done. by rewrite Hun.
Qed.

Lemma incr_head_inv (rbd : rbd_t) (s : Z) (q0 : list (list byte)) (c : config)
    (d : list byte) :
  spsc_inv rbd s q0 c -> ppc c = PIncrementing d ->
  spsc_inv rbd s q0
    {| shared := incr_head rbd (shared c); ppc := PIdle; cpc := cpc c;
       put_done := put_done c
                   ++ [take (Z.to_nat (s_elem (rb_at (shared c)
                                                 (N.to_nat rbd)))) d];
       got := got c |}.
Proof.
  intros (He & Hs & Hh & Hp & Hc) Epc. rewrite Epc in Hp.
  destruct Hp as (Hne & Hd & Hm). pose proof He as (Hmax & Hlen & Hok).
  pose proof (rb_at_incr_head rbd (shared c) Hlen) as Hat.
  assert (Htake : take (Z.to_nat (s_elem (rb_at (shared c) (N.to_nat rbd)))) d = d)
    by (apply take_ge; lia).
  split; [|split; [|split; [|split]]]; simpl.
  - split; [done|]. split; [simpl; by rewrite length_insert|].
    rewrite Hat. destruct Hok as (Hrb & Hp2 & Hs' & Hsz).
    split; [by apply rb_ok_put | done].
  - by rewrite Hat.
  - rewrite app_assoc, Hh, <- app_assoc. f_equal.
    unfold queue. rewrite Hat. simpl.
    rewrite contents_incr_head by done. by rewrite Hm, Htake.
  - done.
  - unfold consumer_ok in *. rewrite Hat.
    destruct Hok as (Hrb & _).
    destruct (cpc c) as [| |out]; [done| |].
    + rewrite used_put by done. pose proof (to_size_t_range (head (rb_at (shared c) (N.to_nat rbd))
                                   - tail (rb_at (shared c) (N.to_nat rbd)))).
      unfold used. lia.
    + destruct Hc as (Hu & ->). split.
      * rewrite used_put by done.
        pose proof (to_size_t_range (head (rb_at (shared c) (N.to_nat rbd))
                                   - tail (rb_at (shared c) (N.to_nat rbd)))). unfold used. lia.
      * unfold front. rewrite Hat. done.
Qed.

Lemma get_state_inv (rbd : rbd_t) (s : Z) (q0 : list (list byte)) (c : config)
    (out : list byte) :
  spsc_inv rbd s q0 c -> cpc c = CIncrementing out ->
  spsc_inv rbd s q0
    {| shared := get_state rbd (shared c); ppc := ppc c; cpc := CIdle;
       put_done := put_done c; got := got c ++ [out] |}.
Proof.
  intros (He & Hs & Hh & Hp & Hc) Epc. rewrite Epc in Hc.
  destruct Hc as (Hne & ->). pose proof He as (Hmax & Hlen & Hok).
  destruct (get_step rbd (shared c) He Hne) as (_ & He' & Hg & Hq).
  pose proof (rb_at_get_state rbd (shared c) Hlen) as Hat.
  unfold geometry in Hg. injection Hg as Hg1 Hg2 Hg3.
  split; [done|]. split; [simpl; by rewrite Hg1|]. simpl.
  split; [|split; [|done]].
  - rewrite Hh, Hq, <- app_assoc. done.
  - unfold producer_ok in *. rewrite Hat.
      destruct Hok as (Hrb & _). pose proof Hrb as (_ & _ & _ & Hu).
    destruct (ppc c) as [|d|d]; [done| |].
    + destruct Hp as (Hp & Hd). split; [|done].
      rewrite used_get by done. simpl. lia.
    + destruct Hp as (Hp & Hd & Hm). split; [|split; [done|]].
      * rewrite used_get by done. simpl. lia.
      * done.
Qed.

Lemma exec_inv (rbd : rbd_t) (s : Z) (q0 : list (list byte)) (l : label)
    (c c' : config) :
  spsc_inv rbd s q0 c -> exec rbd l c = Some c' ->
  match l with PTest d => Z.of_nat (length d) = s | _ => True end ->
  spsc_inv rbd s q0 c'.
Proof.
  intros Hinv Hex Hl. pose proof Hinv as (He & Hs & Hh & Hp & Hc).
  unfold exec in Hex.
  destruct l as [d| | | | |].
  - destruct (ppc c) eqn:Epc; try discriminate.
    destruct (Z.ltb_spec (Z.of_N rbd) RING_BUFFER_MAX) as [H1|H1]; simpl in Hex;
      [|by inversion Hex; subst].
    unfold _ring_buffer_full in Hex.
    destruct (Z.eqb_spec (to_size_t (head (rb_at (shared c) (N.to_nat rbd))
                                     - tail (rb_at (shared c) (N.to_nat rbd))))
                (n_elem (rb_at (shared c) (N.to_nat rbd)))) as [H2|H2];
      simpl in Hex; inversion Hex; subst; [done|].
    split; [done|]. split; [done|]. split; [done|]. split; [|done].
    simpl. split; done.
  - destruct (ppc c) eqn:Epc; try discriminate.
    inversion Hex; subst. by apply copy_in_inv.
  - destruct (ppc c) eqn:Epc; try discriminate.
    inversion Hex; subst. by apply incr_head_inv.
  - assert (Hex' : match cpc c with
                   | CIdle =>
                       if (Z.of_N rbd <? RING_BUFFER_MAX)
                          && (_ring_buffer_empty
                                (rb_at (shared c) (N.to_nat rbd)) =? 0)
                       then Some {| shared := shared c; ppc := ppc c;
                                    cpc := CCopying;
                                    put_done := put_done c; got := got c |}
                       else Some c
                   | _ => None
                   end = Some c')
      by (destruct (ppc c), (cpc c); exact Hex).
    clear Hex. destruct (cpc c) eqn:Epc; try discriminate.
    destruct (Z.ltb_spec (Z.of_N rbd) RING_BUFFER_MAX) as [H1|H1]; simpl in Hex';
      [|by inversion Hex'; subst].
    unfold _ring_buffer_empty in Hex'.
    destruct (Z.eqb_spec (to_size_t (head (rb_at (shared c) (N.to_nat rbd))
                                     - tail (rb_at (shared c) (N.to_nat rbd))))
                0) as [H2|H2];
      simpl in Hex'; inversion Hex'; subst; [done|].
    split; [done|]. split; [done|]. split; [done|]. split; [done|].
    simpl. done.
  - assert (Hex' : match cpc c with
                   | CCopying =>
                       Some {| shared := shared c; ppc := ppc c;
                               cpc := CIncrementing (front rbd (shared c));
                               put_done := put_done c; got := got c |}
                   | _ => None
                   end = Some c')
      by (destruct (ppc c), (cpc c); exact Hex).
    clear Hex. destruct (cpc c) eqn:Epc; try discriminate.
    inversion Hex'; subst.
    split; [done|]. split; [done|]. split; [done|]. split; [done|].
    simpl. split; done.
  - assert (Hex' : match cpc c with
                   | CIncrementing out =>
                       Some {| shared := get_state rbd (shared c);
                               ppc := ppc c; cpc := CIdle;
                               put_done := put_done c;
                               got := got c ++ [out] |}
                   | _ => None
                   end = Some c')
      by (destruct (ppc c), (cpc c); exact Hex).
    clear Hex. destruct (cpc c) eqn:Epc; try discriminate.
    inversion Hex'; subst. by apply get_state_inv.
Qed.

Lemma interleaved_inv (rbd : rbd_t) (st : state) (c : config) :
  fifo_entry st rbd ->
  interleaved rbd (s_elem (rb_at st (N.to_nat rbd))) (idle st) c ->
  spsc_inv rbd (s_elem (rb_at st (N.to_nat rbd))) (queue st rbd) c.
Proof.
  intros He. induction 1 as [|l c c' _ IH Hex Hl].
  - split; [done|]. split; [done|]. split; [by rewrite app_nil_r|]. done.
  - by eapply exec_inv.
Qed.

(** X10: one caller of put and one caller of get on the same usable
    entry, advancing statement by statement in any order: the elements
    stored at the start followed by those whose put has returned are
    the elements got followed by those still stored, so nothing is
    lost, duplicated or reordered; [head - tail] stays within
    [0, n_elem]; and what the consumer has copied out before its
    [tail++] is the oldest stored element, whose [memcpy] and [head++]
    are done. *)
Theorem spsc_interleaving (rbd : rbd_t) (st : state) (c : config) :
  fifo_entry st rbd ->
  interleaved rbd (s_elem (rb_at st (N.to_nat rbd))) (idle st) c ->
  queue st rbd ++ put_done c = got c ++ queue (shared c) rbd /\
  0 <= used (rb_at (shared c) (N.to_nat rbd))
    <= n_elem (rb_at (shared c) (N.to_nat rbd)) /\
  (forall out, cpc c = CIncrementing out ->
     exists rest, queue (shared c) rbd = out :: rest).
Proof.
  intros He Hi.
  destruct (interleaved_inv rbd st c He Hi) as (He' & _ & Hh & _ & Hc).
  split; [done|]. split.
  - destruct He' as (_ & _ & (_ & _ & _ & Hu) & _).
    split; [apply to_size_t_range | done].
  - intros out Epc. rewrite Epc in Hc. destruct Hc as (Hne & ->).
    destruct (get_step rbd (shared c) He' Hne) as (_ & _ & _ & Hq).
    by eexists.
Qed.

(** ** Mask and modulus *)

(** X15: for a power-of-two count the offset that [ring_buffer_put] and
    [ring_buffer_get] compute with the mask [n_elem - 1] is the offset
    computed with the modulus. *)
Lemma mask_is_modulus (rb : ring_buffer) (x : Z) :
  is_pow2 (n_elem rb) -> n_elem rb < 2 ^ size_bits ->
  offset_by_modulus rb x = Some (offset_of rb x).
Proof.
  intros (k & Hk & E) Hn.
  assert (0 < n_elem rb) by (rewrite E; apply Z.pow_pos_nonneg; lia).
  unfold offset_by_modulus, offset_of.
  destruct (Z.eqb_spec (n_elem rb) 0); [lia|].
  rewrite (to_size_t_small (n_elem rb - 1)) by lia.
  replace (n_elem rb - 1) with (Z.ones k) by (rewrite Z.ones_equiv, E; lia).
  rewrite Z.land_ones by done. by rewrite <- E.
Qed.

(** ** What the calls leave alone *)

Lemma geometry_with_head (rb : ring_buffer) (h : Z) :
  geometry (with_head rb h) = geometry rb.
Proof. done. Qed.

Lemma geometry_with_tail (rb : ring_buffer) (t : Z) :
  geometry (with_tail rb t) = geometry rb.
Proof. done. Qed.

Lemma validated_geometry (rb rb' : ring_buffer) :
  geometry rb' = geometry rb -> validated rb -> validated rb'.
Proof.
  unfold geometry, validated. intros [= -> -> ->]. done.
Qed.

Lemma put_frame (rbd : rbd_t) (data : list byte) (st : state) (i : nat) :
  idx (ring_buffer_put rbd data st).2 = idx st /\
  geometry (rb_at (ring_buffer_put rbd data st).2 i) = geometry (rb_at st i) /\
  tail (rb_at (ring_buffer_put rbd data st).2 i) = tail (rb_at st i) /\
  (i <> N.to_nat rbd ->
   rb_at (ring_buffer_put rbd data st).2 i = rb_at st i).
Proof.
  destruct (put_cases rbd data st) as [(_ & _ & ->)|(_ & ->)]; [|done].
  unfold put_state. simpl. rewrite rb_at_insert.
  destruct (decide _) as [[<- _]|Hn]; [done|].
  repeat split; try done.
Qed.

Lemma get_frame (rbd : rbd_t) (st : state) (i : nat) :
  idx (ring_buffer_get rbd st).2 = idx st /\
  memory (ring_buffer_get rbd st).2 = memory st /\
  geometry (rb_at (ring_buffer_get rbd st).2 i) = geometry (rb_at st i) /\
  head (rb_at (ring_buffer_get rbd st).2 i) = head (rb_at st i) /\
  (i <> N.to_nat rbd ->
   rb_at (ring_buffer_get rbd st).2 i = rb_at st i).
Proof.
  destruct (get_cases rbd st) as [(_ & _ & ->)|(_ & ->)]; [|done].
  unfold get_state. simpl. rewrite rb_at_insert.
  destruct (decide _) as [[<- _]|Hn]; [done|].
  repeat split; try done.
Qed.

Lemma init_frame (rbd : option rbd_t) (attr : option rb_attr_t) (st : state)
    (i : nat) :
  memory (ring_buffer_init rbd attr st).2 = memory st /\
  (i <> Z.to_nat (idx st) ->
   rb_at (ring_buffer_init rbd attr st).2 i = rb_at st i).
Proof.
  destruct (init_cases rbd attr st) as [(_ & a & _ & ->)|(_ & ->)]; [|done].
  unfold registered. simpl. rewrite rb_at_insert.
  destruct (decide _) as [[<- _]|Hn]; done.
Qed.

(** X16: [ring_buffer_init] never writes the memory nor an entry other
    than [_rb[idx]]; [ring_buffer_put] changes only [head] of its own
    entry and never [idx]; [ring_buffer_get] changes only [tail] of its
    own entry and never [idx] or the memory. *)
Lemma calls_frame (st : state) (i : nat) :
  (forall rbd attr,
     memory (ring_buffer_init rbd attr st).2 = memory st /\
     (i <> Z.to_nat (idx st) ->
      rb_at (ring_buffer_init rbd attr st).2 i = rb_at st i)) /\
  (forall rbd data,
     idx (ring_buffer_put rbd data st).2 = idx st /\
     geometry (rb_at (ring_buffer_put rbd data st).2 i)
     = geometry (rb_at st i) /\
     tail (rb_at (ring_buffer_put rbd data st).2 i) = tail (rb_at st i) /\
     (i <> N.to_nat rbd ->
      rb_at (ring_buffer_put rbd data st).2 i = rb_at st i)) /\
  (forall rbd,
     idx (ring_buffer_get rbd st).2 = idx st /\
     memory (ring_buffer_get rbd st).2 = memory st /\
     geometry (rb_at (ring_buffer_get rbd st).2 i) = geometry (rb_at st i) /\
     head (rb_at (ring_buffer_get rbd st).2 i) = head (rb_at st i) /\
     (i <> N.to_nat rbd ->
      rb_at (ring_buffer_get rbd st).2 i = rb_at st i)).
Proof.
  split; [|split].
  - intros rbd attr. apply init_frame.
  - intros rbd data. apply put_frame.
  - intros rbd. apply get_frame.
Qed.

(** ** The entries that descriptors name *)

(** X17: in every reachable state, each entry below [idx] still has
    what [ring_buffer_init] checked: a positive element size, a
    non-null buffer and a count that is 0 or a power of two. *)
Lemma registered_entries_validated (st : state) (i : nat) :
  reachable st -> (i < Z.to_nat (idx st))%nat -> validated (rb_at st i).
Proof.
  intros Hr. revert i.
  induction Hr as [m|rbd attr st Hr IH Ha|rbd data st Hr IH|rbd st Hr IH
                  |m st Hr IH]; intros i Hi.
  - simpl in Hi. lia.
  - pose proof (reachable_ok st Hr) as (Hlen & Hidx & _ & _).
    destruct (init_cases rbd attr st)
      as [((Hlt & _ & a' & E' & Hb & Hs & Hp) & a & -> & E)|(_ & E)];
      rewrite E in *; simpl in *; [|by apply IH].
    inversion E'; subst a'.
    unfold registered. rewrite rb_at_insert.
    destruct (decide _) as [_|Hn].
    + split; [done|]. split; [done|]. simpl.
      apply pow2_test; [apply Ha | done].
    + apply IH. lia.
  - destruct (put_frame rbd data st i) as (Ei & Eg & _).
    rewrite Ei in Hi. eapply validated_geometry; [exact Eg | by apply IH].
  - destruct (get_frame rbd st i) as (Ei & _ & Eg & _).
    rewrite Ei in Hi. eapply validated_geometry; [exact Eg | by apply IH].
  - by apply IH.
Qed.

(** ** Two ring buffers *)

Lemma offset_of_bounds (rb : ring_buffer) (x : Z) :
  fifo_ok rb ->
  0 <= offset_of rb x /\ offset_of rb x + s_elem rb <= s_elem rb * n_elem rb.
Proof.
  intros Hok. rewrite offset_of_eq by done.
  pose proof (fifo_ok_bounds rb Hok) as Hn.
  destruct Hok as (_ & _ & Hs & _).
  pose proof (Z.mod_pos_bound x (n_elem rb) ltac:(lia)). nia.
Qed.

Lemma contents_apart (rb1 rb2 : ring_buffer) (m : mem) (data : list byte)
    (x : Z) :
  fifo_ok rb1 -> fifo_ok rb2 -> apart rb1 rb2 ->
  contents rb2
    (mem_write m (buf rb1 + offset_of rb1 x)
       (take (Z.to_nat (s_elem rb1)) data))
  = contents rb2 m.
Proof.
  intros H1 H2 Ha. unfold contents.
  apply list_fmap_ext. intros k j Hj.
  apply lookup_seqZ in Hj. destruct Hj as [-> Hk].
  apply mem_read_write_disjoint.
  pose proof (offset_of_bounds rb1 x H1).
  pose proof (offset_of_bounds rb2
                (to_size_t (tail rb2 + (0 + Z.of_nat k))) H2).
  assert (Z.of_nat (length (take (Z.to_nat (s_elem rb1)) data)) <= s_elem rb1)
    by (rewrite length_take; destruct H1 as (_ & _ & ? & _); lia).
  destruct Ha; lia.
Qed.

(** X18: a put or a get on one ring buffer leaves the elements stored
    in another one as they are, when the buffers of the two do not
    overlap. *)
Lemma queues_isolated (st : state) (r1 r2 : rbd_t) (data : list byte) :
  fifo_entry st r1 -> fifo_entry st r2 -> r1 <> r2 ->
  apart (rb_at st (N.to_nat r1)) (rb_at st (N.to_nat r2)) ->
  queue (ring_buffer_put r1 data st).2 r2 = queue st r2 /\
  queue (ring_buffer_get r1 st).2 r2 = queue st r2.
Proof.
  intros (_ & _ & H1) (_ & _ & H2) Hne Ha.
  assert (Hn : N.to_nat r2 <> N.to_nat r1) by lia.
  split.
  - unfold queue.
    destruct (put_frame r1 data st (N.to_nat r2)) as (_ & _ & _ & E).
    rewrite E by done.
    destruct (put_cases r1 data st) as [(_ & _ & ->)|(_ & ->)]; [|done].
    simpl. by apply contents_apart.
  - unfold queue.
    destruct (get_frame r1 st (N.to_nat r2)) as (_ & -> & _ & _ & E).
    by rewrite E.
Qed.

(** ** Descriptors in sequence *)

Lemma init_all_cons (r : rbd_t) (a : rb_attr_t) (attrs : list rb_attr_t)
    (st : state) :
  init_all r (a :: attrs) st
  = (((ring_buffer_init (Some r) (Some a) st).1.1,
      (ring_buffer_init (Some r) (Some a) st).1.2)
       :: (init_all r attrs (ring_buffer_init (Some r) (Some a) st).2).1,
     (init_all r attrs (ring_buffer_init (Some r) (Some a) st).2).2).
Proof.
  cbn [init_all].
  destruct (ring_buffer_init (Some r) (Some a) st) as [[err rbd] st1].
  cbn [fst snd]. by destruct (init_all r attrs st1).
Qed.

(** X19: calls of [ring_buffer_init] with attributes that pass its
    checks hand out the descriptors [idx], [idx + 1], ... in this
    order as long as they are below [RING_BUFFER_MAX]; every later call
    returns -1 and leaves the descriptor variable as it was. *)
Lemma descriptors_in_sequence (r : rbd_t) (attrs : list rb_attr_t)
    (st : state) (k : nat) (a : rb_attr_t) :
  Forall acceptable attrs -> attrs !! k = Some a ->
  (init_all r attrs st).1 !! k
  = Some (if decide (idx st + Z.of_nat k < RING_BUFFER_MAX)
          then (0, Some (Z.to_N (idx st + Z.of_nat k)))
          else (-1, Some r)).
Proof.
  revert st k. induction attrs as [|a0 attrs IH]; intros st k Hall Hk;
    [done|].
  inversion Hall as [|? ? (Ht & Hb & Hs & Hp) Hall']; subst.
  rewrite init_all_cons. cbn [fst].
  destruct (Z.lt_ge_cases (idx st) RING_BUFFER_MAX) as [Hlt|Hge].
  - rewrite (init_accepts_pow2 r a0 st) by done.
    destruct k as [|k]; simpl.
    + rewrite Z.add_0_r. by destruct (decide _).
    + rewrite (IH _ k) by done. simpl.
      by replace (idx st + Z.of_nat (S k)) with (idx st + 1 + Z.of_nat k)
        by lia.
  - destruct (init_cases (Some r) (Some a0) st)
      as [((Hlt & _) & _)|(_ & E)]; [lia|].
    rewrite E. destruct k as [|k]; simpl.
    + destruct (decide _); [lia|done].
    + rewrite (IH _ k) by done.
      destruct (decide _), (decide _); (done || lia).
Qed.

(** ** Full and empty *)

Lemma to_size_t_cases (z : Z) :
  - 2 ^ size_bits < z < 2 * 2 ^ size_bits ->
  to_size_t z
  = if z <? 0 then z + 2 ^ size_bits
    else if z <? 2 ^ size_bits then z else z - 2 ^ size_bits.
Proof.
  intros Hz. unfold to_size_t, wrap.
  destruct (Z.ltb_spec z 0).
  - transitivity ((z + 1 * 2 ^ size_bits) mod 2 ^ size_bits);
      [symmetry; apply Z_mod_plus_full|].
    rewrite Z.mod_small by lia. lia.
  - destruct (Z.ltb_spec z (2 ^ size_bits)).
    + apply Z.mod_small. lia.
    + transitivity ((z + -1 * 2 ^ size_bits) mod 2 ^ size_bits);
        [symmetry; apply Z_mod_plus_full|].
      rewrite Z.mod_small by lia. lia.
Qed.

(** X26: for an entry whose fields are values of [size_t],
    [_ring_buffer_empty] returns 1 exactly when [head] equals [tail]
    and [_ring_buffer_full] returns 1 exactly when [head] is
    [tail + n_elem] in [size_t]; with [n_elem > 0] they never return 1
    both. *)
Lemma full_empty_counters (rb : ring_buffer) :
  rb_ok rb ->
  (_ring_buffer_empty rb = 1 <-> head rb = tail rb) /\
  (_ring_buffer_full rb = 1
   <-> head rb = to_size_t (tail rb + n_elem rb)) /\
  (0 < n_elem rb ->
   ~ (_ring_buffer_empty rb = 1 /\ _ring_buffer_full rb = 1)).
Proof.
  intros (Hn & Hh & Ht & Hu). unfold used in Hu.
  unfold _ring_buffer_empty, _ring_buffer_full.
  pose proof (to_size_t_cases (head rb - tail rb) ltac:(lia)) as E1.
  pose proof (to_size_t_cases (tail rb + n_elem rb) ltac:(lia)) as E2.
  destruct (Z.eqb_spec (to_size_t (head rb - tail rb)) 0) as [E0|E0];
    destruct (Z.eqb_spec (to_size_t (head rb - tail rb)) (n_elem rb))
      as [En|En];
    rewrite E1 in *; rewrite E2;
    destruct (Z.ltb_spec (head rb - tail rb) 0);
    destruct (Z.ltb_spec (head rb - tail rb) (2 ^ size_bits));
    destruct (Z.ltb_spec (tail rb + n_elem rb) 0);
    destruct (Z.ltb_spec (tail rb + n_elem rb) (2 ^ size_bits));
    repeat split; intros; try lia.
Qed.

End WithParams.

(** ** A table of two ring buffers on a 16-bit target *)

Definition rb16 : Params := {| size_bits := 16; RING_BUFFER_MAX := 2 |}.

(** A memory of zero bytes. *)
Definition zeroed : mem := fun _ => x00.

(** C5: the test for a power of two lets the count 0 through. The call
    returns 0, issues descriptor 0 and registers an entry of count 0,
    on which no put or get can succeed. *)
Example init_accepts_count_zero :
  let P := rb16 in
  (ring_buffer_init (Some 7%N) (Some (mkAttr 1 0 512)) (start zeroed)).1
  = (0, Some 0%N) /\
  n_elem (rb_at (ring_buffer_init (Some 7%N) (Some (mkAttr 1 0 512))
                   (start zeroed)).2 0) = 0 /\
  idx (ring_buffer_init (Some 7%N) (Some (mkAttr 1 0 512)) (start zeroed)).2
  = 1.
Proof. intros P. repeat split; vm_compute; reflexivity. Qed.

(** *** The statements above at this table *)

Lemma fifo_order_witness :
  let P := rb16 in
  params_ok /\
  (exists rbd st,
     ring_buffer_init (Some 7%N) (Some (mkAttr 2 2 512)) (start zeroed)
     = (0, Some rbd, st) /\
     (run rbd ((Put <$> [["a"%byte; "b"%byte]; ["c"%byte; "d"%byte]])
               ++ [Put ["e"%byte]]
               ++ replicate
                    (length [["a"%byte; "b"%byte]; ["c"%byte; "d"%byte]]) Get
               ++ [Get; Put ["f"%byte]]) st).1
     = ((fun _ => PutR 0) <$> [["a"%byte; "b"%byte]; ["c"%byte; "d"%byte]])
       ++ [PutR (-1)]
       ++ ((fun d => GetR 0 (Some d))
           <$> [["a"%byte; "b"%byte]; ["c"%byte; "d"%byte]])
       ++ [GetR (-1) None; PutR 0]) /\
  (exists rbd st,
     ring_buffer_init (Some 7%N) (Some (mkAttr 1 4 512)) (start zeroed)
     = (0, Some rbd, st) /\
     (run rbd [Put ["a"%byte]; Put ["b"%byte]; Put ["c"%byte];
               Put ["d"%byte]; Put ["e"%byte];
               Get; Get; Get; Get; Get; Put ["f"%byte]] st).1
     = [PutR 0; PutR 0; PutR 0; PutR 0; PutR (-1);
        GetR 0 (Some ["a"%byte]); GetR 0 (Some ["b"%byte]);
        GetR 0 (Some ["c"%byte]); GetR 0 (Some ["d"%byte]);
        GetR (-1) None; PutR 0]).
Proof.
  intros P.
  assert (H : @params_ok rb16) by (split; vm_compute; reflexivity).
  split; [exact H|].
  destruct (@fifo_order rb16 H) as (H1 & H2).
  split.
  - apply H1.
    + apply reach_start.
    + repeat split; vm_compute; (reflexivity || discriminate).
    + vm_compute. reflexivity.
    + vm_compute. discriminate.
    + vm_compute. reflexivity.
    + exists 1. split; [lia | reflexivity].
    + vm_compute. reflexivity.
    + reflexivity.
    + repeat constructor.
  - apply H2.
    + apply reach_start.
    + vm_compute. reflexivity.
    + lia.
    + vm_compute. reflexivity.
Defined.

Lemma occupancy_bounded_witness :
  let P := rb16 in
  let s0 := (ring_buffer_init (Some 7%N) (Some (mkAttr 1 4 512))
               (start zeroed)).2 in
  let s1 := (ring_buffer_put 0%N ["a"%byte] s0).2 in
  let s2 := (ring_buffer_put 0%N ["b"%byte] s1).2 in
  let s3 := (ring_buffer_put 0%N ["c"%byte] s2).2 in
  let s4 := (ring_buffer_put 0%N ["d"%byte] s3).2 in
  params_ok /\
  (0 <= used (rb_at s4 (N.to_nat 0%N)) <= n_elem (rb_at s4 (N.to_nat 0%N)) /\
   ((ring_buffer_put 0%N ["e"%byte] s4).1 = -1 <->
    used (rb_at s4 (N.to_nat 0%N)) = n_elem (rb_at s4 (N.to_nat 0%N))) /\
   ((ring_buffer_put 0%N ["e"%byte] s4).1 = 0 <->
    used (rb_at s4 (N.to_nat 0%N)) <> n_elem (rb_at s4 (N.to_nat 0%N))) /\
   ((ring_buffer_get 0%N s4).1.1 = -1 <->
    used (rb_at s4 (N.to_nat 0%N)) = 0) /\
   ((ring_buffer_get 0%N s4).1.1 = 0 <->
    used (rb_at s4 (N.to_nat 0%N)) <> 0)) /\
  (0 <= used (rb_at s2 (N.to_nat 0%N)) <= n_elem (rb_at s2 (N.to_nat 0%N)) /\
   ((ring_buffer_put 0%N ["c"%byte] s2).1 = -1 <->
    used (rb_at s2 (N.to_nat 0%N)) = n_elem (rb_at s2 (N.to_nat 0%N))) /\
   ((ring_buffer_put 0%N ["c"%byte] s2).1 = 0 <->
    used (rb_at s2 (N.to_nat 0%N)) <> n_elem (rb_at s2 (N.to_nat 0%N))) /\
   ((ring_buffer_get 0%N s2).1.1 = -1 <->
    used (rb_at s2 (N.to_nat 0%N)) = 0) /\
   ((ring_buffer_get 0%N s2).1.1 = 0 <->
    used (rb_at s2 (N.to_nat 0%N)) <> 0)).
Proof.
  intros P s0 s1 s2 s3 s4.
  assert (H : @params_ok rb16) by (split; vm_compute; reflexivity).
  assert (R0 : @reachable rb16 s0).
  { apply reach_init; [apply reach_start|].
    repeat split; vm_compute; (reflexivity || discriminate). }
  assert (R2 : @reachable rb16 s2) by (do 2 apply reach_put; exact R0).
  assert (R4 : @reachable rb16 s4) by (do 2 apply reach_put; exact R2).
  split; [exact H|]. split.
  - apply (@occupancy_bounded rb16 H s4 0%N ["e"%byte] R4).
    vm_compute. reflexivity.
  - apply (@occupancy_bounded rb16 H s2 0%N ["c"%byte] R2).
    vm_compute. reflexivity.
Defined.

Lemma zero_count_entries_witness :
  let P := rb16 in
  params_ok /\
  ring_buffer_init (Some 7%N) (Some (mkAttr 1 0 512)) (start zeroed)
  = (0, Some (Z.to_N (idx (start zeroed))),
     registered (mkAttr 1 0 512) (start zeroed)) /\
  (_ring_buffer_full (rb_at (start zeroed) (N.to_nat 0%N)) = 1 /\
   _ring_buffer_empty (rb_at (start zeroed) (N.to_nat 0%N)) = 1 /\
   ring_buffer_put 0%N [x00] (start zeroed) = (-1, start zeroed) /\
   ring_buffer_get 0%N (start zeroed) = (-1, None, start zeroed)) /\
  rb_at (start zeroed) (N.to_nat 1%N) = rb_zero.
Proof.
  intros P.
  assert (H : @params_ok rb16) by (split; vm_compute; reflexivity).
  split; [exact H|].
  destruct (@zero_count_entries rb16 H) as (H1 & H2 & H3).
  split; [|split].
  - apply H1.
    + vm_compute. reflexivity.
    + vm_compute. discriminate.
    + vm_compute. reflexivity.
    + reflexivity.
  - apply H2.
    + apply reach_start.
    + vm_compute. reflexivity.
    + reflexivity.
  - apply H3.
    + apply reach_start.
    + vm_compute. split; (reflexivity || discriminate).
Defined.

Lemma init_succeeds_iff_witness :
  let P := rb16 in
  (ring_buffer_init (Some 7%N) (Some (mkAttr 1 4 512)) (start zeroed)).1.1 = 0
  <-> idx (start zeroed) < RING_BUFFER_MAX /\ is_Some (Some 7%N) /\
      exists a, Some (mkAttr 1 4 512) = Some a /\ attr_buffer a <> NULL /\
                0 < attr_s_elem a /\
                (attr_n_elem a = 0 \/ is_pow2 (attr_n_elem a)).
Proof.
  intros P.
  assert (Ht : @attr_typed rb16 (mkAttr 1 4 512))
    by (repeat split; vm_compute; (reflexivity || discriminate)).
  exact (@init_succeeds_iff rb16 (Some 7%N) (Some (mkAttr 1 4 512))
           (start zeroed) Ht).
Defined.

Lemma init_failure_frame_witness :
  let P := rb16 in
  ring_buffer_init None None (start zeroed) = (-1, None, start zeroed).
Proof.
  intros P. apply (@init_failure_frame rb16). vm_compute. discriminate.
Defined.

Lemma init_counts_witness :
  let P := rb16 in
  (attr_n_elem (mkAttr 1 8 512) ∈ [1; 2; 4; 8; 16] ->
   (ring_buffer_init (Some 7%N) (Some (mkAttr 1 8 512)) (start zeroed)).1.1
   = 0) /\
  (attr_n_elem (mkAttr 1 8 512) ∈ [3; 5; 6; 7] ->
   (ring_buffer_init (Some 7%N) (Some (mkAttr 1 8 512)) (start zeroed)).1.1
   = -1).
Proof.
  intros P.
  assert (Ht : @attr_typed rb16 (mkAttr 1 8 512))
    by (repeat split; vm_compute; (reflexivity || discriminate)).
  assert (Hi : @idx (@start rb16 zeroed) < @RING_BUFFER_MAX rb16)
    by (vm_compute; reflexivity).
  assert (Hb : attr_buffer (mkAttr 1 8 512) <> NULL)
    by (vm_compute; discriminate).
  assert (Hs : 0 < attr_s_elem (mkAttr 1 8 512)) by (vm_compute; reflexivity).
  exact (@init_counts rb16 7%N (mkAttr 1 8 512) (start zeroed) Ht Hi Hb Hs).
Defined.

Lemma run_refines_queue_witness :
  let P := rb16 in
  (run 0%N [Put ["a"%byte]; Get; Get]
     (registered (mkAttr 1 2 512) (start zeroed))).1
  = queue_run
      (Z.to_nat (n_elem (rb_at (registered (mkAttr 1 2 512) (start zeroed))
                           (N.to_nat 0%N))))
      (queue (registered (mkAttr 1 2 512) (start zeroed)) 0%N)
      [Put ["a"%byte]; Get; Get].
Proof.
  intros P. apply (@run_refines_queue rb16).
  - split; vm_compute; reflexivity.
  - split; [vm_compute; reflexivity|]. split; [vm_compute; lia|].
    split; [|split; [by exists 1|split; vm_compute; reflexivity]].
    repeat split; vm_compute; (reflexivity || discriminate).
  - repeat constructor.
Defined.

Lemma spsc_interleaving_witness :
  let P := rb16 in
  let st := registered (mkAttr 1 2 512) (start zeroed) in
  let c := {| shared := incr_head 0%N (copy_in 0%N ["a"%byte] st);
              ppc := PIdle;
              cpc := CIncrementing ["a"%byte];
              put_done := [["a"%byte]];
              got := [] |} in
  queue st 0%N ++ put_done c = got c ++ queue (shared c) 0%N /\
  0 <= used (rb_at (shared c) (N.to_nat 0%N))
    <= n_elem (rb_at (shared c) (N.to_nat 0%N)) /\
  (forall out, cpc c = CIncrementing out ->
     exists rest, queue (shared c) 0%N = out :: rest).
Proof.
  intros P st c.
  assert (H : @params_ok rb16) by (split; vm_compute; reflexivity).
  apply (@spsc_interleaving rb16 H 0%N st c).
  - split; [vm_compute; reflexivity|]. split; [vm_compute; lia|].
    split; [|split; [by exists 1|split; vm_compute; reflexivity]].
    repeat split; vm_compute; (reflexivity || discriminate).
  - apply (inter_step _ _ _ CCopy
             {| shared := incr_head 0%N (copy_in 0%N ["a"%byte] st);
                ppc := PIdle; cpc := CCopying;
                put_done := [["a"%byte]]; got := [] |});
      [|vm_compute; reflexivity|exact I].
    apply (inter_step _ _ _ CTest
             {| shared := incr_head 0%N (copy_in 0%N ["a"%byte] st);
                ppc := PIdle; cpc := CIdle;
                put_done := [["a"%byte]]; got := [] |});
      [|vm_compute; reflexivity|exact I].
    apply (inter_step _ _ _ PIncr
             {| shared := copy_in 0%N ["a"%byte] st;
                ppc := PIncrementing ["a"%byte]; cpc := CIdle;
                put_done := []; got := [] |});
      [|vm_compute; reflexivity|exact I].
    apply (inter_step _ _ _ PCopy
             {| shared := st; ppc := PCopying ["a"%byte]; cpc := CIdle;
                put_done := []; got := [] |});
      [|vm_compute; reflexivity|exact I].
    apply (inter_step _ _ _ (PTest ["a"%byte]) (idle st));
      [apply inter_start|vm_compute; reflexivity|vm_compute; reflexivity].
Defined.

Lemma mask_is_modulus_witness :
  let P := rb16 in
  offset_by_modulus (mkRb 2 4 512 0 0) 65535
  = Some (offset_of (mkRb 2 4 512 0 0) 65535).
Proof.
  intros P. apply (@mask_is_modulus rb16).
  - exists 2. split; [lia | reflexivity].
  - vm_compute. reflexivity.
Defined.

Lemma registered_entries_validated_witness :
  let P := rb16 in
  validated
    (rb_at (ring_buffer_init (Some 7%N) (Some (mkAttr 1 8 512))
              (start zeroed)).2 0).
Proof.
  intros P.
  assert (H : @params_ok rb16) by (split; vm_compute; reflexivity).
  apply (@registered_entries_validated rb16 H).
  - apply reach_init; [apply reach_start|].
    repeat split; vm_compute; (reflexivity || discriminate).
  - vm_compute. lia.
Defined.

Lemma queues_isolated_witness :
  let P := rb16 in
  let st := registered (mkAttr 1 2 600)
              (registered (mkAttr 1 2 512) (start zeroed)) in
  queue (ring_buffer_put 0%N ["a"%byte] st).2 1%N = queue st 1%N /\
  queue (ring_buffer_get 0%N st).2 1%N = queue st 1%N.
Proof.
  intros P st. apply (@queues_isolated rb16).
  - split; [vm_compute; reflexivity|]. split; [vm_compute; lia|].
    split; [|split; [by exists 1|split; vm_compute; reflexivity]].
    repeat split; vm_compute; (reflexivity || discriminate).
  - split; [vm_compute; reflexivity|]. split; [vm_compute; lia|].
    split; [|split; [by exists 1|split; vm_compute; reflexivity]].
    repeat split; vm_compute; (reflexivity || discriminate).
  - discriminate.
  - left. vm_compute. discriminate.
Defined.

Lemma descriptors_in_sequence_witness :
  let P := rb16 in
  (init_all 7%N [mkAttr 1 8 512; mkAttr 2 4 600; mkAttr 1 2 700]
     (start zeroed)).1 !! 2%nat
  = Some (if decide (idx (start zeroed) + Z.of_nat 2 < RING_BUFFER_MAX)
          then (0, Some (Z.to_N (idx (start zeroed) + Z.of_nat 2)))
          else (-1, Some 7%N)).
Proof.
  intros P.
  apply (@descriptors_in_sequence rb16 7%N
           [mkAttr 1 8 512; mkAttr 2 4 600; mkAttr 1 2 700] (start zeroed)
           2%nat (mkAttr 1 2 700)).
  - assert (Ha : forall s k b, 0 < s < 2 ^ 16 -> 0 <= k < 16 -> 0 < b ->
                   @acceptable rb16 (mkAttr s (2 ^ k) b)).
    { intros s k b Hs Hk Hb. unfold acceptable, attr_typed. simpl.
      assert (0 < 2 ^ k) by (apply Z.pow_pos_nonneg; lia).
      assert (2 ^ k < 2 ^ 16) by (apply Z.pow_lt_mono_r; lia).
      unfold NULL. repeat split; try lia. right. exists k. split; [lia|done]. }
    apply List.Forall_cons; [apply (Ha 1 3 512); lia|].
    apply List.Forall_cons; [apply (Ha 2 2 600); lia|].
    apply List.Forall_cons; [apply (Ha 1 1 700); lia|].
    apply List.Forall_nil.
  - reflexivity.
Defined.

Lemma full_empty_counters_witness :
  let P := rb16 in
  let rb := mkRb 1 4 512 3 65535 in
  (_ring_buffer_empty rb = 1 <-> head rb = tail rb) /\
  (_ring_buffer_full rb = 1
   <-> head rb = to_size_t (tail rb + n_elem rb)) /\
  (0 < n_elem rb ->
   ~ (_ring_buffer_empty rb = 1 /\ _ring_buffer_full rb = 1)).
Proof.
  intros P rb. apply (@full_empty_counters rb16 rb).
  repeat split; vm_compute; (reflexivity || discriminate).
Defined.

End RingBufferProofs.

(** * Properties of the UART driver *)

Module UartProofs.
Import CInt RingBuffer Uart RingBufferProofs.

(** ** Bits of the registers *)

Lemma land_lor_same (f m : Z) : Z.land (Z.lor f m) m = m.
Proof.
  apply Z.bits_inj'. intros n Hn.
  rewrite Z.land_spec, Z.lor_spec.
  destruct (Z.testbit f n), (Z.testbit m n); done.
Qed.

Lemma uint8_testbit (z n : Z) :
  0 <= n -> Z.testbit (to_uint8 z) n = (n <? 8) && Z.testbit z n.
Proof.
  intros Hn. unfold to_uint8, wrap. destruct (Z.ltb_spec n 8).
  - by rewrite Z.mod_pow2_bits_low.
  - by rewrite Z.mod_pow2_bits_high by lia.
Qed.

(** [reg &= ~m] leaves no bit of [m] set. *)
Lemma land_cleared (f m : Z) : Z.land (to_uint8 (Z.land f (Z.lnot m))) m = 0.
Proof.
  apply Z.bits_inj'. intros n Hn.
  rewrite Z.land_spec, uint8_testbit, Z.land_spec, Z.lnot_spec, Z.bits_0
    by done.
  destruct (n <? 8), (Z.testbit f n), (Z.testbit m n); done.
Qed.

(** [reg |= m] sets every bit of an 8-bit mask [m]. *)
Lemma land_set (f m : Z) :
  0 <= m < 256 -> Z.land (to_uint8 (Z.lor f m)) m = m.
Proof.
  intros Hm. apply Z.bits_inj'. intros n Hn.
  rewrite Z.land_spec, uint8_testbit, Z.lor_spec by done.
  destruct (Z.ltb_spec n 8).
  - destruct (Z.testbit f n), (Z.testbit m n); done.
  - simpl. symmetry. rewrite <- (Z.mod_small m (2 ^ 8)) by lia.
    apply Z.mod_pow2_bits_high. lia.
Qed.

Section WithParams.

Context {P : Params}.
Hypothesis HP : @RingBuffer.params_ok rb_params.

(** ** [uart_init] *)

Lemma attr_acceptable :
  0 < _rbmem -> 8 < 2 ^ size_bits ->
  attr_typed attr /\ attr_buffer attr <> NULL /\ 0 < attr_s_elem attr /\
  is_pow2 (attr_n_elem attr) /\
  attr_s_elem attr * attr_n_elem attr < 2 ^ size_bits.
Proof.
  intros Hm Hsz. unfold attr_typed, attr, NULL. simpl.
  repeat split; try lia. exists 3. split; [lia|done].
Qed.

(** X20: the block of [uart_init] writes row [i] of the baud table to
    the baud registers and, whenever the table of ring buffers has a
    free entry, registers [_rbmem] as a ring buffer of 8 one-byte
    elements in that entry: [status] becomes 0, [_rbd] is the new
    descriptor, no character is pending, the memory and the other
    entries are as before, the peripheral is out of reset and the
    receive interrupt is enabled.  When the table is full, [status],
    [_rbd], [UCA0CTL1], [IE2] and the ring buffers stay as they
    were. *)
Lemma uart_init_registers (i : nat) (e : baud) (status : Z) (u : uart) :
  reachable (rbs u) -> _baud_tbl !! i = Some e ->
  0 < _rbmem -> 8 < 2 ^ size_bits -> 0 <= UCA0RXIE < 256 ->
  (idx (rbs u) < RING_BUFFER_MAX ->
   exists u', uart_init_block i status u = (0, u') /\
     _rbd u' = Z.to_N (idx (rbs u)) /\ idx (rbs u') = idx (rbs u) + 1 /\
     uart_ready u' /\
     buf (rb_at (rbs u') (N.to_nat (_rbd u'))) = _rbmem /\
     pending u' = [] /\
     memory (rbs u') = memory (rbs u) /\
     (forall j, j <> Z.to_nat (idx (rbs u)) ->
        rb_at (rbs u') j = rb_at (rbs u) j) /\
     Z.land (UCA0CTL1 u') UCSWRST = 0 /\
     Z.land (IE2 u') UCA0RXIE = UCA0RXIE /\
     (UCA0BR0 u', UCA0BR1 u', UCA0MCTL u')
     = (to_uint8 (UCAxBR0 e), to_uint8 (UCAxBR1 e), to_uint8 (UCAxMCTL e))) /\
  (RING_BUFFER_MAX <= idx (rbs u) ->
   exists u', uart_init_block i status u = (status, u') /\
     rbs u' = rbs u /\ _rbd u' = _rbd u /\
     UCA0CTL1 u' = UCA0CTL1 u /\ IE2 u' = IE2 u /\
     (UCA0BR0 u', UCA0BR1 u', UCA0MCTL u')
     = (to_uint8 (UCAxBR0 e), to_uint8 (UCAxBR1 e), to_uint8 (UCAxMCTL e))).
Proof.
  intros Hr Htbl Hm Hsz Hie.
  destruct (attr_acceptable Hm Hsz) as (Ht & Hb & Hs & Hp & Hlen).
  unfold uart_init_block. rewrite Htbl. split.
  - intros Hidx.
    assert (Hinit : ring_buffer_init (Some (_rbd u)) (Some attr) (rbs u)
                    = (0, Some (Z.to_N (idx (rbs u))),
                       registered attr (rbs u)))
      by (apply init_accepts_pow2; (done || by right)).
    assert (Hframe : forall j, j <> Z.to_nat (idx (rbs u)) ->
              rb_at (registered attr (rbs u)) j = rb_at (rbs u) j).
    { intros j Hj.
      destruct (init_frame (Some (_rbd u)) (Some attr) (rbs u) j) as (_ & E).
      rewrite Hinit in E. by apply E. }
    rewrite Hinit.
    eexists. split; [reflexivity|].
    cbn [_rbd rbs UCA0CTL1 IE2 UCA0BR0 UCA0BR1 UCA0MCTL Z.eqb default].
    pose proof (reachable_ok HP (rbs u) Hr) as Hok.
    destruct (registered_entry HP attr (rbs u) Hok Ht Hidx Hs Hp Hlen)
      as (Hf & Hg & Hq).
    unfold geometry in Hg. injection Hg as E1 E2 E3.
    split; [done|]. split; [done|]. split; [by split|]. split; [done|].
    split; [done|]. split; [done|]. split; [done|].
    split; [apply land_cleared|]. split; [by apply land_set | done].
  - intros Hidx.
    destruct (init_cases (Some (_rbd u)) (Some attr) (rbs u))
      as [((Hlt & _) & _)|(_ & E)]; [lia|].
    rewrite E. eexists. split; [reflexivity|]. done.
Qed.

(** ** [rx_isr] *)

Lemma pending_bound (u : uart) :
  uart_ready u ->
  used (rb_at (rbs u) (N.to_nat (_rbd u))) = Z.of_nat (length (pending u)) /\
  (length (pending u) <= 8)%nat.
Proof.
  intros ((_ & _ & (_ & _ & _ & Hu) & _) & _ & Hn).
  pose proof (used_queue HP (rbs u) (_rbd u)) as E. unfold pending.
  split; [done|]. lia.
Qed.

Lemma rx_isr_idle (u : uart) :
  Z.land (IFG2 u) UCA0RXIFG = 0 -> rx_isr u = Some u.
Proof. intros E. unfold rx_isr. by rewrite E. Qed.

Lemma rx_isr_room (u : uart) :
  uart_ready u -> Z.land (IFG2 u) UCA0RXIFG <> 0 ->
  (length (pending u) < 8)%nat ->
  exists u', rx_isr u = Some u' /\ uart_ready u' /\ _rbd u' = _rbd u /\
    Z.land (IFG2 u') UCA0RXIFG = 0 /\
    pending u' = pending u ++ [[UCA0RXBUF u]].
Proof.
  intros Hrd Hflag Hroom.
  destruct (pending_bound u Hrd) as (Hu & _).
  destruct Hrd as (Hf & Hs & Hn).
  assert (Hne : used (rb_at (rbs u) (N.to_nat (_rbd u)))
                <> n_elem (rb_at (rbs u) (N.to_nat (_rbd u)))) by lia.
  assert (Hlen : Z.of_nat (length [UCA0RXBUF u])
                 = s_elem (rb_at (rbs u) (N.to_nat (_rbd u))))
    by (rewrite Hs; done).
  destruct (put_step HP (_rbd u) [UCA0RXBUF u] (rbs u) Hf Hne Hlen)
    as (E & Hf' & Hg & Hq).
  unfold rx_isr. destruct (Z.eqb_spec (Z.land (IFG2 u) UCA0RXIFG) 0); [done|].
  rewrite E, Hs. cbn [Z.eqb Z.ltb Z.compare Pos.compare andb].
  eexists. split; [reflexivity|].
  unfold geometry in Hg. injection Hg as E1 E2 E3.
  split; [|split; [done|split; [apply land_cleared|done]]].
  split; [done|]. cbn [rbs _rbd]. split; congruence.
Qed.

Lemma rx_isr_full (u : uart) :
  uart_ready u -> Z.land (IFG2 u) UCA0RXIFG <> 0 ->
  length (pending u) = 8%nat ->
  exists u', rx_isr u = Some u' /\ uart_ready u' /\ _rbd u' = _rbd u /\
    Z.land (IFG2 u') UCA0RXIFG = 0 /\ pending u' = pending u.
Proof.
  intros Hrd Hflag Hfull.
  destruct (pending_bound u Hrd) as (Hu & _).
  pose proof Hrd as (Hf & Hs & Hn).
  destruct (put_cases (_rbd u) [UCA0RXBUF u] (rbs u))
    as [(_ & Hne & _)|(_ & E)]; [lia|].
  unfold rx_isr. destruct (Z.eqb_spec (Z.land (IFG2 u) UCA0RXIFG) 0); [done|].
  rewrite E. cbn [Z.eqb andb].
  eexists. split; [reflexivity|].
  split; [done|split; [done|split; [apply land_cleared|done]]].
Qed.

(** X21: when the flag [UCA0RXIFG] is not set, [rx_isr] does nothing.
    When it is set, [rx_isr] clears it and appends the character of
    [UCA0RXBUF] to the pending ones if fewer than 8 are pending; with
    8 pending the character is dropped and nothing records that. *)
Lemma rx_isr_enqueues (u : uart) :
  uart_ready u ->
  (Z.land (IFG2 u) UCA0RXIFG = 0 -> rx_isr u = Some u) /\
  (Z.land (IFG2 u) UCA0RXIFG <> 0 ->
   exists u', rx_isr u = Some u' /\ uart_ready u' /\ _rbd u' = _rbd u /\
     Z.land (IFG2 u') UCA0RXIFG = 0 /\
     pending u' = if decide (length (pending u) < 8)%nat
                  then pending u ++ [[UCA0RXBUF u]]
                  else pending u).
Proof.
  intros Hrd. split; [apply rx_isr_idle|]. intros Hflag.
  destruct (pending_bound u Hrd) as (_ & Hle).
  destruct (decide _) as [Hlt|Hge].
  - by apply rx_isr_room.
  - apply rx_isr_full; (done || lia).
Qed.

(** ** [uart_getchar] *)

Lemma getchar_empty (u : uart) :
  uart_ready u -> pending u = [] ->
  uart_getchar u = Some (char_to_int xff, u).
Proof.
  intros Hrd Hq. destruct (pending_bound u Hrd) as (Hu & _).
  rewrite Hq in Hu. simpl in Hu.
  destruct (get_cases (_rbd u) (rbs u)) as [(_ & Hne & _)|(_ & E)]; [done|].
  unfold uart_getchar. rewrite E. by destruct u.
Qed.

Lemma getchar_front (u : uart) (d : list byte) (q : list (list byte)) :
  uart_ready u -> pending u = d :: q ->
  exists b u', d = [b] /\ uart_getchar u = Some (char_to_int b, u') /\
    pending u' = q /\ uart_ready u' /\ _rbd u' = _rbd u /\ IFG2 u' = IFG2 u.
Proof.
  intros Hrd Hq. destruct (pending_bound u Hrd) as (Hu & _).
  rewrite Hq in Hu. simpl length in Hu.
  destruct Hrd as (Hf & Hs & Hn).
  destruct (get_step HP (_rbd u) (rbs u) Hf ltac:(lia)) as (E & Hf' & Hg & Hq').
  unfold pending in Hq. rewrite Hq' in Hq. injection Hq as Ed Eq.
  unfold geometry in Hg. injection Hg as E1 E2 E3.
  assert (Hfront : front (_rbd u) (rbs u)
                   = [memory (rbs u)
                        (buf (rb_at (rbs u) (N.to_nat (_rbd u)))
                         + offset_of (rb_at (rbs u) (N.to_nat (_rbd u)))
                             (tail (rb_at (rbs u) (N.to_nat (_rbd u))))
                         + 0)]).
  { unfold front. rewrite Hs. reflexivity. }
  eexists _, _. split; [by rewrite <- Ed, Hfront|].
  unfold uart_getchar. rewrite E, Hfront.
  split; [reflexivity|]. split; [done|].
  split; [|done]. split; [done|]. cbn [rbs _rbd]. split; congruence.
Qed.

(** X22: [uart_getchar] returns the oldest pending character, as an
    [int], and removes it; with nothing pending it returns the value
    that [char c = -1] has as an [int] and changes nothing. *)
Lemma uart_getchar_dequeues (u : uart) :
  uart_ready u ->
  (pending u = [] -> uart_getchar u = Some (char_to_int xff, u)) /\
  (forall d q, pending u = d :: q ->
   exists b u', d = [b] /\ uart_getchar u = Some (char_to_int b, u') /\
     pending u' = q /\ uart_ready u').
Proof.
  intros Hrd. split; [by apply getchar_empty|].
  intros d q Hq.
  destruct (getchar_front u d q Hrd Hq) as (b & u' & H1 & H2 & H3 & H4 & _).
  by exists b, u'.
Qed.

(** X23: what [uart_getchar] returns with nothing pending is what it
    returns for the received character [0xFF]: -1 where [char] is
    signed and 255 where it is not. *)
Lemma getchar_empty_ambiguous (u1 u2 : uart) (q : list (list byte)) :
  uart_ready u1 -> pending u1 = [] ->
  uart_ready u2 -> pending u2 = [xff] :: q ->
  fst <$> uart_getchar u1 = Some (if char_signed then -1 else 255) /\
  fst <$> uart_getchar u2 = Some (if char_signed then -1 else 255).
Proof.
  intros Hr1 Hq1 Hr2 Hq2.
  assert (Hv : char_to_int xff = if char_signed then -1 else 255)
    by (unfold char_to_int; by destruct char_signed).
  split.
  - rewrite getchar_empty by done. simpl. by rewrite Hv.
  - destruct (getchar_front u2 _ q Hr2 Hq2) as (b & u' & [= <-] & -> & _).
    simpl. by rewrite Hv.
Qed.

(** ** Characters in, characters out *)

Lemma arrive_ready (b : byte) (u : uart) :
  uart_ready u -> UCA0RXIFG <> 0 ->
  uart_ready (arrive b u) /\ pending (arrive b u) = pending u /\
  UCA0RXBUF (arrive b u) = b /\
  Z.land (IFG2 (arrive b u)) UCA0RXIFG <> 0.
Proof.
  intros Hrd Hm. repeat split; try apply Hrd.
  simpl. by rewrite land_lor_same.
Qed.

Lemma receive_all_pending (bs : list byte) (u : uart) :
  uart_ready u -> UCA0RXIFG <> 0 ->
  exists u', receive_all bs u = Some u' /\ uart_ready u' /\
    pending u'
    = pending u ++ ((fun b => [b]) <$> take (8 - length (pending u)) bs).
Proof.
  intros Hrd Hm. revert u Hrd.
  induction bs as [|b bs IH]; intros u Hrd.
  - exists u. rewrite take_nil. simpl. by rewrite app_nil_r.
  - destruct (arrive_ready b u Hrd Hm) as (Hrd' & Hq & Hb & Hflag).
    destruct (pending_bound u Hrd) as (_ & Hle).
    cbn [receive_all].
    destruct (decide (length (pending u) < 8)%nat) as [Hlt|Hge].
    + destruct (rx_isr_room (arrive b u) Hrd' Hflag)
        as (u1 & E & Hrd1 & _ & _ & Hq1); [by rewrite Hq|].
      rewrite E. simpl. destruct (IH u1 Hrd1) as (u' & E' & Hrd2 & Hq2).
      exists u'. split; [done|]. split; [done|].
      rewrite Hq2, Hq1, Hq, Hb, length_app. simpl length.
      replace (8 - length (pending u))%nat
        with (S (8 - (length (pending u) + 1)))%nat by lia.
      rewrite firstn_cons, fmap_cons, <- app_assoc. done.
    + destruct (rx_isr_full (arrive b u) Hrd' Hflag)
        as (u1 & E & Hrd1 & _ & _ & Hq1); [rewrite Hq; lia|].
      rewrite E. simpl. destruct (IH u1 Hrd1) as (u' & E' & Hrd2 & Hq2).
      exists u'. split; [done|]. split; [done|].
      rewrite Hq2, Hq1, Hq.
      replace (8 - length (pending u))%nat with 0%nat by lia.
      by rewrite !take_0.
Qed.

Lemma getchars_pending (cs : list byte) (q : list (list byte)) (u : uart) :
  uart_ready u -> pending u = ((fun b => [b]) <$> cs) ++ q ->
  exists u', getchars (length cs) u = Some (char_to_int <$> cs, u') /\
    uart_ready u' /\ pending u' = q.
Proof.
  revert u. induction cs as [|c cs IH]; intros u Hrd Hq.
  - by exists u.
  - rewrite fmap_cons in Hq.
    destruct (getchar_front u [c] _ Hrd Hq)
      as (b & u1 & [= <-] & E & Hq1 & Hrd1 & _).
    destruct (IH u1 Hrd1 Hq1) as (u' & E' & Hrd' & Hq').
    exists u'. cbn [getchars length]. rewrite E. simpl. rewrite E'. done.
Qed.

(** X24: when characters come in with nothing pending, the first 8
    are stored and the later ones are lost; as many calls of
    [uart_getchar] then return the stored characters in the order
    they came in, and the next call finds nothing pending. *)
Lemma received_chars_in_order (bs : list byte) (u : uart) :
  uart_ready u -> pending u = [] -> UCA0RXIFG <> 0 ->
  exists u1 u2,
    receive_all bs u = Some u1 /\
    pending u1 = (fun b => [b]) <$> take 8 bs /\
    getchars (length (take 8 bs)) u1
    = Some (char_to_int <$> take 8 bs, u2) /\
    uart_getchar u2 = Some (char_to_int xff, u2).
Proof.
  intros Hrd Hq Hm.
  destruct (receive_all_pending bs u Hrd Hm) as (u1 & E1 & Hrd1 & Hq1).
  rewrite Hq in Hq1. simpl in Hq1.
  destruct (getchars_pending (take 8 bs) [] u1 Hrd1) as (u2 & E2 & Hrd2 & Hq2);
    [by rewrite app_nil_r|].
  exists u1, u2. split; [done|]. split; [done|]. split; [done|].
  by apply getchar_empty.
Qed.

End WithParams.

(** ** The driver on a target with a 16-bit [size_t] *)

Definition msp430 : Params :=
  {| rb_params := rb16; char_signed := true; _rbmem := 512;
     _baud_tbl := [mkBaud 104 0 2];
     UCA0RXIFG := 1; UCSWRST := 1; UCA0RXIE := 1 |}.

(** The statics and registers before [uart_init]: the peripheral is
    held in reset. *)
Definition in_reset : uart :=
  {| rbs := @start rb16 zeroed; _rbd := 0%N; IFG2 := 0; IE2 := 0;
     UCA0CTL1 := 1; UCA0RXBUF := x00;
     UCA0BR0 := 0; UCA0BR1 := 0; UCA0MCTL := 0 |}.

(** The same with both entries of the table of ring buffers taken by
    other callers. *)
Definition table_full : uart :=
  {| rbs := (@ring_buffer_init rb16 (Some 0%N) (Some (mkAttr 2 4 600))
               (@ring_buffer_init rb16 (Some 0%N) (Some (mkAttr 1 2 700))
                  (@start rb16 zeroed)).2).2;
     _rbd := 0%N; IFG2 := 0; IE2 := 0;
     UCA0CTL1 := 1; UCA0RXBUF := x00;
     UCA0BR0 := 0; UCA0BR1 := 0; UCA0MCTL := 0 |}.

(** After [uart_init], and with the character [c] received and stored. *)
Definition initialised : uart := (@uart_init_block msp430 0 (-1) in_reset).2.

Definition holding (c : byte) : uart :=
  {| rbs := @put_state rb16 0%N [c] (rbs initialised); _rbd := 0%N;
     IFG2 := 0; IE2 := 1; UCA0CTL1 := 0; UCA0RXBUF := c;
     UCA0BR0 := 104; UCA0BR1 := 0; UCA0MCTL := 2 |}.

Ltac ready_by_evaluation :=
  split;
  [ split; [vm_compute; reflexivity|];
    split; [vm_compute; lia|];
    split; [repeat split; vm_compute; (reflexivity || discriminate)|];
    split; [exists 3; split; [lia | vm_compute; reflexivity]|];
    split; vm_compute; reflexivity
  | split; vm_compute; reflexivity ].

(** *** The statements above at this target *)

Lemma uart_init_registers_witness :
  let P := msp430 in
  let e := mkBaud 104 0 2 in
  ((idx (rbs in_reset) < RING_BUFFER_MAX ->
    exists u', uart_init_block 0 (-1) in_reset = (0, u') /\
      _rbd u' = Z.to_N (idx (rbs in_reset)) /\
      idx (rbs u') = idx (rbs in_reset) + 1 /\
      uart_ready u' /\
      buf (rb_at (rbs u') (N.to_nat (_rbd u'))) = _rbmem /\
      pending u' = [] /\
      memory (rbs u') = memory (rbs in_reset) /\
      (forall j, j <> Z.to_nat (idx (rbs in_reset)) ->
         rb_at (rbs u') j = rb_at (rbs in_reset) j) /\
      Z.land (UCA0CTL1 u') UCSWRST = 0 /\
      Z.land (IE2 u') UCA0RXIE = UCA0RXIE /\
      (UCA0BR0 u', UCA0BR1 u', UCA0MCTL u')
      = (to_uint8 (UCAxBR0 e), to_uint8 (UCAxBR1 e),
         to_uint8 (UCAxMCTL e))) /\
   (RING_BUFFER_MAX <= idx (rbs in_reset) ->
    exists u', uart_init_block 0 (-1) in_reset = (-1, u') /\
      rbs u' = rbs in_reset /\ _rbd u' = _rbd in_reset /\
      UCA0CTL1 u' = UCA0CTL1 in_reset /\ IE2 u' = IE2 in_reset /\
      (UCA0BR0 u', UCA0BR1 u', UCA0MCTL u')
      = (to_uint8 (UCAxBR0 e), to_uint8 (UCAxBR1 e),
         to_uint8 (UCAxMCTL e)))) /\
  ((idx (rbs table_full) < RING_BUFFER_MAX ->
    exists u', uart_init_block 0 (-1) table_full = (0, u') /\
      _rbd u' = Z.to_N (idx (rbs table_full)) /\
      idx (rbs u') = idx (rbs table_full) + 1 /\
      uart_ready u' /\
      buf (rb_at (rbs u') (N.to_nat (_rbd u'))) = _rbmem /\
      pending u' = [] /\
      memory (rbs u') = memory (rbs table_full) /\
      (forall j, j <> Z.to_nat (idx (rbs table_full)) ->
         rb_at (rbs u') j = rb_at (rbs table_full) j) /\
      Z.land (UCA0CTL1 u') UCSWRST = 0 /\
      Z.land (IE2 u') UCA0RXIE = UCA0RXIE /\
      (UCA0BR0 u', UCA0BR1 u', UCA0MCTL u')
      = (to_uint8 (UCAxBR0 e), to_uint8 (UCAxBR1 e),
         to_uint8 (UCAxMCTL e))) /\
   (RING_BUFFER_MAX <= idx (rbs table_full) ->
    exists u', uart_init_block 0 (-1) table_full = (-1, u') /\
      rbs u' = rbs table_full /\ _rbd u' = _rbd table_full /\
      UCA0CTL1 u' = UCA0CTL1 table_full /\ IE2 u' = IE2 table_full /\
      (UCA0BR0 u', UCA0BR1 u', UCA0MCTL u')
      = (to_uint8 (UCAxBR0 e), to_uint8 (UCAxBR1 e),
         to_uint8 (UCAxMCTL e)))).
Proof.
  intros P e.
  assert (H : @RingBuffer.params_ok rb16) by (split; vm_compute; reflexivity).
  split.
  - apply (@uart_init_registers msp430 H 0%nat e).
    + apply reach_start.
    + reflexivity.
    + vm_compute. reflexivity.
    + vm_compute. reflexivity.
    + vm_compute. split; (reflexivity || discriminate).
  - apply (@uart_init_registers msp430 H 0%nat e).
    + apply reach_init;
        [|repeat split; vm_compute; (reflexivity || discriminate)].
      apply reach_init;
        [|repeat split; vm_compute; (reflexivity || discriminate)].
      apply reach_start.
    + reflexivity.
    + vm_compute. reflexivity.
    + vm_compute. reflexivity.
    + vm_compute. split; (reflexivity || discriminate).
Defined.

Lemma rx_isr_enqueues_witness :
  let P := msp430 in
  let u := arrive "a"%byte initialised in
  (Z.land (IFG2 u) UCA0RXIFG = 0 -> rx_isr u = Some u) /\
  (Z.land (IFG2 u) UCA0RXIFG <> 0 ->
   exists u', rx_isr u = Some u' /\ uart_ready u' /\ _rbd u' = _rbd u /\
     Z.land (IFG2 u') UCA0RXIFG = 0 /\
     pending u' = if decide (length (pending u) < 8)%nat
                  then pending u ++ [[UCA0RXBUF u]]
                  else pending u).
Proof.
  intros P u.
  assert (H : @RingBuffer.params_ok rb16) by (split; vm_compute; reflexivity).
  apply (@rx_isr_enqueues msp430 H u). ready_by_evaluation.
Defined.

Lemma uart_getchar_dequeues_witness :
  let P := msp430 in
  let u := holding "a"%byte in
  (pending u = [] -> uart_getchar u = Some (char_to_int xff, u)) /\
  (forall d q, pending u = d :: q ->
   exists b u', d = [b] /\ uart_getchar u = Some (char_to_int b, u') /\
     pending u' = q /\ uart_ready u').
Proof.
  intros P u.
  assert (H : @RingBuffer.params_ok rb16) by (split; vm_compute; reflexivity).
  apply (@uart_getchar_dequeues msp430 H u). ready_by_evaluation.
Defined.

Lemma getchar_empty_ambiguous_witness :
  let P := msp430 in
  fst <$> uart_getchar initialised = Some (if char_signed then -1 else 255) /\
  fst <$> uart_getchar (holding xff)
  = Some (if char_signed then -1 else 255).
Proof.
  intros P.
  assert (H : @RingBuffer.params_ok rb16) by (split; vm_compute; reflexivity).
  apply (@getchar_empty_ambiguous msp430 H initialised (holding xff) []).
  - ready_by_evaluation.
  - vm_compute. reflexivity.
  - ready_by_evaluation.
  - vm_compute. reflexivity.
Defined.

Lemma received_chars_in_order_witness :
  let P := msp430 in
  let bs := ["a"; "b"; "c"; "d"; "e"; "f"; "g"; "h"; "i"; "j"]%byte in
  exists u1 u2,
    receive_all bs initialised = Some u1 /\
    pending u1 = (fun b => [b]) <$> take 8 bs /\
    getchars (length (take 8 bs)) u1
    = Some (char_to_int <$> take 8 bs, u2) /\
    uart_getchar u2 = Some (char_to_int xff, u2).
Proof.
  intros P bs.
  assert (H : @RingBuffer.params_ok rb16) by (split; vm_compute; reflexivity).
  apply (@received_chars_in_order msp430 H bs initialised).
  - ready_by_evaluation.
  - vm_compute. reflexivity.
  - vm_compute. discriminate.
Defined.

End UartProofs.
